(** * OpsBot relay tunnel: a shallow embedding of the tunnel engine

    The development follows the four programs of the repository that make
    up the tunnel engine:

    - the raw passthrough sender (the script embedded in
      [Gitea_AzureRelayListener/README.md]): write queue, chunking and
      relay connection retry;
    - the Gitea listener (second script of [client/relay_sender.js]):
      request parsing, close policy, heartbeat sweep;
    - the command server ([server/relay_listener.js]): connection
      registry and stale-connection cleanup;
    - the command client (first script of [client/relay_sender.js]):
      [connectWithRetry] and [sendCommand].

    JavaScript numbers that hold sizes, counters and timestamps are
    modelled as [Z]; retry delays, which take fractional values, as exact
    rationals [Q] (every delay that occurs is a dyadic rational with a
    short mantissa, on which double arithmetic is exact); buffers as lists
    of bytes; strings as [string]; [Map] objects as [gmap].  Functions
    that loop or call themselves take a [fuel] argument and return [None]
    when it runs out; the properties show that the fuel given by the
    callers is enough. *)

From Stdlib Require Import ZArith QArith Qminmax Lia.
From stdpp Require Import gmap strings list fin_maps.

Local Open Scope Z_scope.

(** ** Raw passthrough sender: relay to local socket *)

Module Passthrough.

Definition Buffer : Type := list Byte.byte.

(** [data.length] *)
Definition blen (b : Buffer) : Z := Z.of_nat (length b).

(** [data.slice(start, end)] for non-negative [start] and [end]: both are
    clamped to the length, and the result is empty when [end <= start]. *)
Definition slice (b : Buffer) (start end_ : Z) : Buffer :=
  take (Z.to_nat (end_ - start)) (drop (Z.to_nat start) b).

(** [const MAX_BUFFER_SIZE = 1024 * 1024; // 1MB is a good balance] *)
Definition MAX_BUFFER_SIZE : Z := 1024 * 1024.

(** The [for (let i = 0; i < data.length; i += chunkSize)] loop of the
    message handler.  [fuel] bounds the number of iterations; [None] means
    the bound was too small. *)
Fixpoint chunk_loop (fuel : nat) (chunkSize : Z) (data : Buffer) (i : Z)
    (pendingWrites : list Buffer) : option (list Buffer) :=
  if i <? blen data then
    match fuel with
    | O => None
    | S fuel' =>
        let chunk := slice data i (Z.min (i + chunkSize) (blen data)) in
        chunk_loop fuel' chunkSize data (i + chunkSize) (pendingWrites ++ [chunk])
    end
  else Some pendingWrites.

(** The queueing part of [ws.on('message')]: large data is split, anything
    else is pushed as it is. *)
Definition enqueue (data : Buffer) (pendingWrites : list Buffer)
    : option (list Buffer) :=
  if blen data >? MAX_BUFFER_SIZE then
    let chunkSize := MAX_BUFFER_SIZE / 2 in
    chunk_loop (length data) chunkSize data 0 pendingWrites
  else Some (pendingWrites ++ [data]).

(** What one call of [socket.write(data)] does: it returns [true], it
    returns [false] (the stream keeps the data and will emit ['drain']),
    or it throws. *)
Inductive write_result := WriteFlushed | WriteBuffered | WriteThrows.

(** The two listeners that [processWriteQueue] registers with
    [socket.once('drain', ...)]: the first resumes the queue directly, the
    second through [setImmediate]. *)
Inductive drain_listener := DrainThenProcess | DrainThenImmediate.

(** The per-connection closure state of [setupWebSocketHandlers] together
    with the part of the socket and of the event loop it acts on. *)
Record session := Session {
  pendingWrites : list Buffer;
  isWriting : bool;
  written : list Buffer;
  drainListeners : list drain_listener;
  immediates : nat;
  socketBehaviour : list write_result
}.

Definition idle (behaviour : list write_result) : session :=
  Session [] false [] [] 0 behaviour.

Definition set_isWriting (b : bool) (s : session) : session :=
  Session (pendingWrites s) b (written s) (drainListeners s) (immediates s)
    (socketBehaviour s).

Definition set_pendingWrites (q : list Buffer) (s : session) : session :=
  Session q (isWriting s) (written s) (drainListeners s) (immediates s)
    (socketBehaviour s).

Definition once_drain (l : drain_listener) (s : session) : session :=
  Session (pendingWrites s) (isWriting s) (written s) (drainListeners s ++ [l])
    (immediates s) (socketBehaviour s).

Definition setImmediate (s : session) : session :=
  Session (pendingWrites s) (isWriting s) (written s) (drainListeners s)
    (S (immediates s)) (socketBehaviour s).

(** [socket.write(data)]: the next entry of [socketBehaviour] decides the
    result (a socket with no entry left accepts everything). *)
Definition socket_write (data : Buffer) (s : session) : write_result * session :=
  let r := match socketBehaviour s with [] => WriteFlushed | r :: _ => r end in
  let out := match r with WriteThrows => written s | _ => written s ++ [data] end in
  (r, Session (pendingWrites s) (isWriting s) out (drainListeners s)
        (immediates s) (tl (socketBehaviour s))).

(** [processWriteQueue], both [try] blocks of it. *)
Fixpoint processWriteQueue (fuel : nat) (s : session) : option session :=
  match fuel with
  | O => None
  | S fuel' =>
      match pendingWrites s with
      | [] => Some s
      | data :: rest =>
          if isWriting s then Some s
          else
            let s := set_pendingWrites rest (set_isWriting true s) in
            let '(writeSuccess, s) := socket_write data s in
            after_first ←
              match writeSuccess with
              | WriteBuffered => Some (once_drain DrainThenProcess s)
              | WriteFlushed | WriteThrows =>
                  processWriteQueue fuel' (set_isWriting false s)
              end;
            let '(writeSuccess, s) := socket_write data after_first in
            Some match writeSuccess with
                 | WriteBuffered => once_drain DrainThenImmediate s
                 | WriteFlushed | WriteThrows =>
                     setImmediate (set_isWriting false s)
                 end
      end
  end.

(** A call of [processWriteQueue] with fuel for the whole queue. *)
Definition run_processWriteQueue (s : session) : option session :=
  processWriteQueue (S (length (pendingWrites s))) s.

(** [ws.on('message', (data) => ...)] *)
Definition on_message (data : Buffer) (s : session) : option session :=
  q ← enqueue data (pendingWrites s);
  run_processWriteQueue (set_pendingWrites q s).

(** One registered drain listener running. *)
Definition run_drain_listener (l : drain_listener) (s : session) : option session :=
  match l with
  | DrainThenProcess => run_processWriteQueue (set_isWriting false s)
  | DrainThenImmediate => Some (setImmediate (set_isWriting false s))
  end.

(** The socket emits ['drain']: the listeners registered so far run once
    each, in registration order, and are removed. *)
Definition on_drain (s : session) : option session :=
  let ls := drainListeners s in
  let s := Session (pendingWrites s) (isWriting s) (written s) []
             (immediates s) (socketBehaviour s) in
  foldl (fun acc l => s ← acc; run_drain_listener l s) (Some s) ls.

(** The event loop runs one callback queued by [setImmediate]. *)
Definition on_immediate (s : session) : option session :=
  match immediates s with
  | O => Some s
  | S n =>
      run_processWriteQueue
        (Session (pendingWrites s) (isWriting s) (written s) (drainListeners s)
           n (socketBehaviour s))
  end.

Inductive event := RelayMessage (data : Buffer) | SocketDrain | Immediate.

Definition handle (e : event) (s : session) : option session :=
  match e with
  | RelayMessage data => on_message data s
  | SocketDrain => on_drain s
  | Immediate => on_immediate s
  end.

Definition run (es : list event) (s : session) : option session :=
  foldl (fun acc e => s ← acc; handle e s) (Some s) es.

(** The bytes the local socket has been given, in order. *)
Definition bytes_written (s : session) : Buffer := concat (written s).

End Passthrough.

(** ** Raw passthrough sender: connecting to the relay *)

Module SenderRetry.

(** What [WebSocket.relayedConnect] does on one attempt: it calls the open
    callback, it calls the error callback, or it throws. *)
Inductive attempt := Opens | Fails | Throws.

(** What [connectWithRetry] does, in order. *)
Inductive action :=
  | Attempt (retryCount : Z)
  | Connected
  | Wait (delay : Q)
  | SocketEnd
  | RegistryDelete.

(** [retryCount === 0 ? 200 : Math.min(Math.pow(1.5, retryCount) * 500, 5000)] *)
Definition retry_delay (retryCount : Z) : Q :=
  if retryCount =? 0 then 200%Q
  else Qmin (Qpower 1.5 retryCount * 500) 5000.

(** [connectWithRetry(retryCount = 0, maxRetries = 10)]; the recursive call
    goes through [setTimeout]. *)
Fixpoint connectWithRetry (fuel : nat) (relay : Z → attempt)
    (retryCount maxRetries : Z) : option (list action) :=
  match fuel with
  | O => None
  | S fuel' =>
      match relay retryCount with
      | Opens => Some [Attempt retryCount; Connected]
      | Fails =>
          if retryCount <? maxRetries then
            rest ← connectWithRetry fuel' relay (retryCount + 1) maxRetries;
            Some (Attempt retryCount :: Wait (retry_delay retryCount) :: rest)
          else Some [Attempt retryCount; SocketEnd; RegistryDelete]
      | Throws =>
          if retryCount <? maxRetries then
            rest ← connectWithRetry fuel' relay (retryCount + 1) maxRetries;
            Some (Attempt retryCount :: Wait (retry_delay retryCount) :: rest)
          else Some [Attempt retryCount; SocketEnd]
      end
  end.

(** [connectWithRetry()] as the connection handler starts it. *)
Definition start (relay : Z → attempt) : option (list action) :=
  connectWithRetry 11 relay 0 10.

Definition waits (tr : list action) : list Q :=
  omap (fun a => match a with Wait d => Some d | _ => None end) tr.

Definition attempts (tr : list action) : nat :=
  length (omap (fun a => match a with Attempt r => Some r | _ => None end) tr).

End SenderRetry.

(** ** Command client: connecting to the relay *)

Module ClientRetry.

(** [config.connection] *)
Definition initialRetryDelay : Q := 200.
Definition maxRetryCount : Z := 10.
Definition maxRetryDelay : Q := 5000.

(** One pass through the [try] block.  [await testConnectivity] may
    reject, which the [catch] sees.  The promise built around the
    WebSocket is returned without [await]: the function has completed with
    it, so its rejection reaches the caller and not the [catch]. *)
Inductive attempt :=
  | ConnectivityFails
  | RelayOpens
  | RelayFails.

Inductive action :=
  | Attempt (retryCount : Z)
  | Wait (delay : Q)
  | Resolve
  | Reject
  | ThrowFailedToConnect
  | ReturnUndefined.

(** [Math.min(delay * 1.5, config.connection.maxRetryDelay)] *)
Definition next_delay (delay : Q) : Q := Qmin (delay * 1.5) maxRetryDelay.

(** The [while (retryCount < config.connection.maxRetryCount)] loop. *)
Fixpoint retry_loop (fuel : nat) (relay : Z → attempt)
    (retryCount : Z) (delay : Q) : option (list action) :=
  if retryCount <? maxRetryCount then
    match fuel with
    | O => None
    | S fuel' =>
        match relay retryCount with
        | RelayOpens => Some [Attempt retryCount; Resolve]
        | RelayFails => Some [Attempt retryCount; Reject]
        | ConnectivityFails =>
            if retryCount >=? maxRetryCount - 1 then
              Some [Attempt retryCount; ThrowFailedToConnect]
            else
              rest ← retry_loop fuel' relay (retryCount + 1) (next_delay delay);
              Some (Attempt retryCount :: Wait delay :: rest)
        end
    end
  else Some [ReturnUndefined].

(** [connectWithRetry()] *)
Definition connectWithRetry (relay : Z → attempt) : option (list action) :=
  retry_loop (Z.to_nat maxRetryCount) relay 0 initialRetryDelay.

Definition waits (tr : list action) : list Q :=
  omap (fun a => match a with Wait d => Some d | _ => None end) tr.

Definition attempts (tr : list action) : nat :=
  length (omap (fun a => match a with Attempt r => Some r | _ => None end) tr).

(** The delay sequence in the words of the specification:
    [d_1 = 200], [d_{n+1} = min(d_n * 1.5, 5000)]; [n] counts from 1. *)
Fixpoint spec_delay (n : nat) : Q :=
  match n with
  | O => 200
  | S O => 200
  | S n' => Qmin (spec_delay n' * 1.5) 5000
  end.

(** What [n] failed connectivity tests in a row leave in the trace, from
    attempt [retryCount] with delay [delay] on. *)
Fixpoint failures (n : nat) (retryCount : Z) (delay : Q) : list action :=
  match n with
  | O => []
  | S n' =>
      Attempt retryCount :: Wait delay
        :: failures n' (retryCount + 1) (next_delay delay)
  end.

End ClientRetry.

(** ** The relay channel object shared by listener and server *)

Module WebSocket.

Inductive readyState := CONNECTING | OPEN | CLOSING | CLOSED.

Global Instance readyState_eq_dec : EqDecision readyState.
Proof. solve_decision. Defined.

(** A channel as the handlers see it: its [readyState], the [close]
    calls made on it (code and reason, [None] for a bare [close()]), the
    number of pings sent, and whether [ping()] throws. *)
Record t := Make {
  state : readyState;
  closeCalls : list (option (Z * string));
  pings : nat;
  pingThrows : bool
}.

Definition fresh : t := Make OPEN [] 0 false.

Definition isOpen (ws : t) : bool := bool_decide (state ws = OPEN).

(** [ws.close(...)]: the call is recorded, and an open or connecting
    channel starts its closing handshake. *)
Definition close (args : option (Z * string)) (ws : t) : t :=
  Make (match state ws with
        | OPEN | CONNECTING => CLOSING
        | s => s
        end)
       (closeCalls ws ++ [args]) (pings ws) (pingThrows ws).

(** [ws.ping()] when it does not throw. *)
Definition ping (ws : t) : t :=
  Make (state ws) (closeCalls ws) (S (pings ws)) (pingThrows ws).

End WebSocket.

(** ** Gitea listener: request parsing, close policy, heartbeat *)

Module GiteaListener.

Local Open Scope string_scope.

(** *** The string methods the handler uses *)

(** [s.split(sep)] for a non-empty separator: [skip] counts the characters
    of a separator occurrence still to be dropped, [piece] is the piece
    being collected. *)
Fixpoint split_go (sep : string) (skip : nat) (piece s : string) : list string :=
  match s with
  | EmptyString => [piece]
  | String c s' =>
      match skip with
      | S k => split_go sep k piece s'
      | O =>
          if String.prefix sep s
          then piece :: split_go sep (String.length sep - 1) "" s'
          else split_go sep 0 (piece +:+ String c "") s'
      end
  end.

Definition split (s sep : string) : list string := split_go sep 0 "" s.

(** [s.endsWith(suffix)] *)
Fixpoint endsWith (s suffix : string) : bool :=
  String.eqb s suffix ||
  match s with
  | EmptyString => false
  | String _ s' => endsWith s' suffix
  end.

(** [s.includes(sub)] *)
Fixpoint includes (s sub : string) : bool :=
  String.prefix sub s ||
  match s with
  | EmptyString => false
  | String _ s' => includes s' sub
  end.

Definition CRLF : string :=
  String (Ascii.ascii_of_nat 13) (String (Ascii.ascii_of_nat 10) "").

(** An array element or destructured variable: [None] is [undefined]. *)
Definition truthy (v : option string) : bool :=
  match v with
  | Some (String _ _) => true
  | _ => false
  end.

(** [v || fallback] *)
Definition or_else (v : option string) (fallback : string) : string :=
  match v with
  | Some (String c s) => String c s
  | _ => fallback
  end.

(** *** Parsing *)

Record httpRequest := HttpRequest {
  method : string;
  path : string;
  headers : gmap string string
}.

(** [headers[key] = value] on an object literal: an own property is added
    or overwritten; the key [__proto__] reaches the prototype setter, which
    ignores a string. *)
Definition assign (key value : string) (headers : gmap string string)
    : gmap string string :=
  if String.eqb key "__proto__" then headers else <[key := value]> headers.

(** The [while (i < requestLines.length && requestLines[i])] loop, on the
    lines from index [i] on. *)
Fixpoint header_loop (lines : list string) (headers : gmap string string)
    : gmap string string :=
  match lines with
  | [] => headers
  | line :: rest =>
      if truthy (Some line) then
        let parts := split line ": " in
        let key := parts !! 0%nat in
        let value := parts !! 1%nat in
        header_loop rest
          (if truthy key && truthy value
           then assign (default "" key) (default "" value) headers
           else headers)
      else headers
  end.

(** What one header line contributes: the key and value the loop assigns,
    if it assigns. *)
Definition header_entry (line : string) : option (string * string) :=
  let parts := split line ": " in
  if truthy (parts !! 0%nat) && truthy (parts !! 1%nat)
  then Some (default "" (parts !! 0%nat), default "" (parts !! 1%nat))
  else None.

(** The lines the loop reads: those before the first empty one. *)
Fixpoint until_blank (lines : list string) : list string :=
  match lines with
  | [] => []
  | line :: rest => if truthy (Some line) then line :: until_blank rest else []
  end.

(** The header lines of a request text. *)
Definition header_lines (requestText : string) : list string :=
  until_blank (drop 1 (split requestText CRLF)).

(** The body of the inner [try]; [None] stands for an exception. *)
Definition try_parse (requestText : string) : option httpRequest :=
  let requestLines := split requestText CRLF in
  requestLine ← requestLines !! 0%nat;
  let parts := split requestLine " " in
  let method := parts !! 0%nat in
  let path := parts !! 1%nat in
  let headers := header_loop (drop 1 requestLines) ∅ in
  Some (HttpRequest (or_else method "GET") (or_else path "/") headers).

(** The request built in the [catch]. *)
Definition default_request : httpRequest := HttpRequest "GET" "/" ∅.

(** [httpRequest] after the inner [try]/[catch]; [requestText] is
    [data.toString('utf8')]. *)
Definition parse (requestText : string) : httpRequest :=
  match try_parse requestText with
  | Some r => r
  | None => default_request
  end.

(** The request line has no method or no path. *)
Definition missing_method_or_path (requestText : string) : bool :=
  let requestLine := default "" (split requestText CRLF !! 0%nat) in
  let parts := split requestLine " " in
  negb (truthy (parts !! 0%nat)) || negb (truthy (parts !! 1%nat)).

(** *** Close policy of the send callback *)

Definition isJsFile (path : string) : bool := endsWith path ".js".
Definition isCssFile (path : string) : bool := endsWith path ".css".
Definition isCoreJsFile (path : string) : bool :=
  isJsFile path &&
  (includes path "webcomponents.js" || includes path "serviceworker.js").

(** A callback given to [setTimeout]. *)
Inductive timer := CloseIfOpen (code : Z) (reason : string).

(** The callback of [ws.send(fullResponse, (err) => ...)]: the channel
    afterwards and the timers it started (delay in ms). *)
Definition send_callback (err : option string) (path : string)
    (ws : WebSocket.t) : WebSocket.t * list (Z * timer) :=
  match err with
  | Some _ => (ws, [])
  | None =>
      if isJsFile path && negb (isCoreJsFile path) then
        (if WebSocket.isOpen ws
         then WebSocket.close (Some (1000%Z, "JavaScript file complete")) ws
         else ws, [])
      else if isCoreJsFile path then (ws, [])
      else if isCssFile path then
        (ws, [(100%Z, CloseIfOpen 1000 "CSS file complete")])
      else (ws, [])
  end.

Definition fire (t : timer) (ws : WebSocket.t) : WebSocket.t :=
  match t with
  | CloseIfOpen code reason =>
      if WebSocket.isOpen ws then WebSocket.close (Some (code, reason)) ws
      else ws
  end.

(** *** Registry and heartbeat *)

(** An entry of [activeConnections]; [lastActivity] is absent from the
    object stored last by the accept handler. *)
Record conn := Conn {
  ws : WebSocket.t;
  lastActivity : option Z
}.

Record listener := Listener {
  activeConnections : gmap Z conn;
  connectionCounter : Z
}.

(** The accept handler up to the registration: [++connectionCounter] and
    the two [activeConnections.set] calls.  The counter is a JavaScript
    number: [++] adds one exactly as long as it is below [2 ^ 53], which
    is the range this definition speaks of. *)
Definition accept (w : WebSocket.t) (now : Z) (l : listener) : listener :=
  let connectionId := (connectionCounter l + 1)%Z in
  let m := <[connectionId := Conn w (Some now)]> (activeConnections l) in
  let m := <[connectionId := Conn w None]> m in
  Listener m connectionId.

(** One entry under [sendHeartbeats]: [None] when the entry is deleted. *)
Definition heartbeat (now : Z) (c : conn) : option conn :=
  if WebSocket.isOpen (ws c) then
    if WebSocket.pingThrows (ws c) then None
    else Some (Conn (WebSocket.ping (ws c)) (Some now))
  else None.

(** [sendHeartbeats()] at time [now]. *)
Definition sendHeartbeats (now : Z) (l : listener) : listener :=
  Listener (omap (heartbeat now) (activeConnections l)) (connectionCounter l).

(** The entries [sendHeartbeats] deletes, as it leaves them. *)
Definition dropped (now : Z) (l : listener) : gmap Z conn :=
  omap (fun c => match heartbeat now c with
                 | None => Some c
                 | Some _ => None
                 end) (activeConnections l).

(** [HEARTBEAT_INTERVAL] *)
Definition HEARTBEAT_INTERVAL : Z := 30000.

(** [ws.on('close')] and [ws.on('error')] of connection [connectionId]. *)
Definition on_close (connectionId : Z) (l : listener) : listener :=
  Listener (delete connectionId (activeConnections l)) (connectionCounter l).

Definition on_error (connectionId : Z) (l : listener) : listener :=
  Listener (delete connectionId (activeConnections l)) (connectionCounter l).

End GiteaListener.

(** ** Command server: connection registry and cleanup *)

Module Server.

(** An entry of [connections]. *)
Record connection := Connection {
  ws : WebSocket.t;
  connectedAt : Z;
  lastActivity : Z;
  isProbe : bool
}.

(** [connections.set(connectionId, {...})] in the accept handler;
    [now] is [new Date()]. *)
Definition on_connection (connectionId : string) (w : WebSocket.t) (now : Z)
    (connections : gmap string connection) : gmap string connection :=
  <[connectionId := Connection w now now false]> connections.

(** The start of the message handler: [connection.lastActivity = new Date()]
    when the entry exists, and the probe mark for a probe message. *)
Definition on_message (connectionId : string) (now : Z) (probe : bool)
    (connections : gmap string connection) : gmap string connection :=
  alter (fun c => Connection (ws c) (connectedAt c) now
                    (if probe then true else isProbe c))
    connectionId connections.

(** [connections.delete(connectionId)] with the boolean it returns. *)
Definition map_delete (connectionId : string)
    (connections : gmap string connection) : bool * gmap string connection :=
  (bool_decide (is_Some (connections !! connectionId)),
   delete connectionId connections).

(** [ws.on('close')] and [ws.on('error')] *)
Definition on_close (connectionId : string)
    (connections : gmap string connection) : gmap string connection :=
  (map_delete connectionId connections).2.

Definition on_error (connectionId : string)
    (connections : gmap string connection) : gmap string connection :=
  (map_delete connectionId connections).2.

(** [inactiveTime > 5 * 60 * 1000] *)
Definition IDLE_LIMIT : Z := 5 * 60 * 1000.

Definition inactive (now : Z) (c : connection) : bool :=
  now - lastActivity c >? IDLE_LIMIT.

(** The entry after [connection.ws.close()]. *)
Definition closed (c : connection) : connection :=
  Connection (WebSocket.close None (ws c)) (connectedAt c) (lastActivity c)
    (isProbe c).

(** The [setInterval] callback of [startConnectionCleanup] at time [now]:
    the entries it closed (as [close()] left them) and the registry it
    leaves. *)
Definition cleanup (now : Z) (connections : gmap string connection)
    : gmap string connection * gmap string connection :=
  (omap (fun c => if inactive now c then Some (closed c) else None) connections,
   omap (fun c => if inactive now c then None else Some c) connections).

(** [cleanedCount] *)
Definition cleanedCount (now : Z) (connections : gmap string connection) : nat :=
  size (cleanup now connections).1.

(** [setInterval(..., 60 * 1000)] *)
Definition CLEANUP_INTERVAL : Z := 60 * 1000.

(** The registry after the first [n] sweeps of a timer started at [t0],
    with no other event in between. *)
Fixpoint sweeps (t0 : Z) (n : nat) (connections : gmap string connection)
    : gmap string connection :=
  match n with
  | O => connections
  | S n' =>
      (cleanup (t0 + Z.of_nat n * CLEANUP_INTERVAL)
         (sweeps t0 n' connections)).2
  end.

End Server.

(** ** Command client: [sendCommand] and the handlers that answer it *)

Module Client.

Local Open Scope string_scope.

(** The JavaScript values that travel through the callbacks. *)
Inductive jsval :=
  | JUndefined
  | JNull
  | JBool (b : bool)
  | JNum (n : Z)
  | JStr (s : string)
  | JError (message : string).

Definition truthy (v : jsval) : bool :=
  match v with
  | JUndefined | JNull => false
  | JBool b => b
  | JNum n => negb (n =? 0)%Z
  | JStr s => negb (String.eqb s "")
  | JError _ => true
  end.

Inductive settlement := Resolved (v : jsval) | Rejected (reason : jsval).

(** A promise made by [sendCommand]: its settlement, and how often its
    [resolve] or [reject] has been called. *)
Record promise := Promise {
  outcome : option settlement;
  settle_calls : nat
}.

Definition pending : promise := Promise None 0.

(** A call of [resolve] or [reject]: only the first one settles. *)
Definition settle (r : settlement) (p : promise) : promise :=
  Promise (match outcome p with None => Some r | o => o end)
          (S (settle_calls p)).

(** Module state of the client.  A callback stored in [pendingCommands]
    is represented by the index of the promise it settles; a timeout set
    by [sendCommand] by the promise and the command name it captured,
    under the id it captured. *)
Record client := Client_ {
  connected : bool;
  ws : option WebSocket.t;
  commandId : Z;
  pendingCommands : gmap Z nat;
  promises : list promise;
  timeouts : gmap Z (nat * string);
  sent : list (Z * string)
}.

(** The module as loaded: [ws = null], [connected = false],
    [commandId = 1]. *)
Definition initial : client := Client_ false None 1 ∅ [] ∅ [].

Definition settle_at (p : nat) (r : settlement) (ps : list promise)
    : list promise :=
  alter (settle r) p ps.

(** The callback stored by [sendCommand]:
    [(error, result) => error ? reject(error) : resolve(result)]. *)
Definition callback (p : nat) (error result : jsval) (ps : list promise)
    : list promise :=
  if truthy error then settle_at p (Rejected error) ps
  else settle_at p (Resolved result) ps.

(** [sendCommand(command)]: the new state and the index of the promise
    returned. *)
Definition sendCommand (command : string) (c : client) : client * nat :=
  let p := length (promises c) in
  if negb (connected c) || negb (bool_decide (is_Some (ws c))) then
    (Client_ (connected c) (ws c) (commandId c) (pendingCommands c)
       (promises c ++ [settle (Rejected (JError "Not connected to server")) pending])
       (timeouts c) (sent c), p)
  else
    let id := commandId c in
    (Client_ (connected c) (ws c) (id + 1)
       (<[id := p]> (pendingCommands c))
       (promises c ++ [pending])
       (<[id := (p, command)]> (timeouts c))
       (sent c ++ [(id, command)]), p).

(** The 30 second timeout of the command with this id fires. *)
Definition on_timeout (id : Z) (c : client) : client :=
  match timeouts c !! id with
  | None => c
  | Some (p, command) =>
      if bool_decide (is_Some (pendingCommands c !! id)) then
        Client_ (connected c) (ws c) (commandId c)
          (delete id (pendingCommands c))
          (settle_at p (Rejected (JError ("Command timed out: " +:+ command)))
             (promises c))
          (delete id (timeouts c)) (sent c)
      else
        Client_ (connected c) (ws c) (commandId c) (pendingCommands c)
          (promises c) (delete id (timeouts c)) (sent c)
  end.

(** A relay message after [JSON.parse]. *)
Record message := Message {
  type : jsval;
  id : jsval;
  error : jsval;
  result : jsval
}.

(** [data.type === 'command_response'] *)
Definition is_command_response (type : jsval) : bool :=
  match type with
  | JStr s => String.eqb s "command_response"
  | _ => false
  end.

(** [ws.on('message')]; [None] is a message that [JSON.parse] rejects. *)
Definition on_message (m : option message) (c : client) : client :=
  match m with
  | None => c
  | Some data =>
      if is_command_response (type data) && truthy (id data) then
        match id data with
        | JNum n =>
            match pendingCommands c !! n with
            | Some p =>
                Client_ (connected c) (ws c) (commandId c)
                  (delete n (pendingCommands c))
                  (callback p (error data) (result data) (promises c))
                  (timeouts c) (sent c)
            | None => c
            end
        | _ => c
        end
      else c
  end.

(** [ws.on('close')]: every stored callback is called with the error and
    deleted. *)
Definition on_close (c : client) : client :=
  Client_ false (ws c) (commandId c) ∅
    (foldr (fun entry ps =>
              callback entry.2 (JError "Connection closed") JNull ps)
       (promises c) (map_to_list (pendingCommands c)))
    (timeouts c) (sent c).

(** [initializeConnection] succeeded: [ws = await connectWithRetry()],
    [connected = true]. *)
Definition on_connected (w : WebSocket.t) (c : client) : client :=
  Client_ true (Some w) (commandId c) (pendingCommands c) (promises c)
    (timeouts c) (sent c).

Inductive event :=
  | Connected (w : WebSocket.t)
  | SendCommand (command : string)
  | Incoming (m : option message)
  | Closed
  | Timeout (id : Z).

Definition step (c : client) (e : event) : client :=
  match e with
  | Connected w => on_connected w c
  | SendCommand command => (sendCommand command c).1
  | Incoming m => on_message m c
  | Closed => on_close c
  | Timeout id => on_timeout id c
  end.

Definition run (es : list event) : client := foldl step initial es.

(** The promise is settled, by exactly one call. *)
Definition settled_once (p : promise) : Prop :=
  is_Some (outcome p) ∧ settle_calls p = 1%nat.

(** The promise with index [p] is waiting under [id]: not settled, its
    callback stored, its timeout running. *)
Definition waiting (c : client) (p : nat) (id : Z) : Prop :=
  promises c !! p = Some pending ∧
  pendingCommands c !! id = Some p ∧
  ∃ command, timeouts c !! id = Some (p, command).

(** The bookkeeping that holds in every state the client can reach. *)
Record consistent (c : client) : Prop := Consistent {
  stored_waiting :
    ∀ id p, pendingCommands c !! id = Some p → waiting c p id;
  settled_or_stored :
    ∀ p pr, promises c !! p = Some pr →
            settled_once pr ∨ ∃ id, pendingCommands c !! id = Some p;
  one_id_per_promise :
    ∀ id1 id2 p, pendingCommands c !! id1 = Some p →
                 pendingCommands c !! id2 = Some p → id1 = id2;
  ids_issued :
    ∀ id, is_Some (pendingCommands c !! id) ∨ is_Some (timeouts c !! id) →
          (1 ≤ id < commandId c)%Z;
  commandId_positive : (1 ≤ commandId c)%Z
}.

End Client.

(** ** Inputs used in the examples below *)

Module Examples.

Import Passthrough.

(** A relay message of 600 KB: above 512 KB, below [MAX_BUFFER_SIZE]. *)
Definition message_600KB : Buffer := repeat Byte.x00 (Z.to_nat (600 * 1024)).

(** [ceil(n / d)] for positive [d]. *)
Definition ceil_div (n d : Z) : Z := (n + d - 1) / d.

(** A request that carries the header [X] twice. *)
Definition dup_request : string :=
  "GET / HTTP/1.1" +:+ GiteaListener.CRLF +:+
  "X: a" +:+ GiteaListener.CRLF +:+
  "X: b" +:+ GiteaListener.CRLF +:+ GiteaListener.CRLF.

(** A channel whose closing handshake has begun. *)
Definition closing_channel : WebSocket.t :=
  WebSocket.Make WebSocket.CLOSING [] 0 false.

(** A listener that accepted one connection at time 0 and ran its first
    heartbeat at 30 s. *)
Definition quiet_listener : GiteaListener.listener :=
  GiteaListener.sendHeartbeats 30000
    (GiteaListener.accept WebSocket.fresh 0 (GiteaListener.Listener ∅ 0)).

(** A listener that accepted one connection, whose channel is closing. *)
Definition closing_listener : GiteaListener.listener :=
  GiteaListener.accept closing_channel 0 (GiteaListener.Listener ∅ 0).

(** A server registry with one connection, active at time 0, whose
    channel is closing. *)
Definition closing_server : gmap string Server.connection :=
  Server.on_connection "c1" closing_channel 0 ∅.

End Examples.

(** ** Sums of delays *)

Module Schedule.

(** The time spent in a list of waits. *)
Definition total (delays : list Q) : Q := foldr Qplus 0%Q delays.

End Schedule.

(** ** Text helpers *)

From stdpp Require Import pretty.

Local Open Scope Z_scope.

Module Text.

Local Open Scope string_scope.

(** [c.toLowerCase()] for one character: the letters [A] to [Z] move to
    [a] to [z], every other byte stays.  (Of the characters outside ASCII
    JavaScript maps only the Kelvin sign to an ASCII letter, [k], which
    none of the names compared below contains.) *)
Definition lower_char (c : Ascii.ascii) : Ascii.ascii :=
  let n := Ascii.nat_of_ascii c in
  if (65 <=? n)%nat && (n <=? 90)%nat then Ascii.ascii_of_nat (n + 32) else c.

(** [s.toLowerCase()] *)
Fixpoint toLowerCase (s : string) : string :=
  match s with
  | EmptyString => EmptyString
  | String c s' => String (lower_char c) (toLowerCase s')
  end.

(** [lines.join(sep)] *)
Fixpoint join (sep : string) (lines : list string) : string :=
  match lines with
  | [] => ""
  | [line] => line
  | line :: rest => line +:+ sep +:+ join sep rest
  end.

(** The character [c] does not occur in [s]. *)
Fixpoint lacks (c : Ascii.ascii) (s : string) : bool :=
  match s with
  | EmptyString => true
  | String c' s' => negb (Ascii.eqb c c') && lacks c s'
  end.

(** [list.includes(x)] *)
Definition list_includes (l : list string) (x : string) : bool :=
  bool_decide (x ∈ l).

Definition CR : Ascii.ascii := Ascii.ascii_of_nat 13.
Definition COLON : Ascii.ascii := Ascii.ascii_of_nat 58.
Definition SPACE : Ascii.ascii := Ascii.ascii_of_nat 32.

(** Lines, each followed by [sep], and then [rest]. *)
Definition terminated (sep : string) (lines : list string) (rest : string)
    : string :=
  foldr (fun line acc => line +:+ sep +:+ acc) rest lines.

End Text.

(** ** Gitea listener: the request sent on and the response sent back *)

Module GiteaForward.

Import GiteaListener.
Local Open Scope string_scope.

(** [httpRequest.headers['x-forwarded-for'] ||
     httpRequest.headers['x-real-ip'] || '127.0.0.1'] *)
Definition client_ip (h : gmap string string) : string :=
  or_else (h !! "x-forwarded-for") (or_else (h !! "x-real-ip") "127.0.0.1").

(** The names left out of the headers passed through. *)
Definition replaced : list string := ["host"; "x-forwarded-for"; "x-real-ip"].

(** The entries of [Object.entries(httpRequest.headers).filter(...)]. *)
Definition passed_through (h : gmap string string) : gmap string string :=
  filter (fun kv => Text.list_includes replaced (Text.toLowerCase kv.1) = false) h.

(** The properties written out in the [headers] literal of [options]. *)
Definition fixed_headers (GITEA_HOST : string) (h : gmap string string)
    : gmap string string :=
  list_to_map
    [("Host", GITEA_HOST);
     ("X-Real-IP", client_ip h);
     ("X-Forwarded-For", client_ip h);
     ("X-Forwarded-Proto", "https");
     ("X-Forwarded-Host", or_else (h !! "host") GITEA_HOST)].

(** [options.headers]: the spread comes last in the literal, so a header
    passed through takes the place of a fixed one of the same name. *)
Definition request_headers (GITEA_HOST : string) (h : gmap string string)
    : gmap string string :=
  passed_through h ∪ fixed_headers GITEA_HOST h.

(** [options] of the request to the target. *)
Record options := Options {
  hostname : string;
  port : Z;
  opt_path : string;
  opt_method : string;
  opt_headers : gmap string string;
  rejectUnauthorized : bool
}.

Definition make_options (GITEA_HOST : string) (GITEA_PORT : Z)
    (r : httpRequest) : options :=
  Options GITEA_HOST GITEA_PORT (or_else (Some (path r)) "/")
    (or_else (Some (method r)) "GET") (request_headers GITEA_HOST (headers r))
    false.

(** What is handed to [https.request] and written to it: the options,
    and the data written as body (the whole message, when it is not
    empty). *)
Record forwarded := Forwarded {
  fwd_options : options;
  fwd_body : string
}.

(** The handler from the parsed request to [req.end()].  The call
    [https.request(options, ...)] stands inside the outer [try] of the
    handler and is Node's, not this program's: [request_throws] tells
    for which options it throws.  When it throws, the [catch] logs the
    error and nothing is forwarded ([None]); when it returns, the message
    is written to the request, if it is not empty, and the request is
    ended. *)
Definition forward (request_throws : options → bool) (GITEA_HOST : string)
    (GITEA_PORT : Z) (requestText : string) : option forwarded :=
  let options := make_options GITEA_HOST GITEA_PORT (parse requestText) in
  if request_throws options then None
  else Some (Forwarded options
               (if (0 <? String.length requestText)%nat then requestText
                else "")).

(** The characters of an HTTP token: letters, digits and
    [! # $ % & ' * + - . ^ _ ` | ~]. *)
Definition token_char (c : Ascii.ascii) : bool :=
  let n := Ascii.nat_of_ascii c in
  ((48 <=? n) && (n <=? 57) || (65 <=? n) && (n <=? 90)
   || (97 <=? n) && (n <=? 122)
   || bool_decide (n ∈ [33; 35; 36; 37; 38; 39; 42; 43; 45; 46; 94; 95; 96;
                        124; 126]))%nat.

Fixpoint all_chars (p : Ascii.ascii → bool) (s : string) : bool :=
  match s with
  | EmptyString => true
  | String c s' => p c && all_chars p s'
  end.

Definition isHttpToken (s : string) : bool :=
  truthy (Some s) && all_chars token_char s.

(** The text holds a character below [0x21]: a control character or a
    space. *)
Definition hasUnescaped (s : string) : bool :=
  negb (all_chars (fun c => (33 <=? Ascii.nat_of_ascii c)%nat) s).

(** Two of the checks Node makes in [https.request] before it sends
    anything: the method is an HTTP token, and the path holds no
    character below [0x21]. *)
Definition checks_method_and_path (request_throws : options → bool) : Prop :=
  ∀ o, isHttpToken (opt_method o) = false ∨ hasUnescaped (opt_path o) = true →
       request_throws o = true.

(** A library that makes these two checks and no other. *)
Definition strict_request (o : options) : bool :=
  negb (isHttpToken (opt_method o)) || hasUnescaped (opt_path o).

(** The probe message of the command client,
    [JSON.stringify({ type: 'probe' })]. *)
Definition probe_message : string :=
  let q := String (Ascii.ascii_of_nat 34) "" in
  "{" +:+ q +:+ "type" +:+ q +:+ ":" +:+ q +:+ "probe" +:+ q +:+ "}".

(** [path.match(/\.(js|css|png|jpg|gif|ico|woff|woff2|ttf|svg)/)] *)
Definition static_extensions : list string :=
  ["js"; "css"; "png"; "jpg"; "gif"; "ico"; "woff"; "woff2"; "ttf"; "svg"].

Definition isStaticAsset (path : string) : bool :=
  existsb (fun ext => includes path ("." +:+ ext)) static_extensions.

(** The response of the target: status, headers in the order of
    [Object.keys(res.headers)], each value as the template literal
    renders it, and the chunks of the body as they arrive. *)
Record response := Response {
  statusCode : Z;
  statusMessage : string;
  res_headers : list (string * string);
  chunks : list string
}.

(** The header names not sent back. *)
Definition dropped : list string := ["connection"; "transfer-encoding"].

Definition status_line (res : response) : string :=
  "HTTP/1.1 " +:+ pretty (statusCode res) +:+ " " +:+ statusMessage res.

Definition header_line (kv : string * string) : string :=
  kv.1 +:+ ": " +:+ kv.2.

Definition kept (res : response) : list (string * string) :=
  List.filter (fun kv => negb (Text.list_includes dropped (Text.toLowerCase kv.1)))
    (res_headers res).

(** [headerLines] without the two empty strings pushed last. *)
Definition head_lines (path : string) (res : response) : list string :=
  status_line res :: map header_line (kept res)
  ++ (if isStaticAsset path then ["Cache-Control: public, max-age=86400"]
      else []).

Definition headerLines (path : string) (res : response) : list string :=
  head_lines path res ++ [""; ""].

(** [Buffer.from(headerLines.join('\r\n'))] *)
Definition headerBuffer (path : string) (res : response) : string :=
  Text.join CRLF (headerLines path res).

Definition body (res : response) : string := String.concat "" (chunks res).

(** [Buffer.concat(responseData)] *)
Definition fullResponse (path : string) (res : response) : string :=
  headerBuffer path res +:+ body res.

(** [totalSize] when the response has ended. *)
Definition totalSize (path : string) (res : response) : nat :=
  foldl (fun n chunk => n + String.length chunk)%nat
    (String.length (headerBuffer path res)) (chunks res).

(** [res.on('end')]: the message sent, if the channel is open, then the
    channel and the timers left by the send callback (called here with no
    error). *)
Definition on_end (path : string) (res : response) (ws : WebSocket.t)
    : option string * WebSocket.t * list (Z * timer) :=
  if WebSocket.isOpen ws then
    let '(ws', timers) := send_callback None path ws in
    (Some (fullResponse path res), ws', timers)
  else (None, ws, []).

(** A request as a client writes it: request line, header lines, an
    empty line, body. *)
Definition request_text (method path version : string)
    (hs : list (string * string)) (body : string) : string :=
  Text.terminated CRLF
    ((method +:+ " " +:+ path +:+ " " +:+ version) :: map header_line hs)
    (CRLF +:+ body).

(** A header a client can send so that the parser reads it back: a
    non-empty name without colon, a non-empty value without [": "],
    neither with a carriage return. *)
Definition plain_header (kv : string * string) : bool :=
  truthy (Some kv.1) && truthy (Some kv.2)
  && Text.lacks Text.COLON kv.1 && negb (includes kv.2 ": ")
  && Text.lacks Text.CR kv.1 && Text.lacks Text.CR kv.2.

(** A token of the request line: not empty, no space, no carriage
    return. *)
Definition plain_token (s : string) : bool :=
  truthy (Some s) && Text.lacks Text.SPACE s && Text.lacks Text.CR s.

End GiteaForward.


(** ** Gitea listener: the registry over the life of the process *)

Module GiteaLifecycle.

Import GiteaListener.

(** What happens to the listener after start-up.  An entry of
    [activeConnections] holds the channel that the handlers of the
    connection hold, so what a handler, a timer or the relay does to the
    channel shows in the entry for as long as it is registered. *)
Inductive event :=
  | Accepted (w : WebSocket.t) (now : Z)
  | Heartbeats (now : Z)
  | ChannelClosed (connectionId : Z)
  | ChannelError (connectionId : Z)
  | ResponseSent (connectionId : Z) (err : option string) (path : string)
  | TimerFired (connectionId : Z) (t : timer)
  | ChannelState (connectionId : Z) (s : WebSocket.readyState).

Definition on_channel (f : WebSocket.t → WebSocket.t) (connectionId : Z)
    (l : listener) : listener :=
  Listener
    (alter (fun c => Conn (f (ws c)) (lastActivity c)) connectionId
       (activeConnections l))
    (connectionCounter l).

Definition set_state (s : WebSocket.readyState) (w : WebSocket.t)
    : WebSocket.t :=
  WebSocket.Make s (WebSocket.closeCalls w) (WebSocket.pings w)
    (WebSocket.pingThrows w).

Definition step (l : listener) (e : event) : listener :=
  match e with
  | Accepted w now => accept w now l
  | Heartbeats now => sendHeartbeats now l
  | ChannelClosed connectionId => on_close connectionId l
  | ChannelError connectionId => on_error connectionId l
  | ResponseSent connectionId err path =>
      on_channel (fun w => (send_callback err path w).1) connectionId l
  | TimerFired connectionId t => on_channel (fire t) connectionId l
  | ChannelState connectionId s => on_channel (set_state s) connectionId l
  end.

(** The module as loaded: an empty map and [connectionCounter = 0]. *)
Definition start : listener := Listener ∅ 0.

Definition run (es : list event) : listener := foldl step start es.

Definition is_accepted (e : event) : bool :=
  match e with Accepted _ _ => true | _ => false end.

Definition accepted (es : list event) : Z :=
  Z.of_nat (length (List.filter is_accepted es)).

(** Every registered id has been handed out. *)
Definition ids_issued (l : listener) : Prop :=
  0 ≤ connectionCounter l
  ∧ ∀ id, is_Some (activeConnections l !! id) → 1 ≤ id ≤ connectionCounter l.

End GiteaLifecycle.


(** ** Command server: messages, commands and replies *)

Module CommandServer.

Import Server.

Local Open Scope string_scope.

(** A JSON value where the handler compares it with [===] and puts it in
    a template literal: a string, or some other value with the text the
    template literal gives it. *)
Inductive operand := Text (s : string) | NotText (rendered : string).

Definition rendered (v : operand) : string :=
  match v with Text s => s | NotText r => r end.

(** What [processCommand] resolves with. *)
Inductive result :=
  | Pong (timestamp : Z)
  | Status (connections : nat) (uptime : Q)
  | Agents (lastSeen1 lastSeen2 : Z).

(** [processCommand(command, params)]: the value its promise resolves
    with, or the message of the error it rejects with.  [size] is
    [connections.size], [now] the clock, [uptime] is [process.uptime()]. *)
Definition processCommand (command : operand) (size : nat) (now : Z)
    (uptime : Q) : result + string :=
  let unknown := inr ("Unknown command: " +:+ rendered command) in
  match command with
  | Text s =>
      if String.eqb s "ping" then inl (Pong now)
      else if String.eqb s "status" then inl (Status size uptime)
      else if String.eqb s "agents" then inl (Agents now (now - 3600000))
      else unknown
  | NotText _ => unknown
  end.

(** A relay message as the handler meets it: [JSON.parse(message)] or
    the reading of [data.type] throws an error with this message, or the
    fields [type], [id] and [command] are read. *)
Inductive incoming :=
  | Unparsed (why : string)
  | Parsed (type : operand) (id : Client.jsval) (command : operand).

(** What the handler passes to [ws.send]. *)
Inductive reply :=
  | ProbeResponse
  | CommandResponse (id : Client.jsval) (outcome : result + string)
  | ErrorReply (message : string).

Definition is_probe (m : incoming) : bool :=
  match m with
  | Parsed (Text s) _ _ => String.eqb s "probe"
  | _ => false
  end.

Definition respond (m : incoming) (size : nat) (now : Z) (uptime : Q)
    : reply :=
  match m with
  | Unparsed why => ErrorReply why
  | Parsed type id command =>
      match type with
      | Text s =>
          if String.eqb s "probe" then ProbeResponse
          else if String.eqb s "command" then
            CommandResponse id (processCommand command size now uptime)
          else ErrorReply ("Unknown message type: " +:+ s)
      | NotText r => ErrorReply ("Unknown message type: " +:+ r)
      end
  end.

(** [ws.on('message')] of connection [connectionId]: the registry it
    leaves and the reply it sends.  [now] is the clock when the message
    arrives, [later] the clock inside [processCommand]. *)
Definition handle (connectionId : string) (now later : Z) (uptime : Q)
    (m : incoming) (connections : gmap string connection)
    : gmap string connection * reply :=
  let connections' := on_message connectionId now (is_probe m) connections in
  (connections', respond m (size connections') later uptime).

(** The reply as the command client reads it after [JSON.parse]: the
    fields [type], [id], [error] and [result].  [encode] gives the value
    that stands for a result object. *)
Definition to_client (encode : result → Client.jsval) (r : reply)
    : Client.message :=
  match r with
  | ProbeResponse =>
      Client.Message (Client.JStr "probe_response") Client.JUndefined
        Client.JUndefined Client.JUndefined
  | CommandResponse id (inl res) =>
      Client.Message (Client.JStr "command_response") id Client.JUndefined
        (encode res)
  | CommandResponse id (inr e) =>
      Client.Message (Client.JStr "command_response") id (Client.JStr e)
        Client.JUndefined
  | ErrorReply _ =>
      Client.Message (Client.JStr "error") Client.JUndefined
        Client.JUndefined Client.JUndefined
  end.

(** The message [sendCommand] sends, as the server reads it. *)
Definition request (id : Z) (command : string) : incoming :=
  Parsed (Text "command") (Client.JNum id) (Text command).

Definition known : list string := ["ping"; "status"; "agents"].

End CommandServer.





(** ** Command client: calls and ids over the life of the process *)

Module ClientLife.

Import Client.

Definition is_call (e : event) : bool :=
  match e with SendCommand _ => true | _ => false end.

(** The calls of [sendCommand] among the events. *)
Definition calls (es : list event) : nat := length (List.filter is_call es).

(** What holds of the counters in every state the client can reach. *)
Record numbered (c : client) : Prop := Numbered {
  ids_in_order : (sent c).*1 = seqZ 1 (commandId c - 1);
  next_id_positive : 1 ≤ commandId c;
  idle_when_disconnected : connected c = false → pendingCommands c = ∅;
  channel_when_connected : connected c = true → is_Some (ws c)
}.

End ClientLife.


(** ** The relay address *)

Module RelayAddress.

Import GiteaListener.

Local Open Scope string_scope.

(** [s.startsWith(p)] *)
Definition startsWith (s p : string) : bool := String.prefix p s.

Definition GOV_SUFFIX : string := ".servicebus.usgovcloudapi.net".

(** The namespace after
    [if (!namespace.includes(suffix)) namespace += suffix], in the
    command server and in the command client. *)
Definition qualify (namespace : string) : string :=
  if includes namespace GOV_SUFFIX then namespace
  else namespace +:+ GOV_SUFFIX.

(** [`https://${namespace}/${config.relay.path}`] *)
Definition relay_uri (namespace path : string) : string :=
  "https://" +:+ qualify namespace +:+ "/" +:+ path.

(** The uri [createRelayToken] signs. *)
Definition token_uri (uri : string) : string :=
  if startsWith uri "https://" then uri else "https://" +:+ uri.

(** The uri the Gitea listener signs:
    [ns.includes('.') ? 'https://' + ns : 'https://' + ns + suffix]. *)
Definition listener_token_uri (ns : string) : string :=
  if includes ns "." then "https://" +:+ ns
  else "https://" +:+ ns +:+ GOV_SUFFIX.

End RelayAddress.


(** ** Deployment agent: tasks *)

Module Agent.

Import CommandServer.

Local Open Scope string_scope.

Inductive stream := Stdout | Stderr.

(** What the agent does to the outside: the status updates and artifacts
    it posts to the server, the directories and files it creates and the
    commands it hands to [exec]. *)
Inductive action :=
  | PostStatus (taskId status message : string)
  | Mkdir (dir : string)
  | WriteFile (file content : string)
  | Exec (command cwd : string)
  | PostArtifact (taskId name content : string).

(** An entry of [deployments]. *)
Record deployment := Deployment {
  status : string;
  logs : list (stream * string);
  error : option string;
  ended : bool
}.

Record agent := Agent_ {
  actions : list action;
  deployments : gmap string deployment
}.

(** What the agent does not decide: the work directory of the
    configuration, [path.join] and [path.dirname], the error [fs.mkdir]
    reports for a directory, the error [Promise.all] rejects with for the
    files written, the error [fs.writeFile] reports for the variables
    file, and for a command in a directory the exit code ([None] when a
    signal ended it) with the chunks its two streams delivered, in order
    of arrival. *)
Record world := World {
  workDir : string;
  join : string → string → string;
  dirname : string → string;
  mkdir : string → option string;
  writeFiles_error : list (string * string) → option string;
  writeFile_error : string → string → option string;
  exec : string → string → option Z * list (stream * string)
}.

(** A computation that acts on the agent and returns or throws an error
    with a message. *)
Definition M (A : Type) : Type := agent → agent * (string + A).

Definition ret {A} (a : A) : M A := fun s => (s, inr a).

Definition throw {A} (message : string) : M A := fun s => (s, inl message).

Definition bind {A B} (m : M A) (f : A → M B) : M B :=
  fun s =>
    match m s with
    | (s', inl e) => (s', inl e)
    | (s', inr a) => f a s'
    end.

Declare Scope agent_scope.
Delimit Scope agent_scope with agent.

Notation "x ← y ; z" := (bind y (fun x => z))
  (at level 20, y at level 100, z at level 200, only parsing) : agent_scope.
Notation "x ;; z" := (bind x (fun _ => z))
  (at level 100, z at level 200, only parsing, right associativity)
  : agent_scope.

Local Open Scope agent_scope.

(** [try { body } catch (error) { handler(error.message) }] *)
Definition try_catch {A} (body : M A) (handler : string → M A) : M A :=
  fun s =>
    match body s with
    | (s', inl e) => handler e s'
    | r => r
    end.

Definition emit (a : action) : M unit :=
  fun s => (Agent_ (actions s ++ [a]) (deployments s), inr tt).

Definition when {A} (v : option A) (f : A → M unit) : M unit :=
  match v with Some a => f a | None => ret tt end.

(** [updateTaskStatus]: the request is made; its failure is logged and
    goes no further. *)
Definition updateTaskStatus (taskId status message : string) : M unit :=
  emit (PostStatus taskId status message).

(** [uploadArtifact]: likewise. *)
Definition uploadArtifact (taskId name content : string) : M unit :=
  emit (PostArtifact taskId name content).

Definition createWorkDir (w : world) (dir : string) : M unit :=
  emit (Mkdir dir);;
  match mkdir w dir with
  | Some e => throw e
  | None => ret tt
  end.

Definition code_text (code : option Z) : string :=
  match code with Some n => pretty n | None => "null" end.

Definition succeeded (code : option Z) : bool :=
  match code with Some n => (n =? 0)%Z | None => false end.

Definition push_logs (taskId : option string) (chunks : list (stream * string))
    (ds : gmap string deployment) : gmap string deployment :=
  match taskId with
  | Some t =>
      if GiteaListener.truthy (Some t) then
        alter (fun d => Deployment (status d) (logs d ++ chunks) (error d)
                          (ended d)) t ds
      else ds
  | None => ds
  end.

(** [runCommand(command, cwd, taskId)]: the output is what the two
    streams delivered, in order of arrival; each chunk is pushed to the
    logs of the deployment when [taskId] is given and the deployment
    exists; the promise resolves with the output for exit code 0 and
    rejects otherwise. *)
Definition runCommand (w : world) (command cwd : string)
    (taskId : option string) : M string :=
  fun s =>
    let '(code, chunks) := exec w command cwd in
    let output := String.concat "" chunks.*2 in
    let s' := Agent_ (actions s ++ [Exec command cwd])
                (push_logs taskId chunks (deployments s)) in
    if succeeded code then (s', inr output)
    else (s', inl ("Command failed with exit code " +:+ code_text code
                   +:+ ": " +:+ output)).

Record repository := Repository {
  url : string;
  branch : option string
}.

(** [cloneRepository]: [command] is declared with [const], so the
    assignment [command += ...] made for a branch throws. *)
Definition cloneRepository (w : world) (r : repository) (dir : string)
    : M string :=
  let command := "git clone " +:+ url r +:+ " " +:+ dir in
  if GiteaListener.truthy (branch r)
  then throw "Assignment to constant variable."
  else runCommand w command (dirname w dir) None.

(** [writeFiles]: every file is handed to [fs.writeFile], in the order
    of [Object.entries]. *)
Definition writeFiles (w : world) (dir : string)
    (files : list (string * string)) : M unit :=
  fun s =>
    let written := map (fun f => WriteFile (join w dir f.1) f.2) files in
    let s' := Agent_ (actions s ++ written) (deployments s) in
    match writeFiles_error w files with
    | Some e => (s', inl e)
    | None => (s', inr tt)
    end.

(** A value of [task.variables]: a string, or another value with its
    [JSON.stringify] text. *)
Inductive value := VString (s : string) | VJson (text : string).

Definition LF_char : Ascii.ascii := Ascii.ascii_of_nat 10.
Definition LF : string := String LF_char "".
Definition QUOTE : string := String (Ascii.ascii_of_nat 34) "".

(** One assignment, without the line feed that ends it: a string goes
    between quotes as it is, any other value as its JSON text. *)
Definition assignment (kv : string * value) : string :=
  match kv.2 with
  | VString s => kv.1 +:+ " = " +:+ QUOTE +:+ s +:+ QUOTE
  | VJson text => kv.1 +:+ " = " +:+ text
  end.

Definition variable_line (kv : string * value) : string :=
  assignment kv +:+ LF.

(** [content] of [writeVariablesFile] *)
Definition variables_content (variables : list (string * value)) : string :=
  String.concat "" (map variable_line variables).

Definition writeVariablesFile (w : world) (dir : string)
    (variables : list (string * value)) : M unit :=
  let file := join w dir "terraform.tfvars" in
  let content := variables_content variables in
  emit (WriteFile file content);;
  match writeFile_error w file content with
  | Some e => throw e
  | None => ret tt
  end.

Record task := Task {
  id : string;
  type : operand;
  repository_ : option repository;
  terraform_code : option (list (string * string));
  variables : option (list (string * value))
}.

(** [if (task.repository) ... else if (task.terraform_code) ... else
    throw ...] *)
Definition provide (w : world) (t : task) (dir : string) : M unit :=
  match repository_ t, terraform_code t with
  | Some r, _ => cloneRepository w r dir;; ret tt
  | None, Some files => writeFiles w dir files
  | None, None => throw "No Terraform code provided"
  end.

(** The body that [runTerraformPlan], [runTerraformApply] and
    [runTerraformDestroy] share; they differ in the command run after
    [terraform init] and in the name of the artifact. *)
Definition runTerraform (command artifact : string) (w : world) (t : task)
    : M unit :=
  let dir := join w (workDir w) (id t) in
  createWorkDir w dir;;
  provide w t dir;;
  when (variables t) (writeVariablesFile w dir);;
  runCommand w "terraform init" dir (Some (id t));;
  output ← runCommand w command dir (Some (id t));
  uploadArtifact (id t) artifact output.

Definition PLAN : string := "terraform plan -out=tfplan".
Definition APPLY : string := "terraform apply -auto-approve".
Definition DESTROY : string := "terraform destroy -auto-approve".

Definition runTerraformPlan : world → task → M unit :=
  runTerraform PLAN "plan_output".
Definition runTerraformApply : world → task → M unit :=
  runTerraform APPLY "apply_output".
Definition runTerraformDestroy : world → task → M unit :=
  runTerraform DESTROY "destroy_output".

(** [switch (task.type)] *)
Definition dispatch (w : world) (t : task) : M unit :=
  let unknown := throw ("Unknown task type: " +:+ rendered (type t)) in
  match type t with
  | Text s =>
      if String.eqb s "terraform_plan" then runTerraformPlan w t
      else if String.eqb s "terraform_apply" then runTerraformApply w t
      else if String.eqb s "terraform_destroy" then runTerraformDestroy w t
      else unknown
  | NotText _ => unknown
  end.

Definition set_deployment (taskId : string) (d : deployment) : M unit :=
  fun s => (Agent_ (actions s) (<[taskId := d]> (deployments s)), inr tt).

(** [deployment.status = ...; deployment.endTime = new Date()], with
    [deployment.error] for a failure, when the deployment exists. *)
Definition finish (taskId status : string) (e : option string) : M unit :=
  fun s =>
    (Agent_ (actions s)
       (alter (fun d => Deployment status (logs d)
                          (match e with Some m => Some m | None => error d end)
                          true)
          taskId (deployments s)),
     inr tt).

(** [processTask(task)] *)
Definition processTask (w : world) (t : task) : M unit :=
  updateTaskStatus (id t) "running" "Task started";;
  try_catch
    (set_deployment (id t) (Deployment "running" [] None false);;
     dispatch w t;;
     finish (id t) "completed" None;;
     updateTaskStatus (id t) "completed" "Task completed successfully")
    (fun e =>
       finish (id t) "failed" (Some e);;
       updateTaskStatus (id t) "failed" ("Task failed: " +:+ e)).

(** The task types the agent knows, each with the command it runs after
    [terraform init] and the name of its artifact. *)
Definition operations : list (string * (string * string)) :=
  [("terraform_plan", (PLAN, "plan_output"));
   ("terraform_apply", (APPLY, "apply_output"));
   ("terraform_destroy", (DESTROY, "destroy_output"))].

(** The actions a run adds to those before it. *)
Definition added (before after : agent) : list action :=
  drop (length (actions before)) (actions after).

Definition is_status (a : action) : bool :=
  match a with PostStatus _ _ _ => true | _ => false end.

(** An action of the preparation: a directory, a file, or the clone. *)
Definition is_setup (a : action) : bool :=
  match a with
  | Mkdir _ | WriteFile _ _ => true
  | Exec command _ => String.prefix "git clone " command
  | _ => false
  end.

(** A world for examples: every directory and file can be made, and
    every command ends with exit code 0 after one line on its output. *)
Definition obliging : world :=
  World "/work" (fun a b => a +:+ "/" +:+ b) (fun d => d)
    (fun _ => None) (fun _ => None) (fun _ _ => None)
    (fun command _ => (Some 0%Z, [(Stdout, command +:+ ": done")])).

Definition apply_task : task :=
  Task "t1" (Text "terraform_apply") None (Some [("main.tf", "")]) None.

Definition branch_task : task :=
  Task "t2" (Text "terraform_plan")
    (Some (Repository "https://git.example/infra.git" (Some "main")))
    None None.

Definition fresh : agent := Agent_ [] ∅.

End Agent.


(** ** Deployment agent: polling *)

Module Polling.

Inductive status := Idle | Busy.

(** [agentStatus], the calls of [pollForTasks] that wait for the answer
    to their request, and the calls of [processTask] that have not
    settled. *)
Record poller := Poller {
  agentStatus : status;
  requests : nat;
  running : nat
}.

(** The interval fires; a waiting request is answered, with a task or
    without, or fails; a [processTask] settles. *)
Inductive event :=
  | Tick
  | Answer (task : option string)
  | Refused
  | TaskSettled.

(** [pollForTasks] up to its [await], its continuation, and the
    callbacks on the promise of [processTask]. *)
Definition step (p : poller) (e : event) : poller :=
  match e with
  | Tick =>
      match agentStatus p with
      | Idle => Poller Idle (S (requests p)) (running p)
      | Busy => p
      end
  | Answer task =>
      match requests p, task with
      | O, _ => p
      | S n, Some _ => Poller Busy n (S (running p))
      | S n, None => Poller (agentStatus p) n (running p)
      end
  | Refused =>
      match requests p with
      | O => p
      | S n => Poller (agentStatus p) n (running p)
      end
  | TaskSettled =>
      match running p with
      | O => p
      | S n => Poller Idle (requests p) n
      end
  end.

Definition start : poller := Poller Idle 0 0.

Definition run (es : list event) : poller := foldl step start es.

(** No call of [pollForTasks] starts while another waits for its
    answer. *)
Fixpoint serial_from (p : poller) (es : list event) : bool :=
  match es with
  | [] => true
  | e :: es' =>
      match e with
      | Tick => Nat.eqb (requests p) 0
      | _ => true
      end && serial_from (step p e) es'
  end.

Definition serial (es : list event) : bool := serial_from start es.

(** At most one request or one task is under way, and the agent is
    [busy] exactly while a task is. *)
Definition one_at_a_time (p : poller) : Prop :=
  (requests p + running p ≤ 1)%nat
  ∧ (agentStatus p = Busy ↔ running p = 1%nat).

End Polling.


(** ** Passthrough: the write queue under any socket *)

Module WriteQueue.

Import Passthrough.

(** The bytes of the relay messages among the events, in order. *)
Definition payload (es : list event) : Buffer :=
  concat (omap (fun e => match e with
                         | RelayMessage data => Some data
                         | _ => None
                         end) es).

(** No [socket.write] throws. *)
Definition no_throw (b : list write_result) : Prop :=
  Forall (fun r => r ≠ WriteThrows) b.

(** Every byte received is accounted for: the chunks taken from the
    queue so far, followed by those still in it, make up the bytes
    received; the socket was given nothing but chunks taken from the
    queue, each at most twice; and each at least once, if no write
    throws. *)
Definition accounted (b : list write_result) (received : Buffer)
    (s : session) : Prop :=
  ∃ taken : list Buffer,
    concat taken ++ concat (pendingWrites s) = received
    ∧ Forall (fun c => c ∈ taken) (written s)
    ∧ (length (written s) ≤ 2 * length taken)%nat
    ∧ (∃ k, socketBehaviour s = drop k b)
    ∧ (no_throw b → Forall (fun c => c ∈ written s) taken).

(** The queue cannot stall: while [isWriting] is set a drain listener is
    registered, and while chunks wait a drain listener is registered or
    a [setImmediate] callback is queued. *)
Definition resumable (s : session) : Prop :=
  (isWriting s = true → drainListeners s ≠ [])
  ∧ (pendingWrites s ≠ [] → drainListeners s ≠ [] ∨ (0 < immediates s)%nat).

(** The socket drains and the event loop turns, [n] times over. *)
Definition rounds (n : nat) : list event :=
  concat (replicate n [SocketDrain; Immediate]).

End WriteQueue.







(** * Properties *)

(** ** The model on small inputs *)

Section Evaluation.

Import GiteaListener.
Local Open Scope string_scope.

Example split_on_colon : split "a: b: c" ": " = ["a"; "b"; "c"].
Proof. reflexivity. Qed.

Example split_empty_text : split "" CRLF = [""].
Proof. reflexivity. Qed.

Example split_overlapping : split "aaa" "aa" = [""; "a"].
Proof. reflexivity. Qed.

Example parse_get_foo :
  parse ("GET /foo HTTP/1.1" +:+ CRLF +:+ "Host: x" +:+ CRLF +:+ CRLF)
  = HttpRequest "GET" "/foo" {[ "Host" := "x" ]}.
Proof. reflexivity. Qed.

Example ends_with_js :
  endsWith "/assets/app.js" ".js" = true
  ∧ endsWith "/assets/app.js?v=1" ".js" = false.
Proof. by split. Qed.

Example chunk_loop_of_five :
  Passthrough.chunk_loop 3 2 [Byte.x01; Byte.x02; Byte.x03; Byte.x04; Byte.x05]
    0 []
  = Some [[Byte.x01; Byte.x02]; [Byte.x03; Byte.x04]; [Byte.x05]].
Proof. reflexivity. Qed.

(** Two queued chunks [A], [B] on a socket that accepts every write reach
    it as [A B B A]. *)
Example two_chunks_written :
  Passthrough.written
    <$> Passthrough.run_processWriteQueue
          (Passthrough.set_pendingWrites [[Byte.x41]; [Byte.x42]]
             (Passthrough.idle []))
  = Some [[Byte.x41]; [Byte.x42]; [Byte.x42]; [Byte.x41]].
Proof. reflexivity. Qed.

(** A failure of the relay connection itself, after the connectivity
    test has passed, ends [connectWithRetry] at once. *)
Example relay_failure_not_retried :
  ClientRetry.connectWithRetry (fun _ => ClientRetry.RelayFails)
  = Some [ClientRetry.Attempt 0; ClientRetry.Reject].
Proof. reflexivity. Qed.

End Evaluation.

(** ** Passthrough: queueing and chunking *)

Section Chunking.

Import Passthrough Examples.

Lemma blen_nonneg (b : Buffer) : 0 ≤ blen b.
Proof. unfold blen. lia. Qed.

Lemma blen_drop (b : Buffer) (i : Z) :
  0 ≤ i ≤ blen b → blen (drop (Z.to_nat i) b) = blen b - i.
Proof. unfold blen. intros Hi. rewrite length_drop. lia. Qed.

(** A slice that starts inside the buffer and the rest after it make up
    the rest from its start. *)
Lemma slice_then_rest (data : Buffer) (i c : Z) :
  0 ≤ i → 0 < c →
  slice data i (Z.min (i + c) (blen data)) ++ drop (Z.to_nat (i + c)) data
  = drop (Z.to_nat i) data.
Proof.
  intros Hi Hc. unfold slice.
  destruct (Z.le_gt_cases (i + c) (blen data)) as [Hin | Hout].
  - rewrite Z.min_l by done.
    replace (Z.to_nat (i + c - i)) with (Z.to_nat c) by lia.
    replace (Z.to_nat (i + c)) with (Z.to_nat i + Z.to_nat c)%nat by lia.
    rewrite <- drop_drop. apply take_drop.
  - rewrite Z.min_r by lia.
    rewrite (drop_ge data (Z.to_nat (i + c))) by (unfold blen in Hout; lia).
    rewrite app_nil_r. apply take_ge.
    rewrite length_drop. unfold blen. lia.
Qed.

Lemma slice_length (data : Buffer) (i c : Z) :
  0 ≤ i < blen data → 0 < c →
  0 < blen (slice data i (Z.min (i + c) (blen data))) ≤ c.
Proof.
  intros Hi Hc. unfold slice, blen in *.
  rewrite length_take, length_drop. lia.
Qed.

Lemma ceil_div_step (n c : Z) :
  0 < c → 0 < n → ceil_div (Z.max 0 n) c = 1 + ceil_div (Z.max 0 (n - c)) c.
Proof.
  intros Hc Hn. unfold ceil_div.
  destruct (Z.le_gt_cases c n) as [Hge | Hlt].
  - rewrite !Z.max_r by lia.
    replace (n + c - 1) with ((n - c + c - 1) + 1 * c) by lia.
    rewrite Z.div_add by lia. lia.
  - rewrite (Z.max_r 0 n), (Z.max_l 0 (n - c)) by lia.
    rewrite (Z.div_small (0 + c - 1)) by lia.
    symmetry. apply (Z.div_unique_pos _ _ _ (n - 1)); lia.
Qed.

(** The loop, from any position: it ends within the fuel, appends the
    slices of the rest of the buffer and nothing else. *)
Lemma chunk_loop_spec (c : Z) (data : Buffer) :
  0 < c →
  ∀ (fuel : nat) (i : Z) (q : list Buffer),
    0 ≤ i → blen data - i ≤ Z.of_nat fuel * c →
    ∃ cs, chunk_loop fuel c data i q = Some (q ++ cs)
          ∧ concat cs = drop (Z.to_nat i) data
          ∧ Z.of_nat (length cs) = ceil_div (Z.max 0 (blen data - i)) c
          ∧ Forall (fun ch => 0 < blen ch ≤ c) cs.
Proof.
  intros Hc fuel.
  assert (Hdone : ∀ i q, 0 ≤ i → blen data ≤ i →
            ∃ cs, Some q = Some (q ++ cs)
                  ∧ concat cs = drop (Z.to_nat i) data
                  ∧ Z.of_nat (length cs) = ceil_div (Z.max 0 (blen data - i)) c
                  ∧ Forall (fun ch => 0 < blen ch ≤ c) cs).
  { intros i q Hi Hend. exists []. rewrite app_nil_r. repeat split.
    - rewrite drop_ge; [done | unfold blen in Hend; lia].
    - unfold ceil_div. rewrite Z.max_l by lia.
      rewrite Z.div_small by lia. done.
    - constructor. }
  induction fuel as [| fuel IH]; intros i q Hi Hfuel.
  - cbn [chunk_loop].
    destruct (Z.ltb_spec i (blen data)); [lia |]. by apply Hdone.
  - cbn [chunk_loop].
    destruct (Z.ltb_spec i (blen data)) as [Hlt | Hge]; [| by apply Hdone].
    set (chunk := slice data i (Z.min (i + c) (blen data))).
    destruct (IH (i + c) (q ++ [chunk])) as (cs & Hrun & Hcat & Hlen & Hall);
      [lia | lia |].
    exists (chunk :: cs). repeat split.
    + rewrite Hrun. by rewrite <- app_assoc.
    + cbn [concat]. rewrite Hcat. by apply slice_then_rest.
    + cbn [length]. rewrite (ceil_div_step (blen data - i) c) by lia.
      replace (blen data - i - c) with (blen data - (i + c)) by lia. lia.
    + constructor; [| done]. apply slice_length; lia.
Qed.

(** The queueing of a relay message always completes. *)
Lemma enqueue_total (data : Buffer) (q : list Buffer) :
  is_Some (enqueue data q).
Proof.
  unfold enqueue. destruct (blen data >? MAX_BUFFER_SIZE); [| done].
  destruct (chunk_loop_spec (MAX_BUFFER_SIZE / 2) data) with
    (fuel := length data) (i := 0) (q := q) as (cs & -> & _); try done.
  unfold blen. change (MAX_BUFFER_SIZE / 2) with 524288. lia.
Qed.

(** C4, as the code has it: the split threshold is [MAX_BUFFER_SIZE]
    = 1 MB (1048576 bytes) and the chunk size is half of it, 512 KB.  A
    message of more than 1 MB is queued as [ceil(N / 524288)] chunks, none
    empty, none above the chunk size, that concatenate to the message; a
    message of at most 1 MB is queued as one chunk.  Earlier entries of the
    queue are kept in front. *)
Theorem enqueue_chunks (data : Buffer) (q : list Buffer) :
  (MAX_BUFFER_SIZE < blen data →
     ∃ cs, enqueue data q = Some (q ++ cs)
           ∧ concat cs = data
           ∧ Z.of_nat (length cs) = ceil_div (blen data) (MAX_BUFFER_SIZE / 2)
           ∧ Forall (fun ch => 0 < blen ch ≤ MAX_BUFFER_SIZE / 2) cs)
  ∧ (blen data ≤ MAX_BUFFER_SIZE → enqueue data q = Some (q ++ [data]))
  ∧ MAX_BUFFER_SIZE = 1048576 ∧ MAX_BUFFER_SIZE / 2 = 524288.
Proof.
  split; [| split; [| done]].
  - intros Hbig. unfold enqueue.
    destruct (Z.gtb_spec (blen data) MAX_BUFFER_SIZE) as [_ | ?]; [| lia].
    destruct (chunk_loop_spec (MAX_BUFFER_SIZE / 2) data) with
      (fuel := length data) (i := 0) (q := q) as (cs & Hrun & Hcat & Hlen & Hall);
      try done.
    { unfold blen. change (MAX_BUFFER_SIZE / 2) with 524288. lia. }
    exists cs. repeat split; try done.
    rewrite Hlen. f_equal. pose proof (blen_nonneg data). lia.
  - intros Hsmall. unfold enqueue.
    destruct (Z.gtb_spec (blen data) MAX_BUFFER_SIZE) as [? | _]; [lia | done].
Qed.

Lemma blen_message_600KB : blen message_600KB = 614400.
Proof. unfold blen, message_600KB. rewrite repeat_length. lia. Qed.

(** [enqueue_chunks] at a message of 600 KB and at one of 1 MB + 1 byte. *)
Lemma enqueue_chunks_witness :
  enqueue message_600KB [] = Some [message_600KB]
  ∧ ∃ cs, enqueue (message_600KB ++ message_600KB) [] = Some cs
          ∧ Z.of_nat (length cs) = 3.
Proof.
  split.
  - apply (enqueue_chunks message_600KB []).
    rewrite blen_message_600KB. unfold MAX_BUFFER_SIZE. lia.
  - assert (Hlen : blen (message_600KB ++ message_600KB) = 1228800).
    { pose proof blen_message_600KB as H. unfold blen in *.
      rewrite length_app. lia. }
    destruct (proj1 (enqueue_chunks (message_600KB ++ message_600KB) []))
      as (cs & Hrun & _ & Hn & _).
    { rewrite Hlen. unfold MAX_BUFFER_SIZE. lia. }
    exists cs. split; [exact Hrun |]. rewrite Hn, Hlen. reflexivity.
Defined.

(** C4 as stated fails: a message of 600 KB is larger than 512 KB, yet it
    is queued as a single chunk, where [ceil(N / chunkSize)] with a chunk
    size of half of 512 KB would be 3 (and 2 with a chunk size of
    512 KB). *)
Lemma chunk_threshold_counterexample :
  512 * 1024 < blen message_600KB
  ∧ enqueue message_600KB [] = Some [message_600KB]
  ∧ Z.of_nat (length [message_600KB]) ≠ ceil_div (blen message_600KB) (512 * 1024 / 2)
  ∧ Z.of_nat (length [message_600KB]) ≠ ceil_div (blen message_600KB) (512 * 1024).
Proof.
  rewrite blen_message_600KB. split; [done |]. split; [| by split].
  unfold enqueue. rewrite blen_message_600KB. done.
Qed.

End Chunking.

(** ** Passthrough: draining the queue to the local socket *)

Section WriteQueue.

Import Passthrough.

(** [processWriteQueue] returns whenever the fuel covers the queue: each
    nested call works on a queue one entry shorter. *)
Lemma processWriteQueue_total (fuel : nat) :
  ∀ s, (length (pendingWrites s) < fuel)%nat →
       is_Some (processWriteQueue fuel s).
Proof.
  induction fuel as [| fuel IH]; intros s Hfuel; [lia |].
  cbn [processWriteQueue].
  destruct (pendingWrites s) as [| data rest] eqn:Hq; [done |].
  destruct (isWriting s); [done |].
  unfold socket_write at 1. cbn [pendingWrites set_pendingWrites].
  set (s1 := Session _ _ _ _ _ _).
  assert (Hrec : is_Some (processWriteQueue fuel (set_isWriting false s1))).
  { apply IH. cbn. cbn in Hfuel. lia. }
  destruct Hrec as [s2 Hs2].
  destruct (match socketBehaviour _ with [] => WriteFlushed | r :: _ => r end);
    cbn [mbind option_bind]; rewrite ?Hs2; cbn [mbind option_bind];
    unfold socket_write; by destruct (match socketBehaviour _ with
                                       | [] => WriteFlushed | r :: _ => r end).
Qed.

Lemma run_processWriteQueue_total (s : session) :
  is_Some (run_processWriteQueue s).
Proof. apply processWriteQueue_total. lia. Qed.

(** Every relay message is handled to the end. *)
Lemma on_message_total (data : Buffer) (s : session) :
  is_Some (on_message data s).
Proof.
  unfold on_message. destruct (enqueue_total data (pendingWrites s)) as [q ->].
  apply run_processWriteQueue_total.
Qed.

(** On an idle connection whose socket accepts every write, a message that
    is not split reaches the socket twice: once from each [try] block of
    [processWriteQueue]. *)
Lemma on_message_writes_twice (data : Buffer) :
  blen data ≤ MAX_BUFFER_SIZE →
  on_message data (idle []) = Some (Session [] false [data; data] [] 1 []).
Proof.
  intros Hsmall. unfold on_message, enqueue.
  destruct (Z.gtb_spec (blen data) MAX_BUFFER_SIZE) as [? | _]; [lia | done].
Qed.

(** C1 at the one-byte message ["A"]: the handler, followed by the
    [setImmediate] callback it queued, gives the local socket the bytes
    ["AA"], not ["A"]. *)
Theorem relay_message_written_twice :
  ∃ s, run [RelayMessage [Byte.x41]; Immediate] (idle []) = Some s
       ∧ pendingWrites s = [] ∧ immediates s = 0%nat ∧ drainListeners s = []
       ∧ bytes_written s = [Byte.x41; Byte.x41]
       ∧ bytes_written s ≠ [Byte.x41].
Proof. eexists. split; [reflexivity |]. by repeat split. Qed.

End WriteQueue.

(** ** Retry schedules *)

Section RetryClient.

Import ClientRetry.

(** As long as the connectivity test fails and attempts remain, the loop
    leaves one attempt and one wait per failure and goes on with the next
    delay. *)
Lemma retry_loop_failures (relay : Z → attempt) :
  ∀ (n fuel : nat) (r : Z) (d : Q),
    0 ≤ r → r + Z.of_nat n ≤ maxRetryCount - 1 →
    (∀ j, r ≤ j < r + Z.of_nat n → relay j = ConnectivityFails) →
    retry_loop (n + fuel) relay r d
    = (rest ← retry_loop fuel relay (r + Z.of_nat n) (Nat.iter n next_delay d);
       Some (failures n r d ++ rest)).
Proof.
  unfold maxRetryCount.
  induction n as [| n IH]; intros fuel r d Hr Hlast Hfail.
  - cbn [Nat.add failures app]. change (Z.of_nat 0) with 0.
    change (Nat.iter 0 next_delay d) with d.
    rewrite Z.add_0_r. by destruct (retry_loop fuel relay r d).
  - change (S n + fuel)%nat with (S (n + fuel)). cbn [retry_loop failures].
    destruct (Z.ltb_spec r maxRetryCount) as [_ | Hge];
      [| unfold maxRetryCount in Hge; lia].
    rewrite Hfail by lia.
    destruct (Z.geb_spec r (maxRetryCount - 1)) as [Hge | _];
      [unfold maxRetryCount in Hge; lia |].
    rewrite IH by (try lia; intros; apply Hfail; lia).
    replace (r + 1 + Z.of_nat n) with (r + Z.of_nat (S n)) by lia.
    rewrite <- Nat.iter_succ_r.
    by destruct (retry_loop fuel relay _ _).
Qed.

Lemma waits_failures (n : nat) (r : Z) (d : Q) :
  waits (failures n r d) = map (fun j => Nat.iter j next_delay d) (seq 0 n).
Proof.
  revert r d. induction n as [| n IH]; intros r d; [done |].
  cbn [failures]. change (waits (?a :: Wait ?w :: ?tr)) with (w :: waits tr).
  rewrite IH. cbn [seq map Nat.iter]. f_equal.
  rewrite <- seq_shift, map_map. apply map_ext. intros j.
  by rewrite Nat.iter_succ_r.
Qed.

Lemma attempts_failures (n : nat) (r : Z) (d : Q) :
  attempts (failures n r d) = n.
Proof.
  revert r d. induction n as [| n IH]; intros r d; [done |].
  cbn [failures].
  change (attempts (Attempt ?a :: Wait ?w :: ?tr)) with (S (attempts tr)).
  by rewrite IH.
Qed.

(** The delays the loop goes through are those of the specification. *)
Lemma spec_delay_iter (j : nat) :
  spec_delay (S j) = Nat.iter j next_delay initialRetryDelay.
Proof.
  induction j as [| j IH]; [done |].
  change (spec_delay (S (S j))) with (next_delay (spec_delay (S j))).
  by rewrite IH.
Qed.

Lemma waits_app (tr1 tr2 : list action) :
  waits (tr1 ++ tr2) = waits tr1 ++ waits tr2.
Proof. unfold waits. apply omap_app. Qed.

Lemma attempts_app (tr1 tr2 : list action) :
  attempts (tr1 ++ tr2) = (attempts tr1 + attempts tr2)%nat.
Proof. unfold attempts. by rewrite omap_app, length_app. Qed.

(** The command client's schedule when the connectivity test fails [k]
    times in a row and the relay then opens. *)
Lemma client_retry_then_open (relay : Z → attempt) (k : nat) :
  Z.of_nat k < maxRetryCount →
  (∀ j, 0 ≤ j < Z.of_nat k → relay j = ConnectivityFails) →
  relay (Z.of_nat k) = RelayOpens →
  ∃ tr, connectWithRetry relay = Some tr
        ∧ waits tr = map spec_delay (seq 1 k)
        ∧ attempts tr = S k
        ∧ last tr = Some Resolve.
Proof.
  intros Hk Hfail Hopen. unfold maxRetryCount in Hk.
  unfold connectWithRetry.
  replace (Z.to_nat maxRetryCount) with (k + S (9 - k))%nat
    by (unfold maxRetryCount; lia).
  rewrite retry_loop_failures;
    [| lia | unfold maxRetryCount; lia | intros; apply Hfail; lia].
  cbn [retry_loop]. rewrite Z.add_0_l.
  destruct (Z.ltb_spec (Z.of_nat k) maxRetryCount) as [_ | Hge];
    [| unfold maxRetryCount in Hge; lia].
  rewrite Hopen. cbn [mbind option_bind].
  eexists. split; [done |]. split; [| split].
  - rewrite waits_app, waits_failures. cbn. rewrite app_nil_r.
    rewrite <- seq_shift, map_map. apply map_ext. intros j.
    by rewrite spec_delay_iter.
  - rewrite attempts_app, attempts_failures. cbn. lia.
  - by rewrite last_app.
Qed.

(** The command client's schedule when the connectivity test fails at all
    ten attempts. *)
Lemma client_retry_exhausted (relay : Z → attempt) :
  (∀ j, 0 ≤ j < maxRetryCount → relay j = ConnectivityFails) →
  ∃ tr, connectWithRetry relay = Some tr
        ∧ waits tr = map spec_delay (seq 1 9)
        ∧ attempts tr = 10%nat
        ∧ last tr = Some ThrowFailedToConnect.
Proof.
  intros Hfail. unfold connectWithRetry.
  change (Z.to_nat maxRetryCount) with (9 + 1)%nat.
  rewrite retry_loop_failures;
    [| lia | unfold maxRetryCount; lia
     | intros; apply Hfail; unfold maxRetryCount; lia].
  cbn [retry_loop]. change (0 + Z.of_nat 9) with 9.
  change (9 <? maxRetryCount) with true. cbn match.
  rewrite Hfail by (unfold maxRetryCount; lia).
  change (9 >=? maxRetryCount - 1) with true. cbn [mbind option_bind].
  eexists. split; [done |]. split; [| split].
  - rewrite waits_app, waits_failures. cbn [waits omap].
    rewrite app_nil_r.
    change (seq 1 9) with (map S (seq 0 9)). rewrite map_map.
    apply map_ext. intros j. by rewrite spec_delay_iter.
  - by rewrite attempts_app, attempts_failures.
  - by rewrite last_app.
Qed.

(** The values of the specification's sequence: 200, 300, 450, 675,
    1012.5, 1518.75, 2278.125, 3417.1875, and 5000 from the ninth on. *)
Lemma spec_delay_values :
  Forall2 Qeq (map spec_delay (seq 1 9))
    [200; 300; 450; 675; 1012.5; 1518.75; 2278.125; 3417.1875; 5000]%Q.
Proof. repeat constructor. Qed.

End RetryClient.

Section RetrySender.

Import SenderRetry.

(** The passthrough sender against a relay that never opens: it waits
    [retry_delay retryCount] after each failed attempt up to the one with
    [retryCount = 9], makes one more attempt and ends the local socket. *)
Lemma sender_retry_failures (relay : Z → attempt) :
  ∀ (fuel : nat) (r : Z),
    0 ≤ r → r + Z.of_nat fuel = 11 → (1 ≤ fuel)%nat →
    (∀ j, r ≤ j ≤ 10 → relay j ≠ Opens) →
    ∃ tr, connectWithRetry fuel relay r 10 = Some tr
          ∧ waits tr = map retry_delay (seqZ r (10 - r))
          ∧ attempts tr = fuel
          ∧ SocketEnd ∈ tr ∧ Connected ∉ tr.
Proof.
  induction fuel as [| fuel IH]; intros r Hr Hsum Hpos Hfail; [lia |].
  cbn [connectWithRetry].
  assert (Hhere : relay r ≠ Opens) by (apply Hfail; lia).
  destruct (Z.ltb_spec r 10) as [Hlt | Hge].
  - destruct (IH (r + 1)) as (tr & Hrun & Hw & Ha & Hend & Hnc);
      [lia | lia | lia | intros; apply Hfail; lia |].
    exists (Attempt r :: Wait (retry_delay r) :: tr).
    split; [by destruct (relay r); [done | rewrite Hrun ..] |].
    split; [| split; [| split]].
    + change (waits (?a :: Wait ?w :: ?t)) with (w :: waits t).
      rewrite Hw, (seqZ_cons r) by lia. cbn [map].
      replace (Z.succ r) with (r + 1) by lia.
      by replace (Z.pred (10 - r)) with (10 - (r + 1)) by lia.
    + change (attempts (Attempt ?a :: Wait ?w :: ?t)) with (S (attempts t)).
      by rewrite Ha.
    + rewrite !elem_of_cons. auto.
    + rewrite !not_elem_of_cons. auto.
  - assert (r = 10) as -> by lia. assert (fuel = 0%nat) as -> by lia.
    destruct (relay 10); [done | |]; eexists;
      (split; [done |]); cbn; (repeat split; try done);
      rewrite ?elem_of_cons, ?not_elem_of_cons, ?elem_of_nil;
      intuition discriminate.
Qed.

(** The delays of the passthrough sender: 200, 750, 1125, 1687.5,
    2531.25, 3796.875, and 5000 from the seventh on. *)
Lemma retry_delay_values :
  Forall2 Qeq (map retry_delay (seqZ 0 10))
    [200; 750; 1125; 1687.5; 2531.25; 3796.875; 5000; 5000; 5000; 5000]%Q.
Proof. repeat constructor. Qed.

End RetrySender.

(** C2, as the code has it.  Command client ([connectWithRetry] of
    [relay_sender.js]): when the connectivity test fails [k] times in a
    row, the client has waited [d_1 .. d_k] with [d_1 = 200] and
    [d_{n+1} = min(d_n * 1.5, 5000)]; it resolves if the relay then
    opens, and after the tenth failure it throws, having made ten attempts
    and nine waits.  Passthrough sender ([connectWithRetry] of the sender
    script): against a relay that never opens it waits 200 ms after the
    first failure and [min(1.5^k * 500, 5000)] ms after failure [k + 1],
    makes eleven attempts (the first and ten retries) and then ends the
    local socket. *)
Theorem retry_schedules :
  (∀ (relay : Z → ClientRetry.attempt) (k : nat),
     Z.of_nat k < ClientRetry.maxRetryCount →
     (∀ j, 0 ≤ j < Z.of_nat k → relay j = ClientRetry.ConnectivityFails) →
     relay (Z.of_nat k) = ClientRetry.RelayOpens →
     ∃ tr, ClientRetry.connectWithRetry relay = Some tr
           ∧ ClientRetry.waits tr = map ClientRetry.spec_delay (seq 1 k)
           ∧ ClientRetry.attempts tr = S k
           ∧ last tr = Some ClientRetry.Resolve)
  ∧ (∀ relay : Z → ClientRetry.attempt,
       (∀ j, 0 ≤ j < ClientRetry.maxRetryCount →
             relay j = ClientRetry.ConnectivityFails) →
       ∃ tr, ClientRetry.connectWithRetry relay = Some tr
             ∧ ClientRetry.waits tr = map ClientRetry.spec_delay (seq 1 9)
             ∧ Forall2 Qeq (ClientRetry.waits tr)
                 [200; 300; 450; 675; 1012.5; 1518.75; 2278.125; 3417.1875;
                  5000]%Q
             ∧ ClientRetry.attempts tr = 10%nat
             ∧ last tr = Some ClientRetry.ThrowFailedToConnect)
  ∧ (∀ relay : Z → SenderRetry.attempt,
       (∀ j, 0 ≤ j ≤ 10 → relay j ≠ SenderRetry.Opens) →
       ∃ tr, SenderRetry.start relay = Some tr
             ∧ SenderRetry.waits tr = map SenderRetry.retry_delay (seqZ 0 10)
             ∧ Forall2 Qeq (SenderRetry.waits tr)
                 [200; 750; 1125; 1687.5; 2531.25; 3796.875; 5000; 5000;
                  5000; 5000]%Q
             ∧ SenderRetry.attempts tr = 11%nat
             ∧ SenderRetry.SocketEnd ∈ tr ∧ SenderRetry.Connected ∉ tr).
Proof.
  split; [| split].
  - apply client_retry_then_open.
  - intros relay Hfail.
    destruct (client_retry_exhausted relay Hfail) as (tr & Hrun & Hw & Ha & Hl).
    exists tr. repeat split; try done.
    rewrite Hw. apply spec_delay_values.
  - intros relay Hfail.
    destruct (sender_retry_failures relay 11 0) as (tr & Hrun & Hw & Ha & He);
      [lia | lia | lia | done |].
    exists tr. repeat split; try done; try apply He.
    rewrite Hw. apply retry_delay_values.
Qed.

(** [retry_schedules] at a client whose connectivity test fails twice and
    whose relay then opens, at a client and at a sender that never get
    through. *)
Lemma retry_schedules_witness :
  (∃ tr, ClientRetry.connectWithRetry
           (fun j => if j <? 2 then ClientRetry.ConnectivityFails
                     else ClientRetry.RelayOpens) = Some tr
         ∧ ClientRetry.attempts tr = 3%nat)
  ∧ (∃ tr, ClientRetry.connectWithRetry (fun _ => ClientRetry.ConnectivityFails)
           = Some tr
           ∧ ClientRetry.attempts tr = 10%nat)
  ∧ (∃ tr, SenderRetry.start (fun _ => SenderRetry.Fails) = Some tr
           ∧ SenderRetry.attempts tr = 11%nat).
Proof.
  destruct retry_schedules as (Hopen & Hexhausted & Hsender).
  split; [| split].
  - destruct (Hopen (fun j => if j <? 2 then ClientRetry.ConnectivityFails
                              else ClientRetry.RelayOpens) 2%nat)
      as (tr & Hrun & _ & Ha & _).
    + reflexivity.
    + intros j Hj. destruct (Z.ltb_spec j 2); [reflexivity | lia].
    + reflexivity.
    + exists tr. split; [exact Hrun | exact Ha].
  - destruct (Hexhausted (fun _ => ClientRetry.ConnectivityFails))
      as (tr & Hrun & _ & _ & Ha & _).
    + reflexivity.
    + exists tr. split; [exact Hrun | exact Ha].
  - destruct (Hsender (fun _ => SenderRetry.Fails))
      as (tr & Hrun & _ & _ & Ha & _).
    + discriminate.
    + exists tr. split; [exact Hrun | exact Ha].
Defined.

(** C2 as stated fails on the passthrough sender: against a relay that
    never opens, the wait after the second failure is 750 ms, not
    [min(200 * 1.5, 5000) = 300] ms, and an eleventh attempt is made after
    ten failures. *)
Lemma sender_schedule_counterexample :
  ∃ tr d, SenderRetry.start (fun _ => SenderRetry.Fails) = Some tr
          ∧ SenderRetry.waits tr !! 1%nat = Some d
          ∧ (d == 750)%Q
          ∧ ¬ (d == Qmin (200 * 1.5) 5000)%Q
          ∧ SenderRetry.Attempt 10 ∈ tr
          ∧ SenderRetry.attempts tr = 11%nat.
Proof.
  eexists _, _. split; [reflexivity |]. split; [reflexivity |].
  split; [reflexivity |]. split; [by intros H |]. split; [| reflexivity].
  rewrite !elem_of_cons. auto 25.
Qed.

(** ** Gitea listener: parsing *)

Section Parsing.

Import GiteaListener.
Local Open Scope string_scope.

(** [split] always returns at least one piece. *)
Lemma split_go_head (sep : string) (s : string) :
  ∀ skip piece, is_Some (split_go sep skip piece s !! 0%nat).
Proof.
  induction s as [| c s IH]; intros skip piece; [done |].
  cbn [split_go]. destruct skip as [| k]; [| apply IH].
  destruct (String.prefix sep (String c s)); [done | apply IH].
Qed.

Lemma split_head (s sep : string) : is_Some (split s sep !! 0%nat).
Proof. apply split_go_head. Qed.

(** The inner [try] never takes its [catch]. *)
Lemma try_parse_total (requestText : string) : is_Some (try_parse requestText).
Proof.
  unfold try_parse. by destruct (split_head requestText CRLF) as [l ->].
Qed.

Lemma or_else_falsy (v : option string) (fallback : string) :
  truthy v = false → or_else v fallback = fallback.
Proof. by destruct v as [[|] |]. Qed.

Lemma or_else_truthy (v : option string) (fallback : string) :
  truthy (Some fallback) = true → truthy (Some (or_else v fallback)) = true.
Proof. by destruct v as [[|] |]. Qed.

Lemma or_else_keep (s fallback : string) :
  truthy (Some s) = true → or_else (Some s) fallback = s.
Proof. by destruct s. Qed.

(** A library that makes the two checks makes them. *)
Lemma strict_request_checks :
  GiteaForward.checks_method_and_path GiteaForward.strict_request.
Proof.
  intros o [Hm | Hp]; unfold GiteaForward.strict_request.
  - by rewrite Hm.
  - by rewrite Hp, orb_true_r.
Qed.

(** C3, as the code has it.  The parser completes on every message
    without an exception, and defaults are substituted field by field:
    the method is the first token of the request line, or ["GET"] when
    that is missing or empty; the path is the second token, or ["/"] when
    that is missing or empty; the headers are those the header loop
    collects.  The request is then handed to [https.request] with this
    method and path; when that call returns, the message itself is
    written as body; when it throws, nothing is forwarded, and it throws
    in particular when the method is not an HTTP token or the path holds
    a character below [0x21].  The empty message gives the default
    request [GET /] with no header and, when it is forwarded, an empty
    body. *)
Theorem parse_defaults_per_field (requestText : string) :
  let requestLine := default "" (split requestText CRLF !! 0%nat) in
  let parts := split requestLine " " in
  try_parse requestText = Some (parse requestText)
  ∧ method (parse requestText) = or_else (parts !! 0%nat) "GET"
  ∧ path (parse requestText) = or_else (parts !! 1%nat) "/"
  ∧ headers (parse requestText)
    = header_loop (drop 1 (split requestText CRLF)) ∅
  ∧ (truthy (parts !! 0%nat) = false → method (parse requestText) = "GET")
  ∧ (truthy (parts !! 1%nat) = false → path (parse requestText) = "/")
  ∧ (∀ (request_throws : GiteaForward.options → bool) host port,
       let options := GiteaForward.make_options host port (parse requestText) in
       GiteaForward.opt_method options = method (parse requestText)
       ∧ GiteaForward.opt_path options = path (parse requestText)
       ∧ GiteaForward.opt_headers options
         = GiteaForward.request_headers host (headers (parse requestText))
       ∧ (request_throws options = false →
          GiteaForward.forward request_throws host port requestText
          = Some (GiteaForward.Forwarded options requestText))
       ∧ (request_throws options = true →
          GiteaForward.forward request_throws host port requestText = None)
       ∧ (GiteaForward.checks_method_and_path request_throws →
          GiteaForward.isHttpToken (method (parse requestText)) = false
          ∨ GiteaForward.hasUnescaped (path (parse requestText)) = true →
          GiteaForward.forward request_throws host port requestText = None))
  ∧ parse "" = default_request
  ∧ (∀ (request_throws : GiteaForward.options → bool) host port,
       request_throws (GiteaForward.make_options host port default_request)
       = false →
       GiteaForward.forward request_throws host port ""
       = Some (GiteaForward.Forwarded
                 (GiteaForward.make_options host port default_request) "")).
Proof.
  intros requestLine parts.
  assert (Hparse : parse requestText
                   = HttpRequest (or_else (parts !! 0%nat) "GET")
                       (or_else (parts !! 1%nat) "/")
                       (header_loop (drop 1 (split requestText CRLF)) ∅)).
  { unfold parse, try_parse, parts, requestLine.
    by destruct (split_head requestText CRLF) as [l ->]. }
  assert (Hm : or_else (Some (method (parse requestText))) "GET"
               = method (parse requestText)).
  { rewrite Hparse. cbn [method]. by apply or_else_keep, or_else_truthy. }
  assert (Hp : or_else (Some (path (parse requestText))) "/"
               = path (parse requestText)).
  { rewrite Hparse. cbn [path]. by apply or_else_keep, or_else_truthy. }
  split; [| split; [| split; [| split; [| split; [| split; [| split;
    [| split]]]]]]]; try done.
  - unfold parse. by destruct (try_parse_total requestText) as [r ->].
  - by rewrite Hparse.
  - by rewrite Hparse.
  - by rewrite Hparse.
  - intros Hmiss. rewrite Hparse. by apply or_else_falsy.
  - intros Hmiss. rewrite Hparse. by apply or_else_falsy.
  - intros request_throws host port options.
    assert (Hbody : (if (0 <? String.length requestText)%nat
                     then requestText else "") = requestText)
      by (by destruct requestText).
    split; [exact Hm |]. split; [exact Hp |]. split; [done |].
    unfold GiteaForward.forward. fold options. rewrite Hbody.
    split; [by intros -> |]. split; [by intros -> |].
    intros Hchecks Hbad. rewrite (Hchecks options); [done |].
    unfold options. cbn [GiteaForward.make_options GiteaForward.opt_method
      GiteaForward.opt_path]. by rewrite Hm, Hp.
  - intros request_throws host port Hok. unfold GiteaForward.forward.
    change (parse "") with default_request. by rewrite Hok.
Qed.

(** [parse_defaults_per_field] at the message ["FOO"], whose request line
    has no path, and at the probe message of the command client, whose
    request line is no HTTP token. *)
Lemma parse_defaults_per_field_witness :
  method (parse "FOO") = "FOO" ∧ path (parse "FOO") = "/"
  ∧ GiteaForward.forward GiteaForward.strict_request "gitea.internal" 3000
      GiteaForward.probe_message
    = None.
Proof.
  destruct (parse_defaults_per_field "FOO") as (_ & Hm & _ & _ & _ & Hp & _).
  split; [exact Hm |]. split; [apply Hp; reflexivity |].
  destruct (parse_defaults_per_field GiteaForward.probe_message)
    as (_ & _ & _ & _ & _ & _ & Hforward & _).
  destruct (Hforward GiteaForward.strict_request "gitea.internal" 3000)
    as (_ & _ & _ & _ & _ & Hchecked).
  apply Hchecked; [apply strict_request_checks | left; reflexivity].
Defined.

(** C3 as stated fails.  The request line of ["FOO"] has no path, so the
    message is not a request, yet the request forwarded is not the default
    one: it keeps the method [FOO].  And the probe message of the command
    client, which is no request either, is not forwarded at all where
    [https.request] checks the method: the call throws on the method
    [{"type":"probe"}]. *)
Lemma malformed_request_counterexample :
  method (parse GiteaForward.probe_message) = GiteaForward.probe_message
  ∧ GiteaForward.isHttpToken GiteaForward.probe_message = false
  ∧ GiteaForward.forward GiteaForward.strict_request "gitea.internal" 3000
      GiteaForward.probe_message
    = None
  ∧ missing_method_or_path "FOO" = true
  ∧ parse "FOO" = HttpRequest "FOO" "/" ∅
  ∧ parse "FOO" ≠ default_request
  ∧ GiteaForward.forward GiteaForward.strict_request "gitea.internal" 3000 "FOO"
    = Some (GiteaForward.Forwarded
              (GiteaForward.make_options "gitea.internal" 3000
                 (HttpRequest "FOO" "/" ∅)) "FOO")
  ∧ GiteaForward.forward GiteaForward.strict_request "gitea.internal" 3000 "FOO"
    ≠ Some (GiteaForward.Forwarded
              (GiteaForward.make_options "gitea.internal" 3000 default_request)
              "").
Proof. by repeat split. Qed.

(** The loop reads the lines before the first empty one and assigns the
    entry of each, in order. *)
Lemma header_loop_fold (lines : list string) :
  ∀ h, header_loop lines h
       = foldl (fun h e => assign e.1 e.2 h) h
           (omap header_entry (until_blank lines)).
Proof.
  induction lines as [| line rest IH]; intros h; [done |].
  cbn [header_loop until_blank].
  destruct (truthy (Some line)); [| done].
  cbn [omap list_omap]. rewrite IH. unfold header_entry.
  by destruct (truthy (split line ": " !! 0%nat)
               && truthy (split line ": " !! 1%nat)).
Qed.

(** After a run of assignments a key holds the value assigned last. *)
Lemma assign_last (entries : list (string * string)) (k : string) :
  k ≠ "__proto__" →
  ∀ h : gmap string string,
    foldl (fun h e => assign e.1 e.2 h) h entries !! k
    = match last (filter (fun e => e.1 = k) entries) with
      | Some e => Some e.2
      | None => h !! k
      end.
Proof.
  intros Hk.
  induction entries as [| e entries IH] using rev_ind; intros h; [done |].
  rewrite foldl_app, filter_app. cbn [foldl]. unfold assign at 1.
  destruct (String.eqb_spec e.1 "__proto__") as [Hproto | _].
  - rewrite filter_cons_False by congruence.
    rewrite filter_nil, app_nil_r. apply IH.
  - destruct (decide (e.1 = k)) as [<- | Hne].
    + rewrite filter_cons_True by done. rewrite filter_nil, last_snoc.
      apply lookup_insert_eq.
    + rewrite filter_cons_False by done. rewrite filter_nil, app_nil_r.
      rewrite lookup_insert_ne by done. apply IH.
Qed.

(** C7, as the code has it: among the header lines of a request (the
    lines after the request line, up to the first empty one) that carry a
    non-empty key and a non-empty value, the last one with a given key
    decides the value of that key in the parsed headers; a key carried by
    none of them is absent. *)
Theorem headers_keep_last (requestText k : string) :
  k ≠ "__proto__" →
  headers (parse requestText) !! k
  = snd <$> last (filter (fun e => e.1 = k)
                    (omap header_entry (header_lines requestText))).
Proof.
  intros Hk. unfold parse, try_parse, header_lines.
  destruct (split_head requestText CRLF) as [l ->]. cbn [mbind option_bind headers].
  rewrite header_loop_fold, assign_last by done.
  by destruct (last _).
Qed.

(** [headers_keep_last] at a request with the header [X] twice. *)
Lemma headers_keep_last_witness :
  headers (parse Examples.dup_request) !! "X" = Some "b".
Proof.
  rewrite (headers_keep_last Examples.dup_request "X"); [reflexivity |].
  discriminate.
Defined.

(** C7 as stated fails: the request carries [X: a] and then [X: b], and
    the parsed headers hold ["b"] for [X], the value of the second
    occurrence. *)
Lemma duplicate_header_counterexample :
  omap header_entry (header_lines Examples.dup_request)
  = [("X", "a"); ("X", "b")]
  ∧ headers (parse Examples.dup_request) !! "X" = Some "b"
  ∧ headers (parse Examples.dup_request) !! "X" ≠ Some "a".
Proof. by repeat split. Qed.

End Parsing.

(** ** Gitea listener: close policy *)

Section ClosePolicy.

Import GiteaListener.
Local Open Scope string_scope.

(** A path that ends in [.css] does not end in [.js]. *)
Lemma css_not_js (path : string) :
  isCssFile path = true → isJsFile path = false.
Proof.
  unfold isCssFile, isJsFile.
  induction path as [| c path IH]; [done |].
  cbn [endsWith]. intros Hcss.
  apply orb_true_iff in Hcss as [Heq | Hrest].
  - apply String.eqb_eq in Heq. by injection Heq as -> ->.
  - rewrite (IH Hrest), orb_false_r.
    destruct (String.eqb_spec (String c path) ".js") as [Heq | _]; [| done].
    injection Heq as _ ->. done.
Qed.

Lemma core_is_js (path : string) :
  isCoreJsFile path = true → isJsFile path = true.
Proof. unfold isCoreJsFile. by intros [? _]%andb_true_iff. Qed.

(** C5, as the code has it: the callback of a successful send on an open
    channel, by the path of the request.  For a path
    ending in [.js] that is not a core file the channel is closed at once
    with code 1000; for a path ending in [.css] the channel is left open
    and one timer of 100 ms is started, which closes the channel with code
    1000 when it fires on the still open channel; for a core file (a
    [.js] path containing [webcomponents.js] or [serviceworker.js]) and
    for every other path the channel is left as it is and no timer is
    started. *)
Theorem close_policy (path : string) (ws : WebSocket.t) :
  WebSocket.isOpen ws = true →
  (isJsFile path = true → isCoreJsFile path = false →
     send_callback None path ws
     = (WebSocket.close (Some (1000, "JavaScript file complete")) ws, [])
     ∧ WebSocket.state (send_callback None path ws).1 = WebSocket.CLOSING)
  ∧ (isCssFile path = true →
       ∃ t, send_callback None path ws = (ws, [(100, t)])
            ∧ fire t ws = WebSocket.close (Some (1000, "CSS file complete")) ws
            ∧ WebSocket.state (fire t ws) = WebSocket.CLOSING)
  ∧ (isCoreJsFile path = true → send_callback None path ws = (ws, []))
  ∧ (isJsFile path = false → isCssFile path = false →
       send_callback None path ws = (ws, [])).
Proof.
  intros Hopen.
  assert (Hstate : WebSocket.state ws = WebSocket.OPEN).
  { unfold WebSocket.isOpen in Hopen. by apply bool_decide_eq_true in Hopen. }
  unfold send_callback. split; [| split; [| split]].
  - intros -> ->. rewrite Hopen. cbn. by rewrite Hstate.
  - intros Hcss. rewrite (css_not_js path Hcss), Hcss.
    assert (isCoreJsFile path = false) as ->.
    { unfold isCoreJsFile. by rewrite (css_not_js path Hcss). }
    cbn. eexists. split; [done |]. cbn. rewrite Hopen.
    split; [done |]. cbn. by rewrite Hstate.
  - intros Hcore. by rewrite Hcore, (core_is_js path Hcore).
  - intros Hjs Hcss. rewrite Hjs, Hcss. unfold isCoreJsFile. by rewrite Hjs.
Qed.

(** [close_policy] at a script, a style sheet, a core script and a page. *)
Lemma close_policy_witness :
  WebSocket.state (send_callback None "/assets/app.js" WebSocket.fresh).1
  = WebSocket.CLOSING
  ∧ (∃ t, send_callback None "/style.css" WebSocket.fresh
          = (WebSocket.fresh, [(100, t)]))
  ∧ send_callback None "/js/webcomponents.js" WebSocket.fresh
    = (WebSocket.fresh, [])
  ∧ send_callback None "/user/repo" WebSocket.fresh = (WebSocket.fresh, []).
Proof.
  split; [| split; [| split]].
  - destruct (close_policy "/assets/app.js" WebSocket.fresh) as (Hjs & _);
      [reflexivity |].
    apply Hjs; reflexivity.
  - destruct (close_policy "/style.css" WebSocket.fresh) as (_ & Hcss & _);
      [reflexivity |].
    destruct Hcss as (t & Hsend & _); [reflexivity |].
    exists t. exact Hsend.
  - destruct (close_policy "/js/webcomponents.js" WebSocket.fresh)
      as (_ & _ & Hcore & _); [reflexivity |].
    apply Hcore; reflexivity.
  - destruct (close_policy "/user/repo" WebSocket.fresh)
      as (_ & _ & _ & Hother); [reflexivity |].
    apply Hother; reflexivity.
Defined.

(** C5 as stated fails.  The policy reads the path of the request and
    nothing of the response: a script and a style sheet requested with a
    version in the query string, which the handler itself counts as
    static assets and sends with the cache line, do not end in [.js] or
    [.css]; the channel is left open after them and no timer is started,
    whatever content type the target answered with. *)
Lemma query_string_asset_counterexample :
  GiteaForward.isStaticAsset "/assets/js/index.js?v=1.21.0" = true
  ∧ isJsFile "/assets/js/index.js?v=1.21.0" = false
  ∧ send_callback None "/assets/js/index.js?v=1.21.0" WebSocket.fresh
    = (WebSocket.fresh, [])
  ∧ GiteaForward.isStaticAsset "/assets/css/index.css?v=1.21.0" = true
  ∧ isCssFile "/assets/css/index.css?v=1.21.0" = false
  ∧ send_callback None "/assets/css/index.css?v=1.21.0" WebSocket.fresh
    = (WebSocket.fresh, []).
Proof. by repeat split. Qed.

End ClosePolicy.

(** ** Registries: registration and removal *)

Section Registry.

Local Open Scope string_scope.

(** C6, as the code has it: registration cannot fail.  [connections.set]
    of the command server stores the new entry under the id whether or not
    the id is present, and leaves every other entry alone; the accept
    handler of the Gitea listener stores twice under its new id, and the
    entry stored last (without [lastActivity]) is the one that stays. *)
Theorem registration_replaces :
  (∀ (connections : gmap string Server.connection) id w now,
     Server.on_connection id w now connections !! id
     = Some (Server.Connection w now now false)
     ∧ ∀ j, j ≠ id →
            Server.on_connection id w now connections !! j = connections !! j)
  ∧ (∀ (l : GiteaListener.listener) w now,
       let id := GiteaListener.connectionCounter l + 1 in
       GiteaListener.connectionCounter (GiteaListener.accept w now l) = id
       ∧ GiteaListener.activeConnections (GiteaListener.accept w now l) !! id
         = Some (GiteaListener.Conn w None)
       ∧ ∀ j, j ≠ id →
              GiteaListener.activeConnections (GiteaListener.accept w now l) !! j
              = GiteaListener.activeConnections l !! j).
Proof.
  split.
  - intros connections id w now. unfold Server.on_connection. split.
    + apply lookup_insert_eq.
    + intros j Hj. by apply lookup_insert_ne.
  - intros l w now id. unfold GiteaListener.accept. cbn. fold id.
    split; [done |]. split.
    + apply lookup_insert_eq.
    + intros j Hj. by rewrite !lookup_insert_ne.
Qed.

(** [registration_replaces] at a second registration under the id
    ["c1"]. *)
Lemma registration_replaces_witness :
  Server.on_connection "c1" WebSocket.fresh 5 Examples.closing_server !! "c1"
  = Some (Server.Connection WebSocket.fresh 5 5 false)
  ∧ Server.on_connection "c1" WebSocket.fresh 5 Examples.closing_server !! "c2"
    = Examples.closing_server !! "c2".
Proof.
  destruct registration_replaces as [Hserver _].
  destruct (Hserver Examples.closing_server "c1" WebSocket.fresh 5)
    as [Hnew Hother].
  split; [exact Hnew | apply Hother; discriminate].
Defined.

(** C6 as stated fails: the id ["c1"] is registered, and registering
    another channel under it returns a registry in which the new entry
    has taken the place of the old one.  The accept handler of the Gitea
    listener does so on every connection: of the two entries it stores
    under the new id, only the second is left. *)
Lemma duplicate_id_counterexample :
  Examples.closing_server !! "c1"
  = Some (Server.Connection Examples.closing_channel 0 0 false)
  ∧ Server.on_connection "c1" WebSocket.fresh 5 Examples.closing_server !! "c1"
    = Some (Server.Connection WebSocket.fresh 5 5 false)
  ∧ Server.on_connection "c1" WebSocket.fresh 5 Examples.closing_server
    = {[ "c1" := Server.Connection WebSocket.fresh 5 5 false ]}
  ∧ GiteaListener.accept WebSocket.fresh 7 (GiteaListener.Listener ∅ 0)
    = GiteaListener.Listener {[ 1 := GiteaListener.Conn WebSocket.fresh None ]} 1.
Proof.
  split; [done |]. split; [done |]. split.
  - unfold Examples.closing_server, Server.on_connection.
    by rewrite insert_insert_eq, insert_empty.
  - unfold GiteaListener.accept. cbn.
    by rewrite insert_insert_eq, insert_empty.
Qed.

(** C9: removal from the registry is idempotent.  Deleting an id that is
    not registered returns [false] and leaves the registry as it is; a
    second close or error event for the same connection, in either order,
    changes nothing and removes nothing, and so does the close event that
    follows an eviction by the cleanup sweep or by the heartbeat. *)
Theorem removal_idempotent :
  (∀ (connections : gmap string Server.connection) id,
     (connections !! id = None →
        Server.map_delete id connections = (false, connections))
     ∧ Server.on_close id (Server.on_close id connections)
       = Server.on_close id connections
     ∧ Server.on_close id (Server.on_error id connections)
       = Server.on_error id connections
     ∧ Server.on_error id (Server.on_close id connections)
       = Server.on_close id connections
     ∧ (Server.map_delete id (Server.on_close id connections)).1 = false
     ∧ (∀ now c, connections !! id = Some c → Server.inactive now c = true →
          Server.map_delete id (Server.cleanup now connections).2
          = (false, (Server.cleanup now connections).2)))
  ∧ (∀ (l : GiteaListener.listener) id,
       (GiteaListener.activeConnections l !! id = None →
          GiteaListener.on_close id l = l)
       ∧ GiteaListener.on_close id (GiteaListener.on_close id l)
         = GiteaListener.on_close id l
       ∧ GiteaListener.on_close id (GiteaListener.on_error id l)
         = GiteaListener.on_error id l
       ∧ GiteaListener.on_error id (GiteaListener.on_close id l)
         = GiteaListener.on_close id l).
Proof.
  split.
  - intros connections id.
    assert (Hgone : ∀ m : gmap string Server.connection,
              m !! id = None → Server.map_delete id m = (false, m)).
    { intros m Hm. unfold Server.map_delete. rewrite delete_id by done.
      f_equal. apply bool_decide_eq_false. rewrite Hm. by intros [? ?]. }
    unfold Server.on_close, Server.on_error.
    split; [apply Hgone |].
    rewrite !Hgone by apply lookup_delete_eq.
    repeat split; try done.
    intros now c Hc Hinactive. apply Hgone. cbn.
    rewrite lookup_omap, Hc. cbn. by rewrite Hinactive.
  - intros [m counter] id.
    unfold GiteaListener.on_close, GiteaListener.on_error. cbn.
    rewrite delete_delete_eq. repeat split; try done.
    intros Hm. by rewrite delete_id.
Qed.

(** [removal_idempotent] at a registry whose only connection is removed
    twice, and at one that never held the id. *)
Lemma removal_idempotent_witness :
  Server.map_delete "c2" Examples.closing_server
  = (false, Examples.closing_server)
  ∧ Server.on_close "c1" (Server.on_error "c1" Examples.closing_server) = ∅
  ∧ Server.map_delete "c1" (Server.cleanup 300001 Examples.closing_server).2
    = (false, (Server.cleanup 300001 Examples.closing_server).2).
Proof.
  destruct removal_idempotent as [Hserver _].
  split; [| split].
  - destruct (Hserver Examples.closing_server "c2") as (Hnone & _).
    apply Hnone. reflexivity.
  - destruct (Hserver Examples.closing_server "c1") as (_ & _ & Hce & _).
    rewrite Hce. reflexivity.
  - destruct (Hserver Examples.closing_server "c1")
      as (_ & _ & _ & _ & _ & Hsweep).
    apply (Hsweep 300001 (Server.Connection Examples.closing_channel 0 0 false));
      reflexivity.
Defined.

End Registry.

(** ** Sweeps: stale-connection cleanup and heartbeat *)

Section Sweeps.

Local Open Scope string_scope.
Local Open Scope Z_scope.

Lemma cleanup_inactive (now : Z) (connections : gmap string Server.connection)
    (id : string) (c : Server.connection) :
  connections !! id = Some c → Server.inactive now c = true →
  (Server.cleanup now connections).2 !! id = None
  ∧ (Server.cleanup now connections).1 !! id = Some (Server.closed c).
Proof.
  intros Hc Hin. cbn. rewrite !lookup_omap, Hc. cbn. by rewrite Hin.
Qed.

Lemma cleanup_active (now : Z) (connections : gmap string Server.connection)
    (id : string) (c : Server.connection) :
  connections !! id = Some c → Server.inactive now c = false →
  (Server.cleanup now connections).2 !! id = Some c
  ∧ (Server.cleanup now connections).1 !! id = None.
Proof.
  intros Hc Hin. cbn. rewrite !lookup_omap, Hc. cbn. by rewrite Hin.
Qed.

Lemma inactive_spec (now : Z) (c : Server.connection) :
  Server.inactive now c = true ↔ Server.IDLE_LIMIT < now - Server.lastActivity c.
Proof.
  unfold Server.inactive.
  destruct (Z.gtb_spec (now - Server.lastActivity c) Server.IDLE_LIMIT);
    split; intros; (done || lia).
Qed.

(** Sweeps that run no later than the idle limit after the last activity
    leave the connection registered. *)
Lemma sweeps_keep (t0 : Z) (connections : gmap string Server.connection)
    (id : string) (c : Server.connection) :
  connections !! id = Some c →
  ∀ n : nat,
    t0 + Z.of_nat n * Server.CLEANUP_INTERVAL
    ≤ Server.lastActivity c + Server.IDLE_LIMIT →
    Server.sweeps t0 n connections !! id = Some c.
Proof.
  intros Hc. induction n as [| n IH]; intros Hn; [done |].
  cbn [Server.sweeps].
  apply cleanup_active.
  - apply IH. unfold Server.CLEANUP_INTERVAL in *. lia.
  - destruct (Server.inactive _ c) eqn:Hin; [| done].
    apply inactive_spec in Hin. lia.
Qed.

(** What [connection.ws.close()] leaves of an entry: one more call of
    [close], with no argument, on a channel that is no longer open, and
    the rest of the entry as it was. *)
Lemma closed_spec (c : Server.connection) :
  WebSocket.closeCalls (Server.ws (Server.closed c))
  = (WebSocket.closeCalls (Server.ws c) ++ [None])%list
  ∧ WebSocket.isOpen (Server.ws (Server.closed c)) = false
  ∧ WebSocket.pings (Server.ws (Server.closed c)) = WebSocket.pings (Server.ws c)
  ∧ Server.connectedAt (Server.closed c) = Server.connectedAt c
  ∧ Server.lastActivity (Server.closed c) = Server.lastActivity c
  ∧ Server.isProbe (Server.closed c) = Server.isProbe c.
Proof.
  repeat split. unfold WebSocket.isOpen. cbn.
  apply bool_decide_eq_false. by destruct (WebSocket.state (Server.ws c)).
Qed.

(** C8, as the code has it.  Command server: a cleanup sweep at time
    [now] calls [close()] on, and removes, exactly the connections whose
    last activity is more than 5 minutes before [now], whatever their
    channel state, and leaves the others as they are, with no call on
    their channel; the channel of a connection removed has got exactly
    one more [close] call and is not open.  With sweeps every 60 s and
    no other event, a connection is removed at the first sweep after its
    idle time has passed 5 minutes, which is at most 60 s after that
    moment.  Gitea listener: a heartbeat sweep removes, at that sweep,
    every connection whose channel is not open, and every connection
    whose channel is open and whose ping throws, without calling [close]
    on it; every other connection it pings once and sets its
    [lastActivity] to the time of the sweep. *)
Theorem sweep_evictions :
  (∀ now (connections : gmap string Server.connection) id c,
     connections !! id = Some c →
     (Server.IDLE_LIMIT < now - Server.lastActivity c →
        (Server.cleanup now connections).2 !! id = None
        ∧ (Server.cleanup now connections).1 !! id = Some (Server.closed c)
        ∧ ∃ c', (Server.cleanup now connections).1 !! id = Some c'
                ∧ WebSocket.closeCalls (Server.ws c')
                  = (WebSocket.closeCalls (Server.ws c) ++ [None])%list
                ∧ WebSocket.isOpen (Server.ws c') = false
                ∧ Server.lastActivity c' = Server.lastActivity c)
     ∧ (now - Server.lastActivity c ≤ Server.IDLE_LIMIT →
          (Server.cleanup now connections).2 !! id = Some c
          ∧ (Server.cleanup now connections).1 !! id = None))
  ∧ (∀ t0 (connections : gmap string Server.connection) id c,
       connections !! id = Some c →
       t0 ≤ Server.lastActivity c + Server.IDLE_LIMIT →
       ∃ n : nat,
         let t := t0 + Z.of_nat (S n) * Server.CLEANUP_INTERVAL in
         Server.lastActivity c + Server.IDLE_LIMIT < t
         ∧ t ≤ Server.lastActivity c + Server.IDLE_LIMIT + Server.CLEANUP_INTERVAL
         ∧ Server.sweeps t0 n connections !! id = Some c
         ∧ Server.sweeps t0 (S n) connections !! id = None
         ∧ (Server.cleanup t (Server.sweeps t0 n connections)).1 !! id
           = Some (Server.closed c)
         ∧ ∃ c', (Server.cleanup t (Server.sweeps t0 n connections)).1 !! id
                 = Some c'
                 ∧ WebSocket.closeCalls (Server.ws c')
                   = (WebSocket.closeCalls (Server.ws c) ++ [None])%list
                 ∧ WebSocket.isOpen (Server.ws c') = false
                 ∧ Server.lastActivity c' = Server.lastActivity c)
  ∧ (∀ now (l : GiteaListener.listener) id c,
       GiteaListener.activeConnections l !! id = Some c →
       (WebSocket.isOpen (GiteaListener.ws c) = false →
          GiteaListener.activeConnections (GiteaListener.sendHeartbeats now l) !! id
          = None
          ∧ GiteaListener.dropped now l !! id = Some c)
       ∧ (WebSocket.isOpen (GiteaListener.ws c) = true →
          WebSocket.pingThrows (GiteaListener.ws c) = true →
          GiteaListener.activeConnections (GiteaListener.sendHeartbeats now l) !! id
          = None
          ∧ GiteaListener.dropped now l !! id = Some c)
       ∧ (WebSocket.isOpen (GiteaListener.ws c) = true →
          WebSocket.pingThrows (GiteaListener.ws c) = false →
          GiteaListener.activeConnections (GiteaListener.sendHeartbeats now l) !! id
          = Some (GiteaListener.Conn (WebSocket.ping (GiteaListener.ws c))
                    (Some now))
          ∧ GiteaListener.dropped now l !! id = None
          ∧ ∃ c', GiteaListener.activeConnections
                    (GiteaListener.sendHeartbeats now l) !! id = Some c'
                  ∧ WebSocket.pings (GiteaListener.ws c')
                    = S (WebSocket.pings (GiteaListener.ws c))
                  ∧ WebSocket.closeCalls (GiteaListener.ws c')
                    = WebSocket.closeCalls (GiteaListener.ws c)
                  ∧ WebSocket.isOpen (GiteaListener.ws c') = true
                  ∧ GiteaListener.lastActivity c' = Some now))
  ∧ Server.IDLE_LIMIT = 300000 ∧ Server.CLEANUP_INTERVAL = 60000
  ∧ GiteaListener.HEARTBEAT_INTERVAL = 30000.
Proof.
  assert (Hclosed : ∀ (m : gmap string Server.connection) id c,
            m !! id = Some (Server.closed c) →
            ∃ c', m !! id = Some c'
                  ∧ WebSocket.closeCalls (Server.ws c')
                    = (WebSocket.closeCalls (Server.ws c) ++ [None])%list
                  ∧ WebSocket.isOpen (Server.ws c') = false
                  ∧ Server.lastActivity c' = Server.lastActivity c).
  { intros m id c Hm. exists (Server.closed c).
    destruct (closed_spec c) as (Hcalls & Hopen & _ & _ & Hlast & _).
    by repeat split. }
  split; [| split; [| split; [| done]]].
  - intros now connections id c Hc. split; intros Hidle.
    + destruct (cleanup_inactive now connections id c Hc) as [Hgone Hswept];
        [by apply inactive_spec |].
      split; [done |]. split; [done |]. by apply Hclosed.
    + apply cleanup_active; [done |].
      destruct (Server.inactive now c) eqn:Hin; [| done].
      apply inactive_spec in Hin. lia.
  - intros t0 connections id c Hc Hstart.
    set (T := Server.lastActivity c + Server.IDLE_LIMIT) in *.
    set (q := (T - t0) / Server.CLEANUP_INTERVAL).
    assert (Hq : 0 ≤ q) by (apply Z.div_pos; unfold Server.CLEANUP_INTERVAL; lia).
    assert (Hdiv : t0 + q * Server.CLEANUP_INTERVAL ≤ T
                   ∧ T < t0 + (q + 1) * Server.CLEANUP_INTERVAL).
    { pose proof (Z.div_mod (T - t0) Server.CLEANUP_INTERVAL) as Hdm.
      pose proof (Z.mod_pos_bound (T - t0) Server.CLEANUP_INTERVAL) as Hmod.
      fold q in Hdm. unfold Server.CLEANUP_INTERVAL in *. lia. }
    exists (Z.to_nat q). cbn zeta.
    replace (Z.of_nat (S (Z.to_nat q))) with (q + 1) by lia.
    assert (Hkept : Server.sweeps t0 (Z.to_nat q) connections !! id = Some c).
    { apply sweeps_keep; [done |]. rewrite Z2Nat.id by done. apply Hdiv. }
    assert (Hin : Server.inactive (t0 + (q + 1) * Server.CLEANUP_INTERVAL) c
                  = true).
    { apply inactive_spec. unfold T in Hdiv. lia. }
    split; [apply Hdiv |]. split; [unfold Server.CLEANUP_INTERVAL in *; lia |].
    split; [done |].
    cbn [Server.sweeps].
    replace (Z.of_nat (S (Z.to_nat q))) with (q + 1) by lia.
    destruct (cleanup_inactive (t0 + (q + 1) * Server.CLEANUP_INTERVAL)
                (Server.sweeps t0 (Z.to_nat q) connections) id c Hkept Hin)
      as [Hgone Hswept].
    split; [done |]. split; [done |]. by apply Hclosed.
  - intros now [m counter] id c Hc. cbn in Hc.
    unfold GiteaListener.sendHeartbeats, GiteaListener.dropped. cbn.
    rewrite !lookup_omap, Hc. cbn. unfold GiteaListener.heartbeat.
    split; [by intros -> |]. split; [by intros -> -> |].
    intros Hopen Hping. rewrite Hopen, Hping.
    split; [done |]. split; [done |]. eexists. split; [done |].
    by repeat split.
Qed.

(** [sweep_evictions] at a server connection idle since time 0 with
    sweeps from time 0 on, at the listener's closing connection, and at
    a listener whose one connection has an open channel on which [ping]
    throws. *)
Lemma sweep_evictions_witness :
  (Server.cleanup 300001 Examples.closing_server).2 !! "c1" = None
  ∧ (∃ n : nat,
       Server.sweeps 0 n Examples.closing_server !! "c1"
       = Some (Server.Connection Examples.closing_channel 0 0 false)
       ∧ Server.sweeps 0 (S n) Examples.closing_server !! "c1" = None)
  ∧ GiteaListener.activeConnections
      (GiteaListener.sendHeartbeats 30000 Examples.closing_listener) !! 1
    = None
  ∧ GiteaListener.activeConnections
      (GiteaListener.sendHeartbeats 30000
         (GiteaListener.accept (WebSocket.Make WebSocket.OPEN [] 0 true) 0
            (GiteaListener.Listener ∅ 0))) !! 1
    = None.
Proof.
  destruct sweep_evictions as (Hsweep & Htiming & Hbeat & _).
  split; [| split; [| split]]; cycle 3.
  - destruct (Hbeat 30000
                (GiteaListener.accept (WebSocket.Make WebSocket.OPEN [] 0 true) 0
                   (GiteaListener.Listener ∅ 0)) 1
                (GiteaListener.Conn (WebSocket.Make WebSocket.OPEN [] 0 true)
                   None))
      as (_ & Hthrow & _); [reflexivity |].
    apply Hthrow; reflexivity.
  - destruct (Hsweep 300001 Examples.closing_server "c1"
                (Server.Connection Examples.closing_channel 0 0 false))
      as [Hevict _]; [reflexivity |].
    apply Hevict. reflexivity.
  - destruct (Htiming 0 Examples.closing_server "c1"
                (Server.Connection Examples.closing_channel 0 0 false))
      as (n & _ & _ & Hbefore & Hafter & _); [reflexivity | discriminate |].
    exists n. split; [exact Hbefore | exact Hafter].
  - destruct (Hbeat 30000 Examples.closing_listener 1
                (GiteaListener.Conn Examples.closing_channel None))
      as [Hdrop _]; [reflexivity |].
    apply Hdrop. reflexivity.
Defined.

(** C8 as stated fails.  In the Gitea listener a connection with an open
    channel that has been quiet for an hour is not evicted by the
    heartbeat: it is pinged and its [lastActivity] is set to the time of
    the sweep; and a connection whose channel is not open is deleted from
    the registry with no [close] call made on its channel.  In the command
    server a connection whose channel is not open, and whose last activity
    is within the limit, stays registered through the sweep. *)
Lemma heartbeat_counterexample :
  GiteaListener.activeConnections Examples.quiet_listener !! 1
  = Some (GiteaListener.Conn (WebSocket.ping WebSocket.fresh) (Some 30000))
  ∧ GiteaListener.activeConnections
      (GiteaListener.sendHeartbeats 3630000 Examples.quiet_listener) !! 1
    = Some (GiteaListener.Conn (WebSocket.ping (WebSocket.ping WebSocket.fresh))
              (Some 3630000))
  ∧ GiteaListener.activeConnections
      (GiteaListener.sendHeartbeats 30000 Examples.closing_listener) !! 1
    = None
  ∧ GiteaListener.dropped 30000 Examples.closing_listener !! 1
    = Some (GiteaListener.Conn Examples.closing_channel None)
  ∧ WebSocket.closeCalls Examples.closing_channel = []
  ∧ WebSocket.isOpen Examples.closing_channel = false
  ∧ (Server.cleanup 60000 Examples.closing_server).2 !! "c1"
    = Some (Server.Connection Examples.closing_channel 0 0 false).
Proof. by repeat split. Qed.

End Sweeps.

(** ** Command client: every command is answered once *)

Section Commands.

Import Client.
Local Open Scope string_scope.
Local Open Scope Z_scope.

Lemma settle_pending (r : settlement) : settled_once (settle r pending).
Proof. by split; [eexists |]. Qed.

Lemma pending_not_settled : ¬ settled_once pending.
Proof. by intros [[? ?] _]. Qed.

Lemma consistent_initial : consistent initial.
Proof. split; try done; by intros ? [[? ?] | [? ?]]. Qed.

(** One stored callback is called and deleted: by a response, or by its
    timeout (which is then gone as well). *)
Lemma consistent_settle (c : client) (id : Z) (p : nat) (r : settlement)
    (tm : gmap Z (nat * string)) :
  consistent c → pendingCommands c !! id = Some p →
  tm = timeouts c ∨ tm = delete id (timeouts c) →
  consistent
    (Client_ (connected c) (ws c) (commandId c) (delete id (pendingCommands c))
       (settle_at p r (promises c)) tm (sent c)).
Proof.
  intros Hc Hid Htm.
  assert (Htm' : ∀ j, j ≠ id → tm !! j = timeouts c !! j).
  { intros j Hj. destruct Htm as [-> | ->]; [done | by apply lookup_delete_ne]. }
  assert (Htm'' : ∀ j, is_Some (tm !! j) → is_Some (timeouts c !! j)).
  { intros j. destruct Htm as [-> | ->]; [done |].
    rewrite lookup_delete. by case_decide. }
  split; cbn.
  - intros id0 p0 [Hne Hold]%lookup_delete_Some.
    destruct (stored_waiting c Hc id0 p0 Hold) as (Hp0 & _ & cmd & Hcmd).
    assert (p ≠ p0).
    { intros ->. by apply Hne, (one_id_per_promise c Hc id id0 p0). }
    split; [| split]; cbn.
    + unfold settle_at. by rewrite list_lookup_alter_ne.
    + by apply lookup_delete_Some.
    + exists cmd. by rewrite Htm'.
  - intros p0 pr. unfold settle_at. rewrite list_lookup_alter.
    destruct (decide (p = p0)) as [<- | Hne].
    + destruct (stored_waiting c Hc id p Hid) as (-> & _). cbn.
      intros [= <-]. left. apply settle_pending.
    + intros Hpr. destruct (settled_or_stored c Hc p0 pr Hpr) as [? | [id0 Hid0]];
        [by left | right].
      exists id0. apply lookup_delete_Some. split; [| done].
      intros <-. congruence.
  - intros id1 id2 p0 [_ H1]%lookup_delete_Some [_ H2]%lookup_delete_Some.
    by apply (one_id_per_promise c Hc id1 id2 p0).
  - intros id0 [H | H]; apply (ids_issued c Hc).
    + left. rewrite lookup_delete in H. by case_decide.
    + right. by apply Htm''.
  - apply (commandId_positive c Hc).
Qed.


Lemma consistent_sendCommand (command : string) (c : client) :
  consistent c → consistent (sendCommand command c).1.
Proof.
  intros Hc. unfold sendCommand.
  destruct (negb (connected c) || negb (bool_decide (is_Some (ws c)))); cbn.
  - pose proof Hc as [_ _ Hinj Hids Hpos].
    split; cbn; try done.
    + intros id p Hid.
      destruct (stored_waiting c Hc id p Hid) as (Hp & _ & Hcmd).
      split; [| done]. cbn.
      rewrite lookup_app_l; [done | by eapply lookup_lt_Some].
    + intros p pr [[_ Hpr] | [_ <-]]%lookup_snoc_Some.
      * by apply (settled_or_stored c Hc).
      * left. apply settle_pending.
  - pose proof (commandId_positive c Hc) as Hpos.
    assert (Hfresh : pendingCommands c !! commandId c = None
                     ∧ timeouts c !! commandId c = None).
    { split; apply eq_None_not_Some; intros H;
        [pose proof (ids_issued c Hc _ (or_introl H))
        | pose proof (ids_issued c Hc _ (or_intror H))]; lia. }
    destruct Hfresh as [Hfp Hft].
    split; cbn.
    + intros id p [[<- <-] | [Hne Hold]]%lookup_insert_Some.
      * split; [| split]; cbn.
        -- by rewrite list_lookup_middle.
        -- apply lookup_insert_eq.
        -- exists command. apply lookup_insert_eq.
      * destruct (stored_waiting c Hc id p Hold) as (Hp & _ & cmd & Hcmd).
        split; [| split]; cbn.
        -- rewrite lookup_app_l; [done | by eapply lookup_lt_Some].
        -- by rewrite lookup_insert_ne.
        -- exists cmd. by rewrite lookup_insert_ne.
    + intros p pr [[_ Hpr] | [-> _]]%lookup_snoc_Some.
      * destruct (settled_or_stored c Hc p pr Hpr) as [? | [id Hid]];
          [by left | right].
        exists id. rewrite lookup_insert_ne; [done |]. congruence.
      * right. exists (commandId c). apply lookup_insert_eq.
    + intros id1 id2 p [[<- <-] | [Hn1 H1]]%lookup_insert_Some
                       [[<- Hp] | [Hn2 H2]]%lookup_insert_Some; try done.
      * destruct (stored_waiting c Hc id2 _ H2) as (Hlt%lookup_lt_Some & _). lia.
      * destruct (stored_waiting c Hc id1 _ H1) as (Hlt%lookup_lt_Some & _). lia.
      * by apply (one_id_per_promise c Hc id1 id2 p).
    + intros id H.
      destruct (decide (id = commandId c)) as [-> | Hne]; [lia |].
      rewrite !lookup_insert_ne in H by done.
      pose proof (ids_issued c Hc id H). lia.
    + lia.
Qed.

(** The promises after every stored callback has been called with the
    close error. *)
Lemma reject_all_lookup (r : jsval) (entries : list (Z * nat)) (ps : list promise)
    (p : nat) :
  truthy r = true → NoDup entries.*2 →
  foldr (fun entry ps => callback entry.2 r JNull ps) ps entries !! p
  = if decide (p ∈ entries.*2) then settle (Rejected r) <$> ps !! p
    else ps !! p.
Proof.
  intros Hr. induction entries as [| [id q] entries IH]; intros Hnd.
  - cbn. by rewrite decide_False by apply not_elem_of_nil.
  - cbn [foldr fmap list_fmap snd] in *. apply NoDup_cons in Hnd as [Hq Hnd].
    specialize (IH Hnd).
    unfold callback at 1. rewrite Hr. unfold settle_at.
    rewrite list_lookup_alter.
    destruct (decide (q = p)) as [-> | Hne]; rewrite IH.
    + rewrite (decide_False (P := p ∈ entries.*2)) by done.
      by rewrite decide_True by apply list_elem_of_here.
    + destruct (decide (p ∈ entries.*2)) as [Hin | Hout].
      * by rewrite decide_True by by apply list_elem_of_further.
      * rewrite decide_False; [done |].
        intros [? | ?]%elem_of_cons; congruence.
Qed.

Lemma stored_targets (c : client) (p : nat) :
  p ∈ (map_to_list (pendingCommands c)).*2
  ↔ ∃ id, pendingCommands c !! id = Some p.
Proof.
  rewrite list_elem_of_fmap. split.
  - intros ([id q] & -> & Hin%elem_of_map_to_list). by exists id.
  - intros [id Hid]. exists (id, p). split; [done |].
    by apply elem_of_map_to_list.
Qed.

Lemma stored_targets_NoDup (c : client) :
  consistent c → NoDup (map_to_list (pendingCommands c)).*2.
Proof.
  intros Hc. apply NoDup_fmap_2_strong; [| apply NoDup_map_to_list].
  intros [id1 p1] [id2 p2] H1%elem_of_map_to_list H2%elem_of_map_to_list.
  cbn. intros <-. f_equal. by apply (one_id_per_promise c Hc id1 id2 p1).
Qed.

Lemma consistent_on_close (c : client) : consistent c → consistent (on_close c).
Proof.
  intros Hc.
  split; unfold on_close; cbn [pendingCommands promises timeouts commandId];
    try done.
  - intros p pr. rewrite reject_all_lookup by (done || by apply stored_targets_NoDup).
    destruct (decide _) as [Hin | Hout].
    + apply stored_targets in Hin as [id Hid].
      destruct (stored_waiting c Hc id p Hid) as (-> & _). cbn.
      intros [= <-]. left. apply settle_pending.
    + intros Hpr. left.
      destruct (settled_or_stored c Hc p pr Hpr) as [? | Hst]; [done |].
      by apply stored_targets in Hst.
  - intros id [[? H] | H]; [done |]. apply (ids_issued c Hc). by right.
  - apply (commandId_positive c Hc).
Qed.

Lemma consistent_on_message (m : option message) (c : client) :
  consistent c → consistent (on_message m c).
Proof.
  intros Hc. unfold on_message. destruct m as [data |]; [| done].
  destruct (is_command_response (type data) && truthy (id data)); [| done].
  destruct (id data) as [| | | n | |]; try done.
  destruct (pendingCommands c !! n) as [p |] eqn:Hn; [| done].
  unfold callback. destruct (truthy (error data));
    by apply consistent_settle; [| | left].
Qed.

Lemma consistent_on_timeout (id : Z) (c : client) :
  consistent c → consistent (on_timeout id c).
Proof.
  intros Hc. unfold on_timeout.
  destruct (timeouts c !! id) as [[p command] |] eqn:Ht; [| done].
  case_bool_decide as Hhas.
  - destruct Hhas as [p' Hp'].
    destruct (stored_waiting c Hc id p' Hp') as (_ & _ & cmd & Hcmd).
    assert (p' = p) as -> by congruence.
    by apply consistent_settle; [| | right].
  - apply eq_None_not_Some in Hhas.
    pose proof Hc as [_ Hs Hinj _ Hpos].
    split; cbn; try done.
    + intros id0 p0 Hid0.
      destruct (stored_waiting c Hc id0 p0 Hid0) as (Hp & _ & cmd & Hcmd).
      split; [done |]. split; [done |]. cbn. exists cmd.
      rewrite lookup_delete_ne; [done |]. congruence.
    + intros id0 [H | H]; apply (ids_issued c Hc); [by left | right].
      rewrite lookup_delete in H. by case_decide.
Qed.

Lemma consistent_step (c : client) (e : event) :
  consistent c → consistent (step c e).
Proof.
  intros Hc. destruct e; cbn [step].
  - by destruct Hc.
  - by apply consistent_sendCommand.
  - by apply consistent_on_message.
  - by apply consistent_on_close.
  - by apply consistent_on_timeout.
Qed.

Lemma consistent_run (es : list event) : consistent (run es).
Proof.
  unfold run. generalize consistent_initial. generalize initial.
  induction es as [| e es IH]; intros c Hc; [done |].
  cbn [foldl]. by apply IH, consistent_step.
Qed.


(** A promise that is settled is not touched by any later event. *)
Lemma settled_stays (c : client) (e : event) (p : nat) (pr : promise) :
  consistent c → promises c !! p = Some pr → settled_once pr →
  promises (step c e) !! p = Some pr.
Proof.
  intros Hc Hp Hset.
  assert (Hother : ∀ id q, pendingCommands c !! id = Some q → q ≠ p).
  { intros id q Hq ->. destruct (stored_waiting c Hc id p Hq) as (Hpend & _).
    rewrite Hp in Hpend. injection Hpend as ->. by apply pending_not_settled. }
  destruct e as [w | command | m | | id]; cbn [step].
  - done.
  - unfold sendCommand.
    destruct (negb (connected c) || negb (bool_decide (is_Some (ws c)))); cbn;
      (rewrite lookup_app_l; [done | by eapply lookup_lt_Some]).
  - unfold on_message. destruct m as [data |]; [| done].
    destruct (is_command_response (type data) && truthy (Client.id data)); [| done].
    destruct (Client.id data) as [| | | n | |]; try done.
    destruct (pendingCommands c !! n) as [q |] eqn:Hn; [| done].
    cbn. unfold callback, settle_at.
    destruct (truthy (error data));
      (rewrite list_lookup_alter_ne; [done | by eapply Hother]).
  - unfold on_close. cbn [promises].
    rewrite reject_all_lookup by (done || by apply stored_targets_NoDup).
    rewrite decide_False; [done |].
    intros [id Hid]%stored_targets. by eapply Hother.
  - unfold on_timeout.
    destruct (timeouts c !! id) as [[q command] |] eqn:Ht; [| done].
    case_bool_decide as Hhas; [| done].
    destruct Hhas as [q' Hq'].
    destruct (stored_waiting c Hc id q' Hq') as (_ & _ & cmd & Hcmd).
    assert (q' = q) as -> by congruence.
    cbn. unfold settle_at. rewrite list_lookup_alter_ne; [done | by eapply Hother].
Qed.

(** C10.  In every state the client can reach, each promise returned by
    [sendCommand] is either waiting (not settled, its callback stored
    under its id, its timeout running) or settled by exactly one call and
    no longer stored, and a settled promise is never touched again.  A
    call made while not connected returns a promise already rejected and
    stores nothing; a call made while connected returns a waiting promise
    under the next id.  A waiting promise is resolved by a response with
    its id and no error, rejected by one with an error, rejected when the
    connection closes (which empties the store), and rejected when its
    timeout fires; each of these deletes its entry. *)
Theorem sendCommand_settles_once (es : list event) :
  let c := run es in
  (∀ p pr, promises c !! p = Some pr →
     ((∃ id, waiting c p id) ∧ pr = pending)
     ∨ (settled_once pr ∧ (∀ id, pendingCommands c !! id ≠ Some p)
        ∧ ∀ e, promises (step c e) !! p = Some pr))
  ∧ (connected c = false ∨ ws c = None →
     ∀ command,
       promises (sendCommand command c).1 !! (sendCommand command c).2
       = Some (Promise (Some (Rejected (JError "Not connected to server"))) 1)
       ∧ pendingCommands (sendCommand command c).1 = pendingCommands c
       ∧ timeouts (sendCommand command c).1 = timeouts c)
  ∧ (connected c = true → is_Some (ws c) →
     ∀ command,
       waiting (sendCommand command c).1 (sendCommand command c).2 (commandId c)
       ∧ sent (sendCommand command c).1
         = (sent c ++ [(commandId c, command)])%list)
  ∧ (∀ p id, waiting c p id →
       (∀ error result,
          let c' := on_message
                      (Some (Message (JStr "command_response") (JNum id)
                               error result)) c in
          promises c' !! p
          = Some (Promise (Some (if truthy error then Rejected error
                                 else Resolved result)) 1)
          ∧ pendingCommands c' !! id = None)
       ∧ (promises (on_close c) !! p
          = Some (Promise (Some (Rejected (JError "Connection closed"))) 1)
          ∧ pendingCommands (on_close c) = ∅)
       ∧ (∃ command,
            promises (on_timeout id c) !! p
            = Some (Promise (Some (Rejected
                                     (JError ("Command timed out: " +:+ command))))
                      1)
            ∧ pendingCommands (on_timeout id c) !! id = None
            ∧ timeouts (on_timeout id c) !! id = None)).
Proof.
  intros c. pose proof (consistent_run es) as Hc. fold c in Hc.
  split; [| split; [| split]].
  - intros p pr Hp.
    destruct (settled_or_stored c Hc p pr Hp) as [Hset | [id Hid]].
    + right. split; [done |]. split.
      * intros id Hid. destruct (stored_waiting c Hc id p Hid) as (Hpend & _).
        rewrite Hp in Hpend. injection Hpend as ->.
        by apply pending_not_settled.
      * intros e. by apply settled_stays.
    + left. pose proof (stored_waiting c Hc id p Hid) as Hw.
      split; [by exists id |]. destruct Hw as (Hpend & _). congruence.
  - intros Hoff command. unfold sendCommand.
    assert (negb (connected c) || negb (bool_decide (is_Some (ws c))) = true)
      as ->.
    { destruct Hoff as [-> | ->]; [done |]. by rewrite orb_true_r. }
    cbn. by rewrite list_lookup_middle.
  - intros Hon Hws command. unfold sendCommand.
    rewrite Hon, (bool_decide_eq_true_2 _ Hws). cbn.
    split; [| done]. split; [| split]; cbn.
    + by rewrite list_lookup_middle.
    + apply lookup_insert_eq.
    + exists command. apply lookup_insert_eq.
  - intros p id (Hpend & Hid & command & Hcmd).
    assert (Hid1 : 1 ≤ id) by (apply (ids_issued c Hc); left; by eexists).
    split; [| split].
    + intros error result. cbn zeta. unfold on_message. cbn.
      assert (negb (id =? 0) = true) as -> by (apply negb_true_iff; lia).
      rewrite Hid. cbn. unfold callback, settle_at.
      destruct (truthy error);
        by rewrite list_lookup_alter_eq, Hpend, lookup_delete_eq.
    + split; [| done]. unfold on_close. cbn [promises].
      rewrite reject_all_lookup by (done || by apply stored_targets_NoDup).
      rewrite decide_True by (apply stored_targets; by exists id).
      by rewrite Hpend.
    + exists command. unfold on_timeout. rewrite Hcmd.
      rewrite bool_decide_eq_true_2 by by eexists. cbn. unfold settle_at.
      by rewrite list_lookup_alter_eq, Hpend, !lookup_delete_eq.
Qed.

(** [sendCommand_settles_once] at a client that sends [ping] before it is
    connected, and at one that is connected, sends [ping] and receives the
    answer. *)
Lemma sendCommand_settles_once_witness :
  promises (sendCommand "ping" (run [])).1 !! 0%nat
  = Some (Promise (Some (Rejected (JError "Not connected to server"))) 1)
  ∧ promises
      (run [Connected WebSocket.fresh; SendCommand "ping";
            Incoming (Some (Message (JStr "command_response") (JNum 1)
                              JUndefined (JStr "pong")))]) !! 0%nat
    = Some (Promise (Some (Resolved (JStr "pong"))) 1).
Proof.
  split.
  - destruct (sendCommand_settles_once []) as (_ & Hoff & _).
    apply (Hoff (or_introl eq_refl) "ping").
  - destruct (sendCommand_settles_once
                [Connected WebSocket.fresh; SendCommand "ping"])
      as (_ & _ & _ & Hout).
    destruct (Hout 0%nat 1) as (Hresponse & _).
    + split; [reflexivity |]. split; [reflexivity |].
      exists "ping". reflexivity.
    + apply (Hresponse JUndefined (JStr "pong")).
Defined.

End Commands.

(** * Further properties of the tunnel engine *)

(** ** Passthrough: what a drained queue looks like on the socket *)

Section Draining.

Import Passthrough.

(** On a socket that accepts every write, a call of [processWriteQueue]
    with the queue [q] writes [q] and then [q] in reverse: each nested
    call writes its chunk, lets the rest of the queue through, and writes
    its chunk again.  It leaves the queue empty and one [setImmediate]
    callback per chunk. *)
Lemma processWriteQueue_accepting (q : list Buffer) :
  ∀ (fuel : nat) (w : list Buffer) (ls : list drain_listener) (n : nat),
    (length q < fuel)%nat →
    processWriteQueue fuel (Session q false w ls n [])
    = Some (Session [] false (w ++ q ++ rev q) ls (n + length q) []).
Proof.
  induction q as [| d q IH]; intros fuel w ls n Hfuel.
  - destruct fuel; [cbn in Hfuel; lia |]. cbn.
    by rewrite app_nil_r, Nat.add_0_r.
  - destruct fuel as [| fuel]; [cbn in Hfuel; lia |].
    cbn [processWriteQueue pendingWrites isWriting].
    unfold socket_write at 1. cbn.
    change (set_isWriting false (Session q true (w ++ [d]) ls n []))
      with (Session q false (w ++ [d]) ls n []).
    rewrite IH by (cbn in Hfuel; lia). cbn.
    unfold setImmediate, set_isWriting. cbn.
    replace (S (n + length q)) with (n + S (length q))%nat by lia.
    do 2 f_equal. by rewrite <- !app_assoc.
Qed.

(** Whatever its size, a queued message is queued as chunks that
    concatenate to it, behind what the queue holds. *)
Lemma enqueue_concat (data : Buffer) (q : list Buffer) :
  ∃ cs, enqueue data q = Some (q ++ cs) ∧ concat cs = data.
Proof.
  unfold enqueue. destruct (blen data >? MAX_BUFFER_SIZE).
  - destruct (chunk_loop_spec (MAX_BUFFER_SIZE / 2) data) with
      (fuel := length data) (i := 0) (q := q) as (cs & Hrun & Hcat & _);
      try done.
    { unfold blen. change (MAX_BUFFER_SIZE / 2) with 524288. lia. }
    by exists cs.
  - exists [data]. split; [done |]. cbn. by rewrite app_nil_r.
Qed.

Lemma length_concat_rev (cs : list Buffer) :
  length (concat (rev cs)) = length (concat cs).
Proof.
  induction cs as [| c cs IH]; [done |].
  cbn. rewrite concat_app, !length_app, IH. cbn. rewrite app_nil_r. lia.
Qed.

Lemma run_processWriteQueue_accepting (q w : list Buffer)
    (ls : list drain_listener) (n : nat) :
  run_processWriteQueue (Session q false w ls n [])
  = Some (Session [] false (w ++ q ++ rev q) ls (n + length q) []).
Proof. apply processWriteQueue_accepting. cbn. lia. Qed.

(** A queue of any length drained from an idle connection whose socket
    accepts every write: the socket is given the chunks of the queue in
    order and then the same chunks in reverse order, so every byte of the
    queue twice; the queue is left empty, the connection idle, and one
    [setImmediate] callback is scheduled per chunk. *)
Theorem drained_queue_written_twice (q w : list Buffer)
    (ls : list drain_listener) (n : nat) :
  ∃ s, run_processWriteQueue (Session q false w ls n []) = Some s
       ∧ pendingWrites s = [] ∧ isWriting s = false
       ∧ written s = w ++ q ++ rev q
       ∧ immediates s = (n + length q)%nat
       ∧ blen (bytes_written s) = blen (concat w) + 2 * blen (concat q).
Proof.
  eexists. split; [apply run_processWriteQueue_accepting |].
  cbn. do 4 (split; [done |]).
  unfold bytes_written, blen. cbn.
  rewrite !concat_app, !length_app, length_concat_rev. lia.
Qed.

(** A relay message of any size, arriving on a connection with an empty
    queue and an accepting socket: the socket is given the message, chunk
    by chunk, followed by the same chunks in reverse order, so twice the
    bytes of the message, of which the first half is the message. *)
Theorem message_then_reversed_chunks (data : Buffer) (w : list Buffer)
    (ls : list drain_listener) (n : nat) :
  ∃ cs s,
    enqueue data [] = Some cs
    ∧ concat cs = data
    ∧ on_message data (Session [] false w ls n []) = Some s
    ∧ pendingWrites s = [] ∧ isWriting s = false
    ∧ written s = w ++ cs ++ rev cs
    ∧ bytes_written s = concat w ++ data ++ concat (rev cs)
    ∧ blen (bytes_written s) = blen (concat w) + 2 * blen data.
Proof.
  destruct (enqueue_concat data []) as (cs & Hrun & Hcat). cbn in Hrun.
  exists cs. eexists. split; [done |]. split; [done |].
  unfold on_message. cbn [pendingWrites]. rewrite Hrun. cbn [mbind option_bind].
  unfold set_pendingWrites. cbn -[run_processWriteQueue].
  rewrite run_processWriteQueue_accepting.
  split; [done |]. cbn. split; [done |]. split; [done |]. split; [done |].
  unfold bytes_written, blen. cbn.
  rewrite !concat_app, Hcat.
  split; [done |]. rewrite !length_app.
  assert (length (concat (rev cs)) = length data) as ->; [| lia].
  rewrite <- Hcat. apply length_concat_rev.
Qed.

Lemma on_drain_total (s : session) : is_Some (on_drain s).
Proof.
  unfold on_drain.
  generalize (Session (pendingWrites s) (isWriting s) (written s) []
                (immediates s) (socketBehaviour s)).
  induction (drainListeners s) as [| l ls IH]; intros s0; [done |].
  cbn [foldl]. cbn [mbind option_bind].
  destruct l; cbn [run_drain_listener].
  - destruct (run_processWriteQueue_total (set_isWriting false s0)) as [s1 ->].
    apply IH.
  - apply IH.
Qed.

Lemma handle_total (e : event) (s : session) : is_Some (handle e s).
Proof.
  destruct e; cbn [handle].
  - apply on_message_total.
  - apply on_drain_total.
  - unfold on_immediate. destruct (immediates s); [done |].
    apply run_processWriteQueue_total.
Qed.

(** Whatever the socket does and in whatever order messages, drain events
    and immediate callbacks arrive, every handler returns: the nested
    calls of [processWriteQueue] are bounded by the length of the queue. *)
Theorem every_event_handled (es : list event) (s : session) :
  is_Some (run es s).
Proof.
  unfold run. revert s. induction es as [| e es IH]; intros s; [done |].
  cbn [foldl]. cbn [mbind option_bind].
  destruct (handle_total e s) as [s' ->]. apply IH.
Qed.

End Draining.

(** ** Retry: every run is bounded *)

Section RetryBounds.

Local Open Scope Z_scope.

Lemma total_app (l k : list Q) :
  (Schedule.total (l ++ k) == Schedule.total l + Schedule.total k)%Q.
Proof.
  induction l as [| d l IH]; cbn.
  - by rewrite Qplus_0_l.
  - rewrite IH. apply Qplus_assoc.
Qed.

Lemma total_nonneg (l : list Q) :
  Forall (fun d => (0 <= d)%Q) l → (0 <= Schedule.total l)%Q.
Proof.
  induction 1 as [| d l Hd _ IH]; cbn; [done |].
  replace 0%Q with (0 + 0)%Q by done. by apply Qplus_le_compat.
Qed.

(** The waits of a run that stops early cost no more than the whole
    schedule. *)
Lemma total_prefix (l full : list Q) :
  l `prefix_of` full → Forall (fun d => (0 <= d)%Q) full →
  (Schedule.total l <= Schedule.total full)%Q.
Proof.
  intros [k ->] [_ Hk]%Forall_app. rewrite total_app.
  rewrite <- (Qplus_0_r (Schedule.total l)) at 1.
  apply Qplus_le_compat; [apply Qle_refl | by apply total_nonneg].
Qed.

Lemma Forall_prefix {A} (P : A → Prop) (l full : list A) :
  l `prefix_of` full → Forall P full → Forall P l.
Proof. by intros [k ->] [? _]%Forall_app. Qed.

Lemma last_after_two {A} (x y o : A) (l : list A) :
  last l = Some o → last (x :: y :: l) = Some o.
Proof. destruct l as [| z l]; [done |]. by intros <-. Qed.

(** The passthrough sender from attempt [r] on, against any relay. *)
Lemma sender_run_shape (relay : Z → SenderRetry.attempt) :
  ∀ (fuel : nat) (r : Z),
    0 ≤ r → r + Z.of_nat fuel = 11 → (1 ≤ fuel)%nat →
    ∃ tr, SenderRetry.connectWithRetry fuel relay r 10 = Some tr
          ∧ SenderRetry.waits tr
            `prefix_of` map SenderRetry.retry_delay (seqZ r (10 - r))
          ∧ SenderRetry.attempts tr = S (length (SenderRetry.waits tr))
          ∧ (last tr = Some SenderRetry.Connected
             ∨ SenderRetry.SocketEnd ∈ tr ∧ r + Z.of_nat (length (SenderRetry.waits tr)) = 10).
Proof.
  induction fuel as [| fuel IH]; intros r Hr Hsum Hpos; [lia |].
  cbn [SenderRetry.connectWithRetry].
  assert (Hstep : r < 10 →
            ∃ tr, (rest ← SenderRetry.connectWithRetry fuel relay (r + 1) 10;
                   Some (SenderRetry.Attempt r
                           :: SenderRetry.Wait (SenderRetry.retry_delay r) :: rest))
                  = Some tr
                  ∧ SenderRetry.waits tr
                    `prefix_of` map SenderRetry.retry_delay (seqZ r (10 - r))
                  ∧ SenderRetry.attempts tr = S (length (SenderRetry.waits tr))
                  ∧ (last tr = Some SenderRetry.Connected
                     ∨ SenderRetry.SocketEnd ∈ tr
                       ∧ r + Z.of_nat (length (SenderRetry.waits tr)) = 10)).
  { intros Hlt.
    destruct (IH (r + 1)) as (tr & -> & Hw & Ha & Hend); [lia | lia | lia |].
    eexists. split; [done |].
    change (SenderRetry.waits (?a :: SenderRetry.Wait ?w :: ?t))
      with (w :: SenderRetry.waits t).
    change (SenderRetry.attempts (SenderRetry.Attempt ?a :: SenderRetry.Wait ?w :: ?t))
      with (S (SenderRetry.attempts t)).
    split; [| split].
    - rewrite (seqZ_cons r) by lia. cbn [map]. apply prefix_cons.
      replace (Z.succ r) with (r + 1) by lia.
      by replace (Z.pred (10 - r)) with (10 - (r + 1)) by lia.
    - by rewrite Ha.
    - destruct Hend as [Hlast | [Hin Hlen]].
      + left. by apply last_after_two.
      + right. split; [rewrite !elem_of_cons; auto |]. cbn [length]. lia. }
  destruct (relay r).
  - eexists. split; [done |]. cbn. split; [apply prefix_nil |]. auto.
  - destruct (Z.ltb_spec r 10) as [Hlt | Hge]; [by apply Hstep |].
    eexists. split; [done |]. cbn. split; [apply prefix_nil |].
    split; [done |]. right. split; [rewrite !elem_of_cons; auto | lia].
  - destruct (Z.ltb_spec r 10) as [Hlt | Hge]; [by apply Hstep |].
    eexists. split; [done |]. cbn. split; [apply prefix_nil |].
    split; [done |]. right. split; [rewrite !elem_of_cons; auto | lia].
Qed.

Lemma sender_schedule_bounds :
  Forall (fun d => (200 <= d)%Q ∧ (d <= 5000)%Q)
    (map SenderRetry.retry_delay (seqZ 0 10)).
Proof. repeat constructor; by vm_compute. Qed.

(** Whatever the relay does, the passthrough sender stops: it makes at
    most eleven attempts, one more than it has waited, and either
    connects or, after ten waits, ends the local socket.  Its waits are
    an initial part of the schedule 200, 750, 1125, ..., each between
    200 ms and 5000 ms, and add up to at most 30090.625 ms. *)
Theorem sender_retry_bounded (relay : Z → SenderRetry.attempt) :
  ∃ tr, SenderRetry.start relay = Some tr
        ∧ SenderRetry.waits tr
          `prefix_of` map SenderRetry.retry_delay (seqZ 0 10)
        ∧ SenderRetry.attempts tr = S (length (SenderRetry.waits tr))
        ∧ (SenderRetry.attempts tr ≤ 11)%nat
        ∧ Forall (fun d => (200 <= d)%Q ∧ (d <= 5000)%Q) (SenderRetry.waits tr)
        ∧ (Schedule.total (SenderRetry.waits tr) <= 30090.625)%Q
        ∧ (last tr = Some SenderRetry.Connected
           ∨ SenderRetry.SocketEnd ∈ tr ∧ length (SenderRetry.waits tr) = 10%nat).
Proof.
  destruct (sender_run_shape relay 11 0) as (tr & Hrun & Hw & Ha & Hend);
    [lia | lia | lia |].
  exists tr. split; [done |]. split; [done |]. split; [done |].
  assert (Hlen : (length (SenderRetry.waits tr) ≤ 10)%nat).
  { apply prefix_length in Hw. by rewrite length_map, length_seqZ in Hw. }
  split; [lia |]. split; [| split].
  - eapply Forall_prefix; [done | apply sender_schedule_bounds].
  - eapply Qle_trans.
    + apply total_prefix; [done |].
      eapply Forall_impl; [apply sender_schedule_bounds |].
      intros d [Hd _]. by apply (Qle_trans _ 200).
    + by vm_compute.
  - destruct Hend as [? | [? ?]]; [by left | right]. split; [done | lia].
Qed.

(** The command client's loop from attempt [r] with delay [d], against
    any relay. *)
Lemma client_run_shape (relay : Z → ClientRetry.attempt) :
  ∀ (fuel : nat) (r : Z) (d : Q),
    0 ≤ r → r + Z.of_nat fuel = 10 → (1 ≤ fuel)%nat →
    ∃ tr, ClientRetry.retry_loop fuel relay r d = Some tr
          ∧ ClientRetry.waits tr
            `prefix_of` map (fun j => Nat.iter j ClientRetry.next_delay d)
                          (seq 0 (fuel - 1))
          ∧ ClientRetry.attempts tr = S (length (ClientRetry.waits tr))
          ∧ (last tr = Some ClientRetry.Resolve
             ∨ last tr = Some ClientRetry.Reject
             ∨ last tr = Some ClientRetry.ThrowFailedToConnect
               ∧ length (ClientRetry.waits tr) = (fuel - 1)%nat).
Proof.
  induction fuel as [| fuel IH]; intros r d Hr Hsum Hpos; [lia |].
  cbn [ClientRetry.retry_loop].
  destruct (Z.ltb_spec r ClientRetry.maxRetryCount) as [_ | Hge];
    [| unfold ClientRetry.maxRetryCount in Hge; lia].
  destruct (relay r).
  - destruct (Z.geb_spec r (ClientRetry.maxRetryCount - 1)) as [Hlast | Hmore];
      unfold ClientRetry.maxRetryCount in *.
    + assert (fuel = 0%nat) as -> by lia.
      eexists. split; [done |]. cbn. split; [apply prefix_nil |]. auto.
    + destruct (IH (r + 1) (ClientRetry.next_delay d))
        as (tr & -> & Hw & Ha & Hend); [lia | lia | lia |].
      eexists. split; [done |].
      change (ClientRetry.waits (?a :: ClientRetry.Wait ?w :: ?t))
        with (w :: ClientRetry.waits t).
      change (ClientRetry.attempts
                (ClientRetry.Attempt ?a :: ClientRetry.Wait ?w :: ?t))
        with (S (ClientRetry.attempts t)).
      split; [| split].
      * replace (S fuel - 1)%nat with (S (fuel - 1)) by lia.
        cbn [seq map]. apply prefix_cons.
        rewrite <- seq_shift, map_map.
        erewrite map_ext; [done |]. intros j. cbn beta.
        by rewrite Nat.iter_succ_r.
      * by rewrite Ha.
      * destruct Hend as [Hl | [Hl | [Hl Hlen]]].
        -- left. by apply last_after_two.
        -- right; left. by apply last_after_two.
        -- right; right. split; [by apply last_after_two |].
           cbn [length]. lia.
  - eexists. split; [done |]. cbn. split; [apply prefix_nil |]. auto.
  - eexists. split; [done |]. cbn. split; [apply prefix_nil |]. auto.
Qed.

Lemma client_schedule_bounds :
  Forall (fun d => (200 <= d)%Q ∧ (d <= 5000)%Q)
    (map ClientRetry.spec_delay (seq 1 9)).
Proof. repeat constructor; by vm_compute. Qed.

(** Whatever the connectivity test and the relay do, [connectWithRetry]
    of the command client completes: it makes at most ten attempts, one
    more than it has waited; it ends by resolving, by rejecting, or,
    after nine waits, by throwing, and never by leaving the loop with no
    value.  Its waits are an initial part of the schedule 200, 300, 450,
    ..., each between 200 ms and 5000 ms, and add up to at most
    14851.5625 ms. *)
Theorem client_retry_bounded (relay : Z → ClientRetry.attempt) :
  ∃ tr, ClientRetry.connectWithRetry relay = Some tr
        ∧ ClientRetry.waits tr `prefix_of` map ClientRetry.spec_delay (seq 1 9)
        ∧ ClientRetry.attempts tr = S (length (ClientRetry.waits tr))
        ∧ (ClientRetry.attempts tr ≤ 10)%nat
        ∧ Forall (fun d => (200 <= d)%Q ∧ (d <= 5000)%Q) (ClientRetry.waits tr)
        ∧ (Schedule.total (ClientRetry.waits tr) <= 14851.5625)%Q
        ∧ (last tr = Some ClientRetry.Resolve
           ∨ last tr = Some ClientRetry.Reject
           ∨ last tr = Some ClientRetry.ThrowFailedToConnect
             ∧ length (ClientRetry.waits tr) = 9%nat).
Proof.
  destruct (client_run_shape relay 10 0 ClientRetry.initialRetryDelay)
    as (tr & Hrun & Hw & Ha & Hend); [lia | lia | lia |].
  change (map _ (seq 0 (10 - 1))) with (map ClientRetry.spec_delay (seq 1 9))
    in Hw.
  exists tr. split; [done |]. split; [done |]. split; [done |].
  assert (Hlen : (length (ClientRetry.waits tr) ≤ 9)%nat).
  { apply prefix_length in Hw. by rewrite length_map, length_seq in Hw. }
  split; [lia |]. split; [| split; [| done]].
  - eapply Forall_prefix; [done | apply client_schedule_bounds].
  - eapply Qle_trans.
    + apply total_prefix; [done |].
      eapply Forall_impl; [apply client_schedule_bounds |].
      intros d [Hd _]. by apply (Qle_trans _ 200).
    + by vm_compute.
Qed.

End RetryBounds.

(** ** Splitting text into lines and pieces *)

Section Splitting.

Import GiteaListener.
Local Open Scope string_scope.

Lemma append_cons (c : Ascii.ascii) (a b : string) :
  String c a +:+ b = String c (a +:+ b).
Proof. reflexivity. Qed.

Lemma append_empty_l (b : string) : "" +:+ b = b.
Proof. reflexivity. Qed.

Lemma append_empty_r (s : string) : s +:+ "" = s.
Proof. induction s as [| c s IH]; [done |]. by rewrite append_cons, IH. Qed.

Lemma append_assoc (a b c : string) : (a +:+ b) +:+ c = a +:+ (b +:+ c).
Proof.
  induction a as [| x a IH]; [done |]. by rewrite !append_cons, IH.
Qed.

Lemma length_append (a b : string) :
  String.length (a +:+ b) = (String.length a + String.length b)%nat.
Proof.
  induction a as [| x a IH]; [done |]. rewrite append_cons. cbn. by rewrite IH.
Qed.

Lemma prefix_append (sep b : string) : String.prefix sep (sep +:+ b) = true.
Proof.
  induction sep as [| c sep IH]; [by destruct b |]. rewrite append_cons. cbn.
  by destruct (Ascii.ascii_dec c c).
Qed.

Lemma prefix_other (c0 c : Ascii.ascii) (sep' s : string) :
  Ascii.eqb c0 c = false → String.prefix (String c0 sep') (String c s) = false.
Proof.
  intros Hc. cbn. destruct (Ascii.ascii_dec c0 c) as [-> | _]; [| done].
  by rewrite Ascii.eqb_refl in Hc.
Qed.

Lemma lacks_append (c : Ascii.ascii) (a b : string) :
  Text.lacks c (a +:+ b) = Text.lacks c a && Text.lacks c b.
Proof.
  induction a as [| x a IH]; [done |]. rewrite append_cons. cbn.
  rewrite IH. by rewrite andb_assoc.
Qed.

(** The rest of a separator found is dropped. *)
Lemma split_go_skip (sep x : string) :
  ∀ piece b, split_go sep (String.length x) piece (x +:+ b) = split_go sep 0 piece b.
Proof.
  induction x as [| c x IH]; intros piece b; [done |].
  rewrite append_cons. cbn. apply IH.
Qed.

(** A piece that lacks the first character of the separator ends at the
    separator that follows it. *)
Lemma split_go_piece (c0 : Ascii.ascii) (sep' a : string) :
  ∀ piece b,
    Text.lacks c0 a = true →
    split_go (String c0 sep') 0 piece (a +:+ String c0 sep' +:+ b)
    = (piece +:+ a) :: split_go (String c0 sep') 0 "" b.
Proof.
  induction a as [| c a IH]; intros piece b Ha.
  - rewrite append_empty_l, append_empty_r.
    rewrite append_cons at 1. cbn [split_go].
    rewrite <- append_cons, prefix_append.
    replace (String.length (String c0 sep') - 1)%nat with (String.length sep')
      by (cbn; lia).
    f_equal. apply split_go_skip.
  - cbn in Ha. apply andb_true_iff in Ha as [Hc Ha].
    apply negb_true_iff in Hc.
    rewrite append_cons. cbn [split_go]. rewrite (prefix_other c0 c) by done.
    rewrite IH by done. by rewrite append_assoc.
Qed.

(** A text that lacks the first character of the separator is one
    piece. *)
Lemma split_go_whole (c0 : Ascii.ascii) (sep' a : string) :
  ∀ piece, Text.lacks c0 a = true →
           split_go (String c0 sep') 0 piece a = [piece +:+ a].
Proof.
  induction a as [| c a IH]; intros piece Ha.
  - by rewrite append_empty_r.
  - cbn in Ha. apply andb_true_iff in Ha as [Hc Ha].
    apply negb_true_iff in Hc.
    cbn [split_go]. rewrite (prefix_other c0 c) by done.
    rewrite IH by done. by rewrite append_assoc.
Qed.

(** A text in which the separator does not occur is one piece. *)
Lemma split_go_absent (sep a : string) :
  ∀ piece, includes a sep = false → split_go sep 0 piece a = [piece +:+ a].
Proof.
  induction a as [| c a IH]; intros piece Ha.
  - by rewrite append_empty_r.
  - cbn [includes] in Ha. apply orb_false_iff in Ha as [Hp Ha].
    cbn [split_go]. rewrite Hp, IH by done. by rewrite append_assoc.
Qed.

(** Lines without carriage return, each followed by the line break, are
    read back as they are. *)
Lemma split_terminated (lines : list string) (rest : string) :
  Forall (fun l => Text.lacks Text.CR l = true) lines →
  split (Text.terminated CRLF lines rest) CRLF
  = (lines ++ split rest CRLF)%list.
Proof.
  induction 1 as [| l lines Hl _ IH]; [done |].
  cbn [Text.terminated foldr]. fold (Text.terminated CRLF lines rest).
  unfold split at 1.
  pose proof (split_go_piece Text.CR (String (Ascii.ascii_of_nat 10) "") l ""
                (Text.terminated CRLF lines rest) Hl) as Hp.
  change (String Text.CR (String _ "")) with CRLF in Hp.
  rewrite Hp, append_empty_l. cbn [app]. f_equal. apply IH.
Qed.

Lemma join_terminated (sep : string) (lines : list string) :
  Text.join sep (lines ++ [""])%list = Text.terminated sep lines "".
Proof.
  induction lines as [| l lines IH]; [done |].
  cbn [app Text.join Text.terminated foldr]. fold (Text.terminated sep lines "").
  rewrite <- IH. by destruct lines.
Qed.

Lemma terminated_app (sep : string) (l1 l2 : list string) (rest : string) :
  Text.terminated sep (l1 ++ l2)%list rest
  = Text.terminated sep l1 (Text.terminated sep l2 rest).
Proof. unfold Text.terminated. by rewrite foldr_app. Qed.

Lemma terminated_append (sep : string) (lines : list string) (r1 r2 : string) :
  Text.terminated sep lines r1 +:+ r2 = Text.terminated sep lines (r1 +:+ r2).
Proof.
  induction lines as [| l lines IH]; [done |].
  cbn [Text.terminated foldr]. fold (Text.terminated sep lines r1).
  fold (Text.terminated sep lines (r1 +:+ r2)).
  by rewrite !append_assoc, IH.
Qed.

End Splitting.

(** ** Gitea listener: a well-formed request is read back *)

Section ReadBack.

Import GiteaListener GiteaForward.
Local Open Scope string_scope.

Lemma truthy_nonempty (s : string) : truthy (Some s) = true → s ≠ "".
Proof. by destruct s. Qed.

Lemma header_line_entry (kv : string * string) :
  plain_header kv = true →
  header_entry (header_line kv) = Some kv
  ∧ truthy (Some (header_line kv)) = true
  ∧ Text.lacks Text.CR (header_line kv) = true.
Proof.
  destruct kv as [k v]. unfold plain_header, header_line. cbn [fst snd].
  rewrite !andb_true_iff, negb_true_iff.
  intros [[[[[Hk Hv] Hcolon] Hsep] Hkcr] Hvcr].
  assert (Hsplit : split (k +:+ ": " +:+ v) ": " = [k; v]).
  { unfold split.
    pose proof (split_go_piece Text.COLON " " k "" v Hcolon) as Hp.
    change (String Text.COLON " ") with ": " in Hp.
    rewrite Hp, append_empty_l. f_equal.
    by rewrite split_go_absent, append_empty_l. }
  split; [| split].
  - unfold header_entry. rewrite Hsplit.
    change ([k; v] !! 0%nat) with (Some k).
    change ([k; v] !! 1%nat) with (Some v).
    by rewrite Hk, Hv.
  - destruct k; [done |]. by rewrite append_cons.
  - by rewrite !lacks_append, Hkcr, Hvcr.
Qed.

Lemma until_blank_headers (hs : list (string * string)) (rest : list string) :
  Forall (fun kv => plain_header kv = true) hs →
  until_blank (map header_line hs ++ "" :: rest)%list = map header_line hs
  ∧ omap header_entry (map header_line hs) = hs.
Proof.
  induction 1 as [| kv hs Hkv _ [IH1 IH2]]; [done |].
  destruct (header_line_entry kv Hkv) as (Hentry & Htruthy & _).
  cbn [map app until_blank omap list_omap].
  rewrite Htruthy, Hentry. fold (omap header_entry (map header_line hs)).
  by rewrite IH1, IH2.
Qed.

(** A request written as request line, header lines, empty line and
    body is read back: the method and the path are those of the request
    line, and the headers are those written, a later one replacing an
    earlier one of the same name.  The body may hold anything; the
    parser does not look past the empty line. *)
Theorem well_formed_request_read_back (m p v : string)
    (hs : list (string * string)) (body : string) :
  plain_token m = true → plain_token p = true →
  Text.lacks Text.CR v = true →
  Forall (fun kv => plain_header kv = true) hs →
  parse (request_text m p v hs body)
  = HttpRequest m p (foldl (fun h e => assign e.1 e.2 h) ∅ hs)
  ∧ ∀ k, k ≠ "__proto__" →
         headers (parse (request_text m p v hs body)) !! k
         = snd <$> last (filter (fun e => e.1 = k) hs).
Proof.
  unfold plain_token. rewrite !andb_true_iff.
  intros [[Hm Hmsp] Hmcr] [[Hp Hpsp] Hpcr] Hvcr Hhs.
  set (reqline := m +:+ " " +:+ p +:+ " " +:+ v).
  assert (Hlines : split (request_text m p v hs body) CRLF
                   = (reqline :: map header_line hs
                      ++ "" :: split body CRLF)%list).
  { unfold request_text. fold reqline.
    replace (CRLF +:+ body) with (Text.terminated CRLF [""] body) by done.
    rewrite <- terminated_app, split_terminated.
    - by rewrite <- app_assoc.
    - apply Forall_app. split; [| by repeat constructor].
      constructor.
      + unfold reqline. by rewrite !lacks_append, Hmcr, Hpcr, Hvcr.
      + apply Forall_forall. intros l [kv [-> Hin]]%list_elem_of_fmap.
        rewrite Forall_forall in Hhs.
        by apply header_line_entry, Hhs. }
  assert (Hparts : ∃ rest, split reqline " " = m :: p :: rest).
  { unfold split, reqline.
    pose proof (split_go_piece Text.SPACE "" m "" (p +:+ " " +:+ v) Hmsp) as H1.
    pose proof (split_go_piece Text.SPACE "" p "" v Hpsp) as H2.
    change (String Text.SPACE "") with " " in H1, H2.
    rewrite H1, H2, !append_empty_l. by eexists. }
  destruct Hparts as [rest Hparts].
  assert (Hparse : parse (request_text m p v hs body)
                   = HttpRequest m p (foldl (fun h e => assign e.1 e.2 h) ∅ hs)).
  { unfold parse, try_parse. rewrite Hlines. cbn [lookup list_lookup].
    cbn [mbind option_bind]. rewrite Hparts. cbn [lookup list_lookup drop].
    rewrite !or_else_keep by done.
    rewrite header_loop_fold, drop_0.
    destruct (until_blank_headers hs (split body CRLF) Hhs) as [-> ->].
    done. }
  split; [done |]. intros k Hk. rewrite Hparse. cbn [headers].
  rewrite assign_last by done. by destruct (last _).
Qed.

(** [well_formed_request_read_back] at a request with two hosts and a
    body that itself contains an empty line. *)
Lemma well_formed_request_read_back_witness :
  parse (request_text "POST" "/api" "HTTP/1.1"
           [("Host", "a"); ("Accept", "*/*"); ("Host", "b")]
           ("x" +:+ CRLF +:+ CRLF +:+ "Host: c"))
  = HttpRequest "POST" "/api" {[ "Host" := "b"; "Accept" := "*/*" ]}.
Proof.
  destruct (well_formed_request_read_back "POST" "/api" "HTTP/1.1"
              [("Host", "a"); ("Accept", "*/*"); ("Host", "b")]
              ("x" +:+ CRLF +:+ CRLF +:+ "Host: c")) as [Hparse _].
  - reflexivity.
  - reflexivity.
  - reflexivity.
  - repeat constructor.
  - rewrite Hparse. reflexivity.
Defined.

End ReadBack.

(** ** Gitea listener: the response sent back *)

Section ResponseFraming.

Import GiteaListener GiteaForward.
Local Open Scope string_scope.

Lemma digit_not_CR (d : N) : Ascii.eqb Text.CR (pretty_N_char d) = false.
Proof. unfold pretty_N_char. by repeat case_match. Qed.

Lemma pretty_N_go_lacks_CR (x : N) :
  ∀ s, Text.lacks Text.CR s = true → Text.lacks Text.CR (pretty_N_go x s) = true.
Proof.
  induction (N.lt_wf_0 x) as [x _ IH]; intros s Hs.
  assert (x = 0 ∨ 0 < x)%N as [-> | Hpos] by lia.
  - by rewrite pretty_N_go_0.
  - rewrite pretty_N_go_step by done. apply IH.
    + by apply N.div_lt.
    + cbn. by rewrite digit_not_CR, Hs.
Qed.

(** A number is written without carriage return. *)
Lemma pretty_lacks_CR (n : Z) : Text.lacks Text.CR (pretty n) = true.
Proof.
  assert (HN : ∀ x : N, Text.lacks Text.CR (pretty x) = true).
  { intros x. unfold pretty, pretty_N. case_decide; [done |].
    by apply pretty_N_go_lacks_CR. }
  destruct n as [| x | x]; [done | apply HN |].
  unfold pretty, pretty_Z. rewrite lacks_append. cbn.
  apply (HN (N.pos x)).
Qed.

Lemma concat_cons (c : string) (cs : list string) :
  String.concat "" (c :: cs) = c +:+ String.concat "" cs.
Proof. destruct cs; [by rewrite append_empty_r | done]. Qed.

Lemma length_body (cs : list string) (n : nat) :
  foldl (fun n chunk => n + String.length chunk)%nat n cs
  = (n + String.length (String.concat "" cs))%nat.
Proof.
  revert n. induction cs as [| c cs IH]; intros n; [cbn; lia |].
  cbn [foldl]. rewrite IH, concat_cons, length_append. lia.
Qed.

(** The response message is the header block followed by the body: the
    lines of the header block are the status line, one line per header of
    the target except [connection] and [transfer-encoding] in any letter
    case, and the cache line for a static asset; none of them is empty,
    and an empty line follows them.  When the status message and the
    headers kept hold no carriage return, splitting the message at line
    breaks gives these lines back, the empty line, and then the lines of
    the body, whatever the body holds.  [totalSize] is the length of the
    message. *)
Theorem response_framing (path : string) (res : response) :
  Text.lacks Text.CR (statusMessage res) = true →
  Forall (fun kv => Text.lacks Text.CR kv.1 && Text.lacks Text.CR kv.2 = true)
    (kept res) →
  fullResponse path res
  = Text.terminated CRLF (head_lines path res) (CRLF +:+ body res)
  ∧ split (fullResponse path res) CRLF
    = (head_lines path res ++ "" :: split (body res) CRLF)%list
  ∧ Forall (fun l => l ≠ "") (head_lines path res)
  ∧ (∀ kv, kv ∈ res_headers res →
           Text.list_includes dropped (Text.toLowerCase kv.1) = true →
           kv ∉ kept res)
  ∧ String.length (fullResponse path res) = totalSize path res.
Proof.
  intros Hmsg Hkept.
  assert (Hfull : fullResponse path res
                  = Text.terminated CRLF (head_lines path res) (CRLF +:+ body res)).
  { unfold fullResponse, headerBuffer, headerLines.
    change [""; ""] with ([""] ++ [""])%list.
    rewrite app_assoc, join_terminated, terminated_append, terminated_app.
    by rewrite append_empty_l. }
  split; [done |]. split; [| split; [| split]].
  - rewrite Hfull.
    replace (CRLF +:+ body res) with (Text.terminated CRLF [""] (body res))
      by done.
    rewrite <- terminated_app, split_terminated; [by rewrite <- app_assoc |].
    apply Forall_app. split; [| by repeat constructor].
    unfold head_lines. constructor; [| apply Forall_app; split].
    + unfold status_line.
      by rewrite !lacks_append, pretty_lacks_CR, Hmsg.
    + apply Forall_forall. intros l [kv [-> Hin]]%list_elem_of_fmap.
      rewrite Forall_forall in Hkept. specialize (Hkept kv Hin).
      apply andb_true_iff in Hkept as [Hk Hv].
      unfold header_line. by rewrite !lacks_append, Hk, Hv.
    + destruct (isStaticAsset path); by repeat constructor.
  - unfold head_lines. constructor; [done |]. apply Forall_app. split.
    + apply Forall_forall. intros l [[k v] [-> Hin]]%list_elem_of_fmap.
      unfold header_line. cbn [fst snd]. by destruct k.
    + destruct (isStaticAsset path); by repeat constructor.
  - intros kv _ Hdrop Hin. unfold kept in Hin.
    apply list_elem_of_In, filter_In in Hin as [_ Hin].
    by rewrite Hdrop in Hin.
  - unfold totalSize, fullResponse, body.
    by rewrite length_body, length_append.
Qed.

(** [response_framing] at a 404 with a connection header and a body of
    two lines. *)
Lemma response_framing_witness :
  split (fullResponse "/x"
           (Response 404 "Not Found"
              [("content-type", "text/plain"); ("Connection", "close")]
              ["no"; CRLF; "thing"])) CRLF
  = ["HTTP/1.1 404 Not Found"; "content-type: text/plain"; ""; "no"; "thing"].
Proof.
  destruct (response_framing "/x"
              (Response 404 "Not Found"
                 [("content-type", "text/plain"); ("Connection", "close")]
                 ["no"; CRLF; "thing"])) as (_ & Hsplit & _).
  - reflexivity.
  - repeat constructor.
  - rewrite Hsplit. reflexivity.
Defined.

Lemma prefix_refl (s : string) : String.prefix s s = true.
Proof.
  induction s as [| c s IH]; [done |]. cbn.
  by destruct (Ascii.ascii_dec c c).
Qed.

(** A text includes what it ends with. *)
Lemma endsWith_includes (s suffix : string) :
  endsWith s suffix = true → includes s suffix = true.
Proof.
  induction s as [| c s IH]; cbn [endsWith includes].
  - rewrite orb_false_r. by intros <-%String.eqb_eq.
  - intros [<-%String.eqb_eq | Hrest]%orb_true_iff.
    + by rewrite prefix_refl.
    + by rewrite (IH Hrest), orb_true_r.
Qed.

(** When the response has ended it is sent if, and only if, the channel
    is open, and it is sent whole.  Every response after which the send
    callback closes the channel, at once or through its timer, carries
    the cache line: the paths the close policy acts on are static
    assets. *)
Theorem closing_response_cached (path : string) (res : response)
    (ws : WebSocket.t) :
  (WebSocket.isOpen ws = false → on_end path res ws = (None, ws, []))
  ∧ (WebSocket.isOpen ws = true →
     (on_end path res ws).1.1 = Some (fullResponse path res)
     ∧ ((on_end path res ws).1.2 ≠ ws ∨ (on_end path res ws).2 ≠ [] →
        isStaticAsset path = true
        ∧ "Cache-Control: public, max-age=86400" ∈ head_lines path res)).
Proof.
  unfold on_end. split; [by intros -> |]. intros Hopen. rewrite Hopen.
  destruct (send_callback None path ws) as [ws' timers] eqn:Hsend.
  cbn [fst snd]. split; [done |]. intros Hclosing.
  assert (Hstatic : isStaticAsset path = true).
  { unfold send_callback in Hsend.
    destruct (isJsFile path) eqn:Hjs.
    - apply existsb_exists. exists "js". split; [cbn; auto |].
      by apply (endsWith_includes path ".js").
    - destruct (isCssFile path) eqn:Hcss.
      + apply existsb_exists. exists "css". split; [cbn; auto |].
        by apply (endsWith_includes path ".css").
      + unfold isCoreJsFile in Hsend. rewrite Hjs in Hsend. cbn in Hsend.
        injection Hsend as <- <-. by destruct Hclosing. }
  split; [done |]. unfold head_lines. rewrite Hstatic.
  rewrite elem_of_cons, elem_of_app. right; right. by apply list_elem_of_singleton.
Qed.

(** [closing_response_cached] at a style sheet sent on an open channel
    and at a page sent on a closed one. *)
Lemma closing_response_cached_witness :
  isStaticAsset "/css/site.css" = true
  ∧ on_end "/index" (Response 200 "OK" [] ["hi"]) Examples.closing_channel
    = (None, Examples.closing_channel, []).
Proof.
  split.
  - destruct (closing_response_cached "/css/site.css" (Response 200 "OK" [] [])
                WebSocket.fresh) as [_ Hopen].
    destruct Hopen as [_ Hclose]; [reflexivity |].
    apply Hclose. right. discriminate.
  - destruct (closing_response_cached "/index" (Response 200 "OK" [] ["hi"])
                Examples.closing_channel) as [Hclosed _].
    apply Hclosed. reflexivity.
Defined.

End ResponseFraming.

(** ** Gitea listener: the headers of the request sent on *)

Section RequestHeaders.

Import GiteaListener GiteaForward.
Local Open Scope string_scope.

Lemma fixed_lookup (host : string) (h : gmap string string) (k : string) :
  fixed_headers host h !! k
  = if decide (k = "Host") then Some host
    else if decide (k = "X-Real-IP") then Some (client_ip h)
    else if decide (k = "X-Forwarded-For") then Some (client_ip h)
    else if decide (k = "X-Forwarded-Proto") then Some "https"
    else if decide (k = "X-Forwarded-Host")
         then Some (or_else (h !! "host") host)
    else None.
Proof.
  unfold fixed_headers. cbn [list_to_map foldr fst snd].
  rewrite !lookup_insert, lookup_empty.
  repeat case_decide; by subst.
Qed.

Lemma passed_lookup (h : gmap string string) (k : string) :
  passed_through h !! k
  = if Text.list_includes replaced (Text.toLowerCase k) then None else h !! k.
Proof.
  unfold passed_through.
  destruct (Text.list_includes replaced (Text.toLowerCase k)) eqn:Hk.
  - apply map_lookup_filter_None. right. intros v _. cbn. by rewrite Hk.
  - destruct (h !! k) as [v |] eqn:Hv.
    + by apply map_lookup_filter_Some.
    + apply map_lookup_filter_None. by left.
Qed.

(** The headers of the request sent to the target.  [Host] is always
    the target host, and [X-Real-IP] and [X-Forwarded-For] always hold
    the same address: the incoming [x-forwarded-for], else the incoming
    [x-real-ip] (both looked up by these lower-case names), else
    127.0.0.1.  No incoming header whose name is [host],
    [x-forwarded-for] or [x-real-ip] in any letter case is passed on;
    every other incoming header is passed on unchanged, also when it
    takes the place of [X-Forwarded-Proto] or [X-Forwarded-Host]; and
    nothing else is added. *)
Theorem forwarded_headers (host : string) (h : gmap string string) :
  let out := request_headers host h in
  out !! "Host" = Some host
  ∧ out !! "X-Real-IP" = Some (client_ip h)
  ∧ out !! "X-Forwarded-For" = Some (client_ip h)
  ∧ (∀ k, Text.list_includes replaced (Text.toLowerCase k) = true →
          out !! k = fixed_headers host h !! k
          ∧ (is_Some (out !! k) →
             k = "Host" ∨ k = "X-Real-IP" ∨ k = "X-Forwarded-For"))
  ∧ (∀ k v, Text.list_includes replaced (Text.toLowerCase k) = false →
            h !! k = Some v → out !! k = Some v)
  ∧ (∀ k, Text.list_includes replaced (Text.toLowerCase k) = false →
          h !! k = None → out !! k = fixed_headers host h !! k).
Proof.
  assert (Hout : ∀ k, request_headers host h !! k
                      = if Text.list_includes replaced (Text.toLowerCase k)
                        then fixed_headers host h !! k
                        else match h !! k with
                             | Some v => Some v
                             | None => fixed_headers host h !! k
                             end).
  { intros k. unfold request_headers. rewrite lookup_union, passed_lookup.
    destruct (Text.list_includes replaced (Text.toLowerCase k)).
    - by destruct (fixed_headers host h !! k).
    - destruct (h !! k) as [v |]; by destruct (fixed_headers host h !! k). }
  cbn zeta. split; [| split; [| split; [| split; [| split]]]].
  - by rewrite Hout, fixed_lookup.
  - by rewrite Hout, fixed_lookup.
  - by rewrite Hout, fixed_lookup.
  - intros k Hk. rewrite Hout, Hk. split; [done |].
    rewrite fixed_lookup. intros Hsome.
    repeat case_decide; subst; auto; try done.
  - intros k v Hk Hv. by rewrite Hout, Hk, Hv.
  - intros k Hk Hv. by rewrite Hout, Hk, Hv.
Qed.

(** [forwarded_headers] at a request that carries [Host],
    [X-Forwarded-Proto] and [x-real-ip]. *)
Lemma forwarded_headers_witness :
  request_headers "gitea.internal"
    {[ "Host" := "public.example"; "X-Forwarded-Proto" := "http";
       "x-real-ip" := "10.0.0.7" ]} !! "Host" = Some "gitea.internal"
  ∧ request_headers "gitea.internal"
      {[ "Host" := "public.example"; "X-Forwarded-Proto" := "http";
         "x-real-ip" := "10.0.0.7" ]} !! "X-Forwarded-Proto" = Some "http"
  ∧ request_headers "gitea.internal"
      {[ "Host" := "public.example"; "X-Forwarded-Proto" := "http";
         "x-real-ip" := "10.0.0.7" ]} !! "X-Real-IP" = Some "10.0.0.7".
Proof.
  destruct (forwarded_headers "gitea.internal"
              {[ "Host" := "public.example"; "X-Forwarded-Proto" := "http";
                 "x-real-ip" := "10.0.0.7" ]})
    as (Hhost & Hip & _ & _ & Hpass & _).
  split; [exact Hhost |]. split; [apply Hpass; reflexivity |].
  rewrite Hip. reflexivity.
Defined.

End RequestHeaders.

(** ** Gitea listener: ids, heartbeat and close policy over time *)

Section ListenerLife.

Import GiteaListener GiteaLifecycle.

Lemma step_counter (l : listener) (e : event) :
  connectionCounter (step l e)
  = connectionCounter l + (if is_accepted e then 1 else 0).
Proof. destruct e; cbn; lia. Qed.

Lemma step_lookup_Some (l : listener) (e : event) (id : Z) :
  is_Some (activeConnections (step l e) !! id) →
  is_Some (activeConnections l !! id)
  ∨ (is_accepted e = true ∧ id = connectionCounter l + 1).
Proof.
  destruct e; cbn.
  - destruct (decide (id = connectionCounter l + 1)) as [-> | Hne].
    + intros _. right. split; reflexivity.
    + rewrite !lookup_insert_ne by done. intros ?. by left.
  - rewrite lookup_omap. destruct (activeConnections l !! id); [intros ?; by left |].
    cbn. by intros [? ?].
  - destruct (decide (connectionId = id)) as [-> | Hne].
    + rewrite lookup_delete_eq. by intros [? ?].
    + rewrite lookup_delete_ne by done. intros ?. by left.
  - destruct (decide (connectionId = id)) as [-> | Hne].
    + rewrite lookup_delete_eq. by intros [? ?].
    + rewrite lookup_delete_ne by done. intros ?. by left.
  - rewrite lookup_alter. destruct (decide _) as [<- | ?]; [| intros ?; by left].
    rewrite fmap_is_Some. intros ?. by left.
  - rewrite lookup_alter. destruct (decide _) as [<- | ?]; [| intros ?; by left].
    rewrite fmap_is_Some. intros ?. by left.
  - rewrite lookup_alter. destruct (decide _) as [<- | ?]; [| intros ?; by left].
    rewrite fmap_is_Some. intros ?. by left.
Qed.

Lemma step_ids_issued (l : listener) (e : event) :
  ids_issued l → ids_issued (step l e).
Proof.
  intros [H0 Hin]. split.
  - rewrite step_counter. destruct (is_accepted e); lia.
  - intros id [Hold | [Hacc ->]]%step_lookup_Some; rewrite step_counter.
    + apply Hin in Hold. destruct (is_accepted e); lia.
    + rewrite Hacc. lia.
Qed.

Lemma step_lookup_None (l : listener) (e : event) (id : Z) :
  id ≤ connectionCounter l →
  activeConnections l !! id = None →
  activeConnections (step l e) !! id = None.
Proof.
  intros Hle Hnone.
  destruct (activeConnections (step l e) !! id) eqn:Hs; [| done].
  destruct (step_lookup_Some l e id) as [Hold | [_ ->]]; [by rewrite Hs | |].
  - rewrite Hnone in Hold. by destruct Hold.
  - lia.
Qed.

Lemma foldl_ids_issued (es : list event) (l : listener) :
  ids_issued l → ids_issued (foldl step l es).
Proof.
  revert l. induction es as [| e es IH]; intros l Hl; [done |].
  cbn. apply IH. by apply step_ids_issued.
Qed.

Lemma foldl_counter (es : list event) (l : listener) :
  connectionCounter (foldl step l es) = connectionCounter l + accepted es.
Proof.
  revert l. induction es as [| e es IH]; intros l.
  - cbn. unfold accepted. cbn. lia.
  - cbn [foldl]. rewrite IH, step_counter. unfold accepted. cbn.
    destruct (is_accepted e); cbn [length]; lia.
Qed.

Lemma foldl_lookup_None (es : list event) (l : listener) (id : Z) :
  id ≤ connectionCounter l →
  activeConnections l !! id = None →
  activeConnections (foldl step l es) !! id = None.
Proof.
  revert l. induction es as [| e es IH]; intros l Hle Hnone; [done |].
  cbn. apply IH.
  - rewrite step_counter. destruct (is_accepted e); lia.
  - by apply step_lookup_None.
Qed.

Lemma registry_size (l : listener) :
  ids_issued l → Z.of_nat (size (activeConnections l)) ≤ connectionCounter l.
Proof.
  intros [H0 Hin].
  assert (Hsub : dom (activeConnections l)
                 ⊆ (list_to_set (seqZ 1 (connectionCounter l)) : gset Z)).
  { intros id Hid. apply elem_of_dom in Hid. apply Hin in Hid.
    apply elem_of_list_to_set, elem_of_seqZ. lia. }
  apply subseteq_size in Hsub. rewrite size_dom in Hsub.
  rewrite size_list_to_set in Hsub by apply NoDup_seqZ.
  rewrite length_seqZ in Hsub. lia.
Qed.

(** Over the life of the listener, whatever is accepted, closed, swept
    or sent, as long as fewer than [2 ^ 53] channels have been accepted,
    which is where [++connectionCounter] adds one exactly:
    [connectionCounter] counts the channels accepted; the registered ids
    lie between 1 and the counter, so there are never more entries than
    channels accepted, and the id the next channel gets is not
    registered: the accept handler does not take the place of another
    connection.  An id that has been handed out and is no longer
    registered is not registered again. *)
Theorem registry_ids_fresh (es : list event) :
  accepted es < 2 ^ 53 →
  let l := run es in
  connectionCounter l = accepted es
  ∧ (∀ id, is_Some (activeConnections l !! id) →
           1 ≤ id ≤ connectionCounter l)
  ∧ activeConnections l !! (connectionCounter l + 1) = None
  ∧ Z.of_nat (size (activeConnections l)) ≤ accepted es
  ∧ (∀ es' id, accepted (es ++ es') < 2 ^ 53 →
               id ≤ connectionCounter l →
               activeConnections l !! id = None →
               activeConnections (run (es ++ es')) !! id = None).
Proof.
  intros _ l.
  assert (Hstart : ids_issued start).
  { split; [done |]. intros id. cbn. rewrite lookup_empty. by intros [? ?]. }
  assert (Hl : ids_issued l) by by apply foldl_ids_issued.
  assert (Hc : connectionCounter l = accepted es).
  { unfold l, run. by rewrite foldl_counter. }
  split; [done |]. split; [apply Hl |]. split; [| split].
  - destruct (activeConnections l !! (connectionCounter l + 1)) eqn:Hs; [| done].
    destruct Hl as [_ Hin]. specialize (Hin (connectionCounter l + 1)).
    rewrite Hs in Hin. specialize (Hin (mk_is_Some _ _ eq_refl)). lia.
  - rewrite <- Hc. by apply registry_size.
  - intros es' id _ Hle Hnone. unfold run. rewrite foldl_app.
    by apply foldl_lookup_None.
Qed.

(** [registry_ids_fresh] at a listener that accepts a channel, sees it
    close and accepts another one. *)
Lemma registry_ids_fresh_witness :
  connectionCounter
    (run [Accepted WebSocket.fresh 0; ChannelClosed 1;
          Accepted WebSocket.fresh 5]) = 2
  ∧ activeConnections
      (run [Accepted WebSocket.fresh 0; ChannelClosed 1;
            Accepted WebSocket.fresh 5]) !! 1 = None
  ∧ activeConnections
      (run [Accepted WebSocket.fresh 0; ChannelClosed 1;
            Accepted WebSocket.fresh 5]) !! 3 = None.
Proof.
  destruct (registry_ids_fresh [Accepted WebSocket.fresh 0; ChannelClosed 1;
                                Accepted WebSocket.fresh 5])
    as (Hcount & _ & Hnext & _); [by vm_compute |].
  split; [exact Hcount |]. split; [reflexivity |]. exact Hnext.
Defined.

End ListenerLife.

Section PolicyAndHeartbeat.

Import GiteaListener GiteaLifecycle.

Local Open Scope string_scope.

Lemma isOpen_state (w : WebSocket.t) :
  WebSocket.isOpen w = true → WebSocket.state w = WebSocket.OPEN.
Proof. unfold WebSocket.isOpen. by intros ?%bool_decide_eq_true. Qed.

Lemma close_not_open (args : option (Z * string)) (w : WebSocket.t) :
  WebSocket.isOpen (WebSocket.close args w) = false.
Proof.
  unfold WebSocket.isOpen, WebSocket.close. cbn.
  apply bool_decide_eq_false. by destruct (WebSocket.state w).
Qed.

Lemma heartbeat_lookup (now : Z) (l : listener) (id : Z) :
  activeConnections (sendHeartbeats now l) !! id
  = activeConnections l !! id ≫= heartbeat now.
Proof. apply lookup_omap. Qed.

Lemma on_channel_lookup (f : WebSocket.t → WebSocket.t) (id : Z) (l : listener) :
  activeConnections (on_channel f id l) !! id
  = (fun c => Conn (f (ws c)) (lastActivity c)) <$> activeConnections l !! id.
Proof. apply lookup_alter_eq. Qed.

(** The close policy and the heartbeat together, for a registered
    connection whose channel is open when the response has been sent.
    After a script that is not a core file the channel is closing, and
    the next heartbeat drops the connection without a further call on
    the channel.  After a style sheet the same holds once the 100 ms
    timer has fired; a heartbeat that comes before the timer pings the
    channel and keeps the connection, and it is the heartbeat after the
    timer that drops it.  After any other response the next heartbeat
    pings the channel and keeps the connection. *)
Theorem closed_by_policy_then_dropped (l : listener) (id : Z) (c : conn)
    (path : string) (now later : Z) :
  activeConnections l !! id = Some c →
  WebSocket.isOpen (ws c) = true →
  WebSocket.pingThrows (ws c) = false →
  let sent := step l (ResponseSent id None path) in
  let css := CloseIfOpen 1000 "CSS file complete" in
  (isJsFile path = true → isCoreJsFile path = false →
     activeConnections (step sent (Heartbeats now)) !! id = None
     ∧ dropped now sent !! id
       = Some (Conn (WebSocket.close (Some (1000, "JavaScript file complete"))
                       (ws c))
                 (lastActivity c)))
  ∧ (isCssFile path = true →
       (send_callback None path (ws c)).2 = [(100, css)]
       ∧ activeConnections
           (foldl step sent [TimerFired id css; Heartbeats now]) !! id = None
       ∧ activeConnections
           (foldl step sent [Heartbeats now; TimerFired id css]) !! id
         = Some (Conn (WebSocket.close (Some (1000, "CSS file complete"))
                         (WebSocket.ping (ws c)))
                   (Some now))
       ∧ activeConnections
           (foldl step sent
              [Heartbeats now; TimerFired id css; Heartbeats later]) !! id
         = None)
  ∧ ((isJsFile path = false ∨ isCoreJsFile path = true) →
     isCssFile path = false →
       activeConnections (step sent (Heartbeats now)) !! id
       = Some (Conn (WebSocket.ping (ws c)) (Some now))).
Proof.
  intros Hc Hopen Hping sent css.
  assert (Hsent : ∀ w ts, send_callback None path (ws c) = (w, ts) →
            activeConnections sent !! id = Some (Conn w (lastActivity c))).
  { intros w ts Hcb. unfold sent, step, on_channel. cbn [activeConnections].
    rewrite lookup_alter_eq, Hc. cbn [fmap option_fmap option_map ws lastActivity].
    by rewrite Hcb. }
  split; [| split].
  - intros Hjs Hcore.
    assert (Hcb : send_callback None path (ws c)
                  = (WebSocket.close (Some (1000, "JavaScript file complete"))
                       (ws c), [])).
    { unfold send_callback. by rewrite Hjs, Hcore, Hopen. }
    apply Hsent in Hcb. cbn [step]. unfold dropped.
    rewrite heartbeat_lookup, lookup_omap, Hcb. cbn. unfold heartbeat. cbn.
    by rewrite close_not_open.
  - intros Hcss.
    assert (Hjs : isJsFile path = false) by by apply css_not_js.
    assert (Hcb : send_callback None path (ws c) = (ws c, [(100, css)])).
    { unfold send_callback, isCoreJsFile. by rewrite Hjs, Hcss. }
    split; [by rewrite Hcb |].
    apply Hsent in Hcb. cbn [foldl step].
    repeat (rewrite heartbeat_lookup || rewrite on_channel_lookup).
    rewrite Hcb. cbn.
    unfold heartbeat. cbn. rewrite Hopen, Hping. cbn.
    rewrite close_not_open.
    assert (Hopen' : WebSocket.isOpen (WebSocket.ping (ws c)) = true) by done.
    rewrite Hopen'. cbn. by rewrite close_not_open.
  - intros Hplain Hcss.
    assert (Hcb : send_callback None path (ws c) = (ws c, [])).
    { unfold send_callback. rewrite Hcss.
      destruct Hplain as [Hjs | Hcore].
      - unfold isCoreJsFile. by rewrite Hjs.
      - by rewrite Hcore, (core_is_js path Hcore). }
    apply Hsent in Hcb. cbn [step].
    rewrite heartbeat_lookup, Hcb. cbn. unfold heartbeat. cbn.
    by rewrite Hopen, Hping.
Qed.

(** [closed_by_policy_then_dropped] at the first connection of a
    listener, after a script. *)
Lemma closed_by_policy_then_dropped_witness :
  activeConnections
    (foldl step start
       [Accepted WebSocket.fresh 0; ResponseSent 1 None "/js/index.js";
        Heartbeats 30000]) !! 1
  = None.
Proof.
  destruct (closed_by_policy_then_dropped
              (step start (Accepted WebSocket.fresh 0)) 1
              (Conn WebSocket.fresh None) "/js/index.js" 30000 60000)
    as (Hjs & _); [reflexivity | reflexivity | reflexivity |].
  destruct Hjs as [Hgone _]; [reflexivity | reflexivity |].
  exact Hgone.
Defined.

End PolicyAndHeartbeat.

(** ** Command server and command client together *)

Section CommandRoundTrip.

Import CommandServer.

Local Open Scope string_scope.

Lemma processCommand_known (command : string) (size : nat) (now : Z)
    (uptime : Q) :
  (command = "ping" → processCommand (Text command) size now uptime
                      = inl (Pong now))
  ∧ (command = "status" → processCommand (Text command) size now uptime
                          = inl (Status size uptime))
  ∧ (command = "agents" → processCommand (Text command) size now uptime
                          = inl (Agents now (now - 3600000)))
  ∧ (command ∉ known → processCommand (Text command) size now uptime
                       = inr ("Unknown command: " +:+ command)).
Proof.
  repeat split; try by intros ->.
  unfold known. rewrite !not_elem_of_cons. intros (H1 & H2 & H3 & _).
  unfold processCommand.
  apply String.eqb_neq in H1, H2, H3. by rewrite H1, H2, H3.
Qed.

Lemma processCommand_error_truthy (command : operand) (size : nat) (now : Z)
    (uptime : Q) (e : string) :
  processCommand command size now uptime = inr e →
  Client.truthy (Client.JStr e) = true.
Proof.
  assert (Hu : Client.truthy
                 (Client.JStr ("Unknown command: " +:+ rendered command))
               = true) by done.
  unfold processCommand. destruct command as [s | r].
  - repeat (destruct (String.eqb s _); [done |]). by intros [= <-].
  - by intros [= <-].
Qed.

(** A command sent by a connected client and answered by the server
    settles its promise.  The id the client sends is the one the server
    echoes and the one the client looks up, so the answer reaches the
    promise [sendCommand] returned and no other; the promise is resolved
    with the result for [ping], [status] and [agents] and rejected with
    [Unknown command: ...] for every other command, by exactly one call,
    and its callback is no longer stored.  [encode] is the value the
    client reads for a result object. *)
Theorem command_round_trip (encode : result → Client.jsval)
    (es : list Client.event) (command : string) (size : nat) (now : Z)
    (uptime : Q) :
  let c := Client.run es in
  Client.connected c = true → is_Some (Client.ws c) →
  let c1 := (Client.sendCommand command c).1 in
  let p := (Client.sendCommand command c).2 in
  let id := Client.commandId c in
  let answer := processCommand (Text command) size now uptime in
  let c2 := Client.on_message
              (Some (to_client encode (respond (request id command) size now
                                         uptime))) c1 in
  last (Client.sent c1) = Some (id, command)
  ∧ respond (request id command) size now uptime
    = CommandResponse (Client.JNum id) answer
  ∧ Client.promises c2 !! p
    = Some (Client.Promise
              (Some (match answer with
                     | inl r => Client.Resolved (encode r)
                     | inr e => Client.Rejected (Client.JStr e)
                     end)) 1)
  ∧ (∀ q, q ≠ p → Client.promises c2 !! q = Client.promises c !! q)
  ∧ Client.pendingCommands c2 !! id = None
  ∧ (command ∉ known →
     answer = inr ("Unknown command: " +:+ command)).
Proof.
  intros c Hconn Hws c1 p id answer c2.
  pose proof (Client.commandId_positive c (consistent_run es)) as Hpos.
  assert (Hsend : Client.sendCommand command c
                  = (Client.Client_ true (Client.ws c) (id + 1)
                       (<[id := length (Client.promises c)]>
                          (Client.pendingCommands c))
                       (Client.promises c ++ [Client.pending])%list
                       (<[id := (length (Client.promises c), command)]>
                          (Client.timeouts c))
                       (Client.sent c ++ [(id, command)])%list,
                     length (Client.promises c))).
  { unfold Client.sendCommand. rewrite Hconn.
    by rewrite (bool_decide_eq_true_2 _ Hws). }
  assert (Hp : p = length (Client.promises c)) by (unfold p; by rewrite Hsend).
  assert (Hc1 : c1 = (Client.Client_ true (Client.ws c) (id + 1)
                       (<[id := p]> (Client.pendingCommands c))
                       (Client.promises c ++ [Client.pending])%list
                       (<[id := (p, command)]> (Client.timeouts c))
                       (Client.sent c ++ [(id, command)])%list))
    by (unfold c1; by rewrite Hsend, Hp).
  assert (Hreply : respond (request id command) size now uptime
                   = CommandResponse (Client.JNum id) answer) by done.
  split; [by rewrite Hc1; cbn; rewrite last_snoc |]. split; [done |].
  assert (Htruthy : Client.truthy (Client.JNum id) = true).
  { cbn. apply negb_true_iff, Z.eqb_neq. lia. }
  assert (Hc2 : c2 = Client.Client_ true (Client.ws c) (id + 1)
                       (delete id (<[id := p]> (Client.pendingCommands c)))
                       (alter (Client.settle
                                 (match answer with
                                  | inl r => Client.Resolved (encode r)
                                  | inr e => Client.Rejected (Client.JStr e)
                                  end)) p
                          (Client.promises c ++ [Client.pending])%list)
                       (<[id := (p, command)]> (Client.timeouts c))
                       (Client.sent c ++ [(id, command)])%list).
  { unfold c2. rewrite Hreply, Hc1. unfold Client.on_message.
    destruct answer as [r | e] eqn:Hans; cbn [to_client Client.type Client.id
      Client.error Client.result Client.is_command_response].
    - rewrite Htruthy. cbn -[Client.truthy].
      by rewrite lookup_insert_eq.
    - rewrite Htruthy. cbn -[Client.truthy].
      rewrite lookup_insert_eq. unfold Client.callback.
      by rewrite (processCommand_error_truthy _ _ _ _ _ Hans). }
  rewrite Hc2. cbn. split; [| split; [| split]].
  - rewrite list_lookup_alter_eq, Hp, list_lookup_middle by done. done.
  - intros q Hq. rewrite list_lookup_alter_ne by done.
    destruct (decide (q < length (Client.promises c))%nat).
    + by rewrite lookup_app_l.
    + rewrite lookup_app_r by lia. rewrite (lookup_ge_None_2 (Client.promises c)) by lia.
      destruct (q - length (Client.promises c))%nat eqn:Hd; [lia | done].
  - by rewrite lookup_delete_eq.
  - apply processCommand_known.
Qed.

(** [command_round_trip] at the first command of a client that has just
    connected, for a command the server does not know. *)
Lemma command_round_trip_witness :
  let c1 := (Client.sendCommand "deploy"
               (Client.run [Client.Connected WebSocket.fresh])).1 in
  Client.promises
    (Client.on_message
       (Some (to_client (fun _ => Client.JNull)
                (respond (request 1 "deploy") 0 0 0%Q))) c1)
  !! 0%nat
  = Some (Client.Promise
            (Some (Client.Rejected (Client.JStr "Unknown command: deploy"))) 1).
Proof.
  destruct (command_round_trip (fun _ => Client.JNull)
              [Client.Connected WebSocket.fresh] "deploy" 0 0 0%Q) as (_ & _ & Hp & _); [reflexivity | by eexists |].
  exact Hp.
Defined.

End CommandRoundTrip.

(** ** Command server: activity and sweeps *)

Section ServerActivity.

Import Server CommandServer.

Local Open Scope string_scope.

Lemma size_on_message (id : string) (now : Z) (probe : bool)
    (connections : gmap string connection) :
  size (on_message id now probe connections) = size connections.
Proof.
  unfold on_message. by rewrite <- !size_dom, dom_alter_L.
Qed.

(** Any message counts as activity, also one that does not parse: the
    handler of a registered connection sets its [lastActivity] to the
    time of arrival before it looks at the message, marks it as a probe
    connection for a probe and leaves the mark otherwise, and touches no
    other entry; so no sweep of the following five minutes closes the
    connection.  For a connection that is no longer registered the
    registry is left as it is.  In both cases a reply is sent, computed
    from the message and the number of registered connections. *)
Theorem message_counts_as_activity (connections : gmap string connection)
    (id : string) (now later : Z) (uptime : Q) (m : incoming) :
  let after := (handle id now later uptime m connections).1 in
  (handle id now later uptime m connections).2
  = respond m (size connections) later uptime
  ∧ (∀ j, j ≠ id → after !! j = connections !! j)
  ∧ (connections !! id = None → after = connections)
  ∧ (∀ c, connections !! id = Some c →
       after !! id
       = Some (Connection (ws c) (connectedAt c) now (is_probe m || isProbe c))
       ∧ ∀ sweep, (sweep - now ≤ IDLE_LIMIT)%Z →
           (cleanup sweep after).2 !! id = after !! id
           ∧ (cleanup sweep after).1 !! id = None).
Proof.
  intros after. split; [| split; [| split]].
  - unfold handle. cbn. by rewrite size_on_message.
  - intros j Hj. unfold after, handle, on_message. cbn.
    by rewrite lookup_alter_ne.
  - intros Hnone. unfold after, handle, on_message. cbn.
    apply map_eq. intros j. destruct (decide (id = j)) as [<- | Hj].
    + by rewrite lookup_alter_eq, Hnone.
    + by rewrite lookup_alter_ne.
  - intros c Hc.
    assert (Hafter : after !! id
              = Some (Connection (ws c) (connectedAt c) now
                        (is_probe m || isProbe c))).
    { unfold after, handle, on_message. cbn. rewrite lookup_alter_eq, Hc. cbn.
      by destruct (is_probe m). }
    split; [done |]. intros sweep Hsweep. rewrite Hafter.
    apply cleanup_active; [done |].
    destruct (inactive sweep _) eqn:Hin; [| done].
    apply inactive_spec in Hin. cbn in Hin. lia.
Qed.

(** [message_counts_as_activity] at a message that does not parse, on
    the connection of [Examples.closing_server], swept five minutes
    later. *)
Lemma message_counts_as_activity_witness :
  (cleanup 300010
     (handle "c1" 10 10 0%Q (Unparsed "Unexpected token")
        Examples.closing_server).1).2 !! "c1"
  = Some (Connection Examples.closing_channel 0 10 false).
Proof.
  destruct (message_counts_as_activity Examples.closing_server "c1" 10 10 0%Q
              (Unparsed "Unexpected token")) as (_ & _ & _ & Hreg).
  destruct (Hreg (Connection Examples.closing_channel 0 0 false))
    as [Hafter Hsweep]; [reflexivity |].
  destruct (Hsweep 300010) as [Hkept _]; [by vm_compute |].
  rewrite Hkept. exact Hafter.
Defined.

Lemma cleanup_sizes (now : Z) (connections : gmap string connection) :
  size connections
  = (size (cleanup now connections).1 + size (cleanup now connections).2)%nat.
Proof.
  cbn. induction connections as [| id c m Hid _ IH] using map_first_key_ind.
  - by rewrite !omap_empty, map_size_empty.
  - rewrite !omap_insert, map_size_insert_None by done.
    destruct (inactive now c).
    + rewrite map_size_insert_None by (by rewrite lookup_omap, Hid).
      rewrite delete_id by (by rewrite lookup_omap, Hid). lia.
    + rewrite (map_size_insert_None _ _ (omap _ _))
        by (by rewrite lookup_omap, Hid).
      rewrite delete_id by (by rewrite lookup_omap, Hid). lia.
Qed.

(** A sweep splits the registry in two: every connection is either
    closed and removed or kept as it was, never both and never neither,
    and [cleanedCount] is the number removed.  The connections removed
    are those idle for more than five minutes, and the channel of each
    has got exactly one more call of [close], with no argument, and is
    not open; on the channels of the connections kept nothing is called.
    A second sweep at the same moment finds nothing to close, and two
    sweeps in a row leave what the later one alone would leave. *)
Theorem sweep_partitions (now : Z) (connections : gmap string connection) :
  let swept := (cleanup now connections).1 in
  let kept := (cleanup now connections).2 in
  dom swept ∪ dom kept = dom connections
  ∧ dom swept ## dom kept
  ∧ kept ⊆ connections
  ∧ size connections = (cleanedCount now connections + size kept)%nat
  ∧ (∀ id c', swept !! id = Some c' →
       ∃ c, connections !! id = Some c
            ∧ (IDLE_LIMIT < now - lastActivity c)%Z
            ∧ WebSocket.closeCalls (ws c')
              = (WebSocket.closeCalls (ws c) ++ [None])%list
            ∧ WebSocket.isOpen (ws c') = false
            ∧ WebSocket.pings (ws c') = WebSocket.pings (ws c)
            ∧ connectedAt c' = connectedAt c
            ∧ lastActivity c' = lastActivity c
            ∧ isProbe c' = isProbe c)
  ∧ (∀ id c, kept !! id = Some c →
       connections !! id = Some c ∧ (now - lastActivity c ≤ IDLE_LIMIT)%Z)
  ∧ cleanup now kept = (∅, kept)
  ∧ (∀ later, (now ≤ later)%Z →
       (cleanup later kept).2 = (cleanup later connections).2).
Proof.
  intros swept kept.
  assert (Hs : ∀ id, swept !! id
                     = connections !! id
                         ≫= fun c => if inactive now c then Some (closed c)
                                    else None)
    by (intros id; apply lookup_omap).
  assert (Hk : ∀ id, kept !! id
                     = connections !! id
                         ≫= fun c => if inactive now c then None else Some c)
    by (intros id; apply lookup_omap).
  split; [| split; [| split; [| split; [| split; [| split; [| split]]]]]].
  - apply set_eq. intros id.
    rewrite elem_of_union, !elem_of_dom, Hs, Hk.
    destruct (connections !! id) as [c |]; cbn.
    + destruct (inactive now c); split; eauto.
    + split; [intros [[? ?] | [? ?]]; done | by intros [? ?]].
  - apply elem_of_disjoint. intros id. rewrite !elem_of_dom, Hs, Hk.
    destruct (connections !! id) as [c |]; cbn.
    + destruct (inactive now c); by intros [? ?] [? ?].
    + by intros [? ?].
  - apply map_subseteq_spec. intros id c. rewrite Hk.
    destruct (connections !! id) as [c0 |]; cbn; [| done].
    by destruct (inactive now c0); intros [= <-].
  - apply cleanup_sizes.
  - intros id c'. rewrite Hs.
    destruct (connections !! id) as [c |]; cbn; [| done].
    destruct (inactive now c) eqn:Hin; [| done]. intros [= <-].
    exists c. split; [done |]. split; [by apply inactive_spec |].
    apply closed_spec.
  - intros id c. rewrite Hk.
    destruct (connections !! id) as [c0 |]; cbn; [| done].
    destruct (inactive now c0) eqn:Hin; [done |]. intros [= <-].
    split; [done |].
    destruct (Z_le_gt_dec (now - lastActivity c0) IDLE_LIMIT) as [? | Hgt];
      [done |].
    assert (inactive now c0 = true) by (apply inactive_spec; lia). congruence.
  - clearbody swept kept. unfold cleanup. f_equal.
    + apply map_empty. intros id. rewrite lookup_omap, Hk.
      destruct (connections !! id) as [c |]; cbn; [| done].
      destruct (inactive now c) eqn:Hin; cbn; [done |]. by rewrite Hin.
    + apply map_eq. intros id. rewrite lookup_omap, Hk.
      destruct (connections !! id) as [c |]; cbn; [| done].
      destruct (inactive now c) eqn:Hin; cbn; [done |]. by rewrite Hin.
  - intros later Hlater. clearbody swept kept. unfold cleanup.
    cbn [fst snd]. apply map_eq. intros id.
    rewrite !lookup_omap, Hk.
    destruct (connections !! id) as [c |]; cbn; [| done].
    destruct (inactive now c) eqn:Hin; cbn; [| done].
    assert (inactive later c = true) as ->; [| done].
    apply inactive_spec. apply inactive_spec in Hin. lia.
Qed.

(** [sweep_partitions] at two sweeps, one second apart, of a registry
    with one connection, idle since time 0. *)
Lemma sweep_partitions_witness :
  (cleanup 400001 (cleanup 400000 Examples.closing_server).2).2
  = (cleanup 400001 Examples.closing_server).2
  ∧ ∃ c', (cleanup 400000 Examples.closing_server).1 !! "c1" = Some c'
          ∧ WebSocket.closeCalls (ws c')
            = (WebSocket.closeCalls Examples.closing_channel ++ [None])%list
          ∧ WebSocket.isOpen (ws c') = false.
Proof.
  destruct (sweep_partitions 400000 Examples.closing_server)
    as (_ & _ & _ & _ & Hclosed & _ & _ & Hlater).
  split; [apply Hlater; lia |].
  exists (closed (Connection Examples.closing_channel 0 0 false)).
  destruct (Hclosed "c1" (closed (Connection Examples.closing_channel 0 0 false)))
    as (c & Hc & _ & Hcalls & Hopen & _); [reflexivity |].
  injection Hc as <-. by repeat split.
Defined.

End ServerActivity.

(** ** Command client: ids and calls *)

Section ClientIds.

Import Client ClientLife.

Lemma numbered_initial : numbered initial.
Proof. by split. Qed.

Lemma numbered_step (c : client) (e : event) :
  numbered c → numbered (step c e).
Proof.
  intros [Hids Hpos Hidle Hws].
  destruct e as [w | command | m | | id]; cbn [step].
  - by split.
  - unfold sendCommand.
    destruct (negb (connected c) || negb (bool_decide (is_Some (ws c))))
      eqn:Hrej; cbn.
    + by split.
    + apply orb_false_iff in Hrej as [Hconn _].
      apply negb_false_iff in Hconn.
      split; cbn; try done; [| lia | by rewrite Hconn].
      rewrite fmap_app, Hids. cbn.
      replace (commandId c + 1 - 1) with ((commandId c - 1) + 1) by lia.
      rewrite seqZ_app by lia. f_equal.
      rewrite seqZ_cons, seqZ_nil by lia. f_equal. lia.
  - unfold on_message. destruct m as [data |]; [| by split].
    destruct (is_command_response (type data) && truthy (Client.id data));
      [| by split].
    destruct (Client.id data); try by split.
    destruct (pendingCommands c !! n) as [p |] eqn:Hp; [| by split].
    split; cbn; try done.
    intros Hconn. rewrite (Hidle Hconn) in Hp. by rewrite lookup_empty in Hp.
  - by split.
  - unfold on_timeout. destruct (timeouts c !! id) as [[p command] |];
      [| by split].
    case_bool_decide; split; cbn; try done.
    intros Hconn. rewrite (Hidle Hconn). apply delete_empty.
Qed.

Lemma numbered_run (es : list event) : numbered (run es).
Proof.
  unfold run. generalize numbered_initial. generalize initial.
  induction es as [| e es IH]; intros c Hc; [done |].
  cbn [foldl]. by apply IH, numbered_step.
Qed.

Lemma step_promises (c : client) (e : event) :
  length (promises (step c e))
  = (length (promises c) + if is_call e then 1 else 0)%nat.
Proof.
  destruct e as [w | command | m | | id]; cbn [step is_call].
  - cbn. lia.
  - unfold sendCommand.
    destruct (negb (connected c) || negb (bool_decide (is_Some (ws c))));
      cbn; by rewrite length_app.
  - unfold on_message. destruct m as [data |]; [| lia].
    destruct (is_command_response (type data) && truthy (Client.id data));
      [| lia].
    destruct (Client.id data); try lia.
    destruct (pendingCommands c !! n) as [p |]; [| lia].
    cbn. unfold callback, settle_at.
    destruct (truthy (error data)); rewrite length_alter; lia.
  - cbn. rewrite Nat.add_0_r.
    induction (map_to_list (pendingCommands c)) as [| [k p] l IH]; [done |].
    cbn. unfold callback, settle_at. cbn. by rewrite length_alter.
  - unfold on_timeout. destruct (timeouts c !! id) as [[p command] |]; [| lia].
    case_bool_decide; cbn; [| lia]. unfold settle_at. rewrite length_alter. lia.
Qed.

Lemma run_promises (es : list event) :
  length (promises (run es)) = calls es.
Proof.
  unfold run, calls.
  assert (H : ∀ c, length (promises (foldl step c es))
                   = (length (promises c) + length (List.filter is_call es))%nat);
    [| by rewrite H].
  induction es as [| e es IH]; intros c; cbn [foldl]; [cbn; lia |].
  rewrite IH, step_promises. cbn. destruct (is_call e); cbn; lia.
Qed.

(** In every state the client can reach, the ids it has sent are 1, 2,
    3, ... in this order, up to the one before [commandId]: no id is
    sent twice, also across reconnections, and a call rejected for want
    of a connection uses no id.  Every call has made exactly one
    promise.  While the client is not connected no callback is stored,
    and while it is connected it has a channel, so a call is rejected at
    once if and only if the client is not connected. *)
Theorem command_ids_in_order (es : list event) :
  let c := run es in
  (sent c).*1 = seqZ 1 (commandId c - 1)
  ∧ NoDup (sent c).*1
  ∧ length (promises c) = calls es
  ∧ (∀ id, is_Some (pendingCommands c !! id) → id ∈ (sent c).*1)
  ∧ (connected c = false → pendingCommands c = ∅)
  ∧ (∀ command,
       (sendCommand command c).2 = calls es
       ∧ (connected c = false ↔
          promises (sendCommand command c).1 !! calls es
          = Some (Promise (Some (Rejected (JError "Not connected to server"))) 1))
       ∧ (connected c = true ↔
          sent (sendCommand command c).1 = sent c ++ [(commandId c, command)])).
Proof.
  intros c. pose proof (numbered_run es) as [Hids Hpos Hidle Hws].
  fold c in Hids, Hpos, Hidle, Hws.
  pose proof (run_promises es) as Hlen. fold c in Hlen.
  split; [done |]. split; [rewrite Hids; apply NoDup_seqZ |].
  split; [done |]. split; [| split; [done |]].
  - intros id Hid. rewrite Hids. apply elem_of_seqZ.
    pose proof (ids_issued c (consistent_run es) id (or_introl Hid)). lia.
  - intros command. unfold sendCommand.
    destruct (connected c) eqn:Hconn; cbn.
    + rewrite (bool_decide_eq_true_2 _ (Hws eq_refl)). cbn.
      split; [done |]. split; [| done].
      split; [done |]. rewrite <- Hlen, list_lookup_middle by done.
      by intros [=].
    + split; [done |]. split.
      * split; [| done]. intros _. by rewrite <- Hlen, list_lookup_middle.
      * split; [done |]. intros Heq.
        apply (f_equal length) in Heq. rewrite length_app in Heq. cbn in Heq. lia.
Qed.

End ClientIds.

(** ** The relay address *)

Section Addresses.

Import GiteaListener RelayAddress.

Local Open Scope string_scope.

Lemma includes_append_r (a b : string) : includes (a +:+ b) b = true.
Proof.
  induction a as [| c a IH].
  - rewrite append_empty_l. destruct b as [| c b]; [done |].
    cbn [includes]. by rewrite prefix_refl.
  - rewrite append_cons. cbn [includes]. by rewrite IH, orb_true_r.
Qed.

Lemma prefix_head (c : Ascii.ascii) (p s : string) :
  String.prefix (String c p) s = true → String.prefix (String c "") s = true.
Proof.
  destruct s as [| d s]; cbn; [done |].
  destruct (Ascii.ascii_dec c d); [| done]. by destruct s.
Qed.

Lemma includes_head (c : Ascii.ascii) (p s : string) :
  includes s (String c p) = true → includes s (String c "") = true.
Proof.
  induction s as [| d s IH]; cbn [includes].
  - by rewrite !orb_false_r.
  - intros [Hp | Hrest]%orb_true_iff.
    + by rewrite (prefix_head _ _ _ Hp).
    + by rewrite (IH Hrest), orb_true_r.
Qed.

(** Whatever the configured namespace and path: the namespace used
    contains the Azure Government suffix, and qualifying it again changes
    nothing; the uri that [createRelayToken] signs starts with
    [https://], signing is not affected by a second normalisation, and
    the uri signed is exactly the uri connected to.  For a namespace
    without a dot the Gitea listener signs the same host as the command
    server and the command client; for a namespace with a dot and
    without the suffix it signs the bare namespace, and they sign the
    namespace with the suffix added. *)
Theorem relay_address_normalised (namespace path uri : string) :
  includes (qualify namespace) GOV_SUFFIX = true
  ∧ qualify (qualify namespace) = qualify namespace
  ∧ startsWith (token_uri uri) "https://" = true
  ∧ token_uri (token_uri uri) = token_uri uri
  ∧ token_uri (relay_uri namespace path) = relay_uri namespace path
  ∧ (includes namespace "." = false →
     listener_token_uri namespace = "https://" +:+ qualify namespace)
  ∧ (includes namespace "." = true →
     includes namespace GOV_SUFFIX = false →
     listener_token_uri namespace = "https://" +:+ namespace
     ∧ qualify namespace = namespace +:+ GOV_SUFFIX
     ∧ listener_token_uri namespace ≠ "https://" +:+ qualify namespace).
Proof.
  assert (Hq : includes (qualify namespace) GOV_SUFFIX = true).
  { unfold qualify. destruct (includes namespace GOV_SUFFIX) eqn:Hin; [done |].
    apply includes_append_r. }
  assert (Ht : startsWith (token_uri uri) "https://" = true).
  { unfold token_uri. destruct (startsWith uri "https://") eqn:Hs; [done |].
    apply prefix_append. }
  split; [done |]. split; [| split; [done |]; split; [| split; [| split]]].
  - unfold qualify at 1. by rewrite Hq.
  - unfold token_uri at 1. by rewrite Ht.
  - unfold token_uri, relay_uri, startsWith. by rewrite prefix_append.
  - intros Hdot. unfold listener_token_uri, qualify. rewrite Hdot.
    destruct (includes namespace GOV_SUFFIX) eqn:Hin; [| done].
    apply includes_head in Hin. by rewrite Hdot in Hin.
  - intros Hdot Hin. unfold listener_token_uri, qualify. rewrite Hdot, Hin.
    split; [done |]. split; [done |].
    intros Heq%(f_equal String.length).
    rewrite !length_append in Heq. cbn in Heq. lia.
Qed.

(** [relay_address_normalised] at a bare namespace and at a namespace of
    the commercial cloud. *)
Lemma relay_address_normalised_witness :
  listener_token_uri "opsbot" = "https://" +:+ qualify "opsbot"
  ∧ listener_token_uri "opsbot.servicebus.windows.net"
    ≠ "https://" +:+ qualify "opsbot.servicebus.windows.net".
Proof.
  split.
  - destruct (relay_address_normalised "opsbot" "" "")
      as (_ & _ & _ & _ & _ & Hbare & _).
    apply Hbare. reflexivity.
  - destruct (relay_address_normalised "opsbot.servicebus.windows.net" "" "")
      as (_ & _ & _ & _ & _ & _ & Hdot).
    destruct Hdot as (_ & _ & Hne); [reflexivity | reflexivity | exact Hne].
Defined.

End Addresses.

(** ** Deployment agent: what a task does and reports *)

Section AgentTasks.

Import CommandServer Agent.

Local Open Scope string_scope.

Lemma added_app (s : agent) (l : list action) (ds : gmap string deployment) :
  added s (Agent_ (actions s ++ l) ds) = l.
Proof. unfold added. cbn. by rewrite drop_app_length. Qed.

Lemma bind_run {A B} (m : M A) (f : A → M B) (s : agent) :
  bind m f s
  = match m s with
    | (s', inl e) => (s', inl e)
    | (s', inr a) => f a s'
    end.
Proof. done. Qed.

Lemma createWorkDir_spec (w : world) (dir : string) (s : agent) :
  createWorkDir w dir s
  = (Agent_ (actions s ++ [Mkdir dir]) (deployments s),
     match mkdir w dir with Some e => inl e | None => inr tt end).
Proof. unfold createWorkDir, bind, emit. by destruct (mkdir w dir). Qed.

Lemma runCommand_spec (w : world) (command cwd : string)
    (taskId : option string) (s : agent) :
  runCommand w command cwd taskId s
  = (Agent_ (actions s ++ [Exec command cwd])
       (push_logs taskId (exec w command cwd).2 (deployments s)),
     if succeeded (exec w command cwd).1
     then inr (String.concat "" (exec w command cwd).2.*2)
     else inl ("Command failed with exit code "
               +:+ code_text (exec w command cwd).1 +:+ ": "
               +:+ String.concat "" (exec w command cwd).2.*2)).
Proof.
  unfold runCommand. destruct (exec w command cwd) as [code chunks]. cbn.
  by destruct (succeeded code).
Qed.

(** The code is provided: only directories, files and the clone, and
    nothing at all for a repository with a branch. *)
Lemma provide_spec (w : world) (t : task) (dir : string) (s : agent) :
  ∃ l r, provide w t dir s = (Agent_ (actions s ++ l) (deployments s), r)
         ∧ Forall (fun a => is_setup a = true) l
         ∧ (∀ rp b, repository_ t = Some rp → branch rp = Some b → b ≠ "" →
                    l = [] ∧ r = inl "Assignment to constant variable.").
Proof.
  unfold provide. destruct (repository_ t) as [rp |].
  - unfold bind, cloneRepository.
    destruct (GiteaListener.truthy (branch rp)) eqn:Hb.
    + exists [], (inl "Assignment to constant variable.").
      cbn. rewrite app_nil_r. split; [by destruct s |]. split; [done |].
      by intros ? ? [= <-].
    + rewrite runCommand_spec. cbn [push_logs].
      assert (Hclone : is_setup
                (Exec ("git clone " +:+ url rp +:+ " " +:+ dir)
                   (dirname w dir)) = true)
        by apply (prefix_append "git clone ").
      assert (Hnot : ∀ rp' b, Some rp = Some rp' → branch rp' = Some b →
                b ≠ "" → False).
      { intros ? b [= <-] Hbr Hne. rewrite Hbr in Hb. by destruct b. }
      destruct (succeeded _); eexists [_], _;
        (split; [done |]); (split; [by repeat constructor |]);
        intros ? ? ? ? ?; by destruct (Hnot _ _ ltac:(eassumption)
                                         ltac:(eassumption) ltac:(eassumption)).
  - destruct (terraform_code t) as [files |].
    + unfold writeFiles.
      destruct (writeFiles_error w files); eexists _, _;
        (split; [done |]);
        (split; [| by intros ? ?]);
        apply Forall_forall; by intros a [f [-> _]]%list_elem_of_fmap.
    + exists [], (inl "No Terraform code provided"). cbn.
      rewrite app_nil_r. split; [by destruct s |]. split; [done |].
      by intros ? ?.
Qed.

Lemma variables_spec (w : world) (t : task) (dir : string) (s : agent) :
  ∃ l r, when (variables t) (writeVariablesFile w dir) s
         = (Agent_ (actions s ++ l) (deployments s), r)
         ∧ Forall (fun a => is_setup a = true) l.
Proof.
  unfold when. destruct (variables t) as [vs |].
  - unfold writeVariablesFile, bind, emit.
    destruct (writeFile_error w _ _); eexists [_], _;
      (split; [done | by repeat constructor]).
  - exists [], (inr tt). cbn. rewrite app_nil_r. by destruct s.
Qed.

(** A run of [runTerraform]: the preparation, then [terraform init],
    then the command, then the artifact, stopping at the first step that
    fails. *)
Lemma runTerraform_trace (command artifact : string) (w : world) (t : task)
    (s : agent) :
  let dir := join w (workDir w) (id t) in
  let init := exec w "terraform init" dir in
  let op := exec w command dir in
  let ds1 := push_logs (Some (id t)) init.2 (deployments s) in
  let ds2 := push_logs (Some (id t)) op.2 ds1 in
  ∃ pre,
    Forall (fun a => is_setup a = true) pre
    ∧ ((∃ e, runTerraform command artifact w t s
             = (Agent_ (actions s ++ Mkdir dir :: pre) (deployments s), inl e))
       ∨ (mkdir w dir = None ∧ succeeded init.1 = false
          ∧ ∃ e, runTerraform command artifact w t s
                 = (Agent_ (actions s ++ Mkdir dir :: pre
                              ++ [Exec "terraform init" dir]) ds1, inl e))
       ∨ (mkdir w dir = None ∧ succeeded init.1 = true
          ∧ succeeded op.1 = false
          ∧ ∃ e, runTerraform command artifact w t s
                 = (Agent_ (actions s ++ Mkdir dir :: pre
                              ++ [Exec "terraform init" dir; Exec command dir])
                      ds2, inl e))
       ∨ (mkdir w dir = None ∧ succeeded init.1 = true
          ∧ succeeded op.1 = true
          ∧ runTerraform command artifact w t s
            = (Agent_ (actions s ++ Mkdir dir :: pre
                         ++ [Exec "terraform init" dir; Exec command dir;
                             PostArtifact (id t) artifact
                               (String.concat "" op.2.*2)])
                 ds2, inr tt))).
Proof.
  intros dir init op ds1 ds2.
  unfold runTerraform. fold dir.
  rewrite bind_run. rewrite createWorkDir_spec.
  destruct (mkdir w dir) as [e |] eqn:Hmk.
  { exists []. split; [done |]. left. by exists e. }
  rewrite bind_run.
  destruct (provide_spec w t dir
              (Agent_ (actions s ++ [Mkdir dir]) (deployments s)))
    as (l1 & r1 & -> & Hl1 & _).
  cbn [actions deployments]. rewrite <- app_assoc. cbn [app].
  destruct r1 as [e | []].
  { exists l1. split; [done |]. left. by exists e. }
  rewrite bind_run.
  destruct (variables_spec w t dir
              (Agent_ (actions s ++ Mkdir dir :: l1) (deployments s)))
    as (l2 & r2 & -> & Hl2).
  cbn [actions deployments]. rewrite <- app_assoc. cbn [app].
  rewrite app_comm_cons.
  exists (l1 ++ l2)%list. split; [by apply Forall_app |].
  rewrite <- app_comm_cons.
  destruct r2 as [e | []].
  { left. by exists e. }
  right. rewrite bind_run. rewrite runCommand_spec.
  cbn [actions deployments]. fold init. fold ds1.
  repeat (rewrite <- app_assoc; cbn [app]).
  destruct (succeeded init.1) eqn:Hinit.
  2: { left. split; [done |]. split; [done |]. eexists; reflexivity. }
  right. rewrite bind_run. rewrite runCommand_spec.
  cbn [actions deployments]. fold op. fold ds2.
  repeat (rewrite <- app_assoc; cbn [app]).
  destruct (succeeded op.1) eqn:Hop.
  2: { left. split; [done |]. split; [done |]. split; [done |]. eexists; reflexivity. }
  right. split; [done |]. split; [done |]. split; [done |].
  unfold uploadArtifact, emit. cbn [actions deployments].
  by repeat (rewrite <- app_assoc; cbn [app]).
Qed.

(** A repository with a branch: the directory is made and nothing
    else. *)
Lemma runTerraform_branch (command artifact : string) (w : world) (t : task)
    (s : agent) (rp : repository) (b : string) :
  repository_ t = Some rp → branch rp = Some b → b ≠ "" →
  let dir := join w (workDir w) (id t) in
  runTerraform command artifact w t s
  = (Agent_ (actions s ++ [Mkdir dir]) (deployments s),
     inl (match mkdir w dir with
          | Some e => e
          | None => "Assignment to constant variable."
          end)).
Proof.
  intros Hrp Hb Hne dir. unfold runTerraform. fold dir.
  rewrite bind_run. rewrite createWorkDir_spec.
  destruct (mkdir w dir) as [e |]; [done |].
  rewrite bind_run.
  destruct (provide_spec w t dir
              (Agent_ (actions s ++ [Mkdir dir]) (deployments s)))
    as (l1 & r1 & -> & _ & Hbr).
  destruct (Hbr rp b Hrp Hb Hne) as [-> ->]. cbn. by rewrite app_nil_r.
Qed.

Lemma dispatch_cases (w : world) (t : task) :
  (∃ name command artifact,
     type t = Text name ∧ (name, (command, artifact)) ∈ operations
     ∧ dispatch w t = runTerraform command artifact w t)
  ∨ ((∀ name, type t = Text name → name ∉ operations.*1)
     ∧ dispatch w t = throw ("Unknown task type: " +:+ rendered (type t))).
Proof.
  unfold dispatch. destruct (type t) as [name | r]; [| by right].
  destruct (String.eqb_spec name "terraform_plan") as [-> | H1].
  { left. exists "terraform_plan", PLAN, "plan_output". split; [done |].
    split; [| done]. unfold operations. rewrite !elem_of_cons. by left. }
  destruct (String.eqb_spec name "terraform_apply") as [-> | H2].
  { left. exists "terraform_apply", APPLY, "apply_output". split; [done |].
    split; [| done]. unfold operations. rewrite !elem_of_cons. right. by left. }
  destruct (String.eqb_spec name "terraform_destroy") as [-> | H3].
  { left. exists "terraform_destroy", DESTROY, "destroy_output".
    split; [done |]. split; [| done].
    unfold operations. rewrite !elem_of_cons. right. right. by left. }
  right. split; [| done]. intros ? [= <-]. cbn.
  rewrite !not_elem_of_cons. repeat split; try done. apply not_elem_of_nil.
Qed.

(** [processTask] around [dispatch]. *)
Lemma processTask_spec (w : world) (t : task) (s : agent) :
  let s0 := Agent_ (actions s ++ [PostStatus (id t) "running" "Task started"])
              (<[id t := Deployment "running" [] None false]> (deployments s)) in
  processTask w t s
  = match dispatch w t s0 with
    | (s1, inr _) =>
        (Agent_ (actions s1
                   ++ [PostStatus (id t) "completed"
                         "Task completed successfully"])
           (alter (fun d => Deployment "completed" (logs d) (error d) true)
              (id t) (deployments s1)), inr tt)
    | (s1, inl e) =>
        (Agent_ (actions s1
                   ++ [PostStatus (id t) "failed" ("Task failed: " +:+ e)])
           (alter (fun d => Deployment "failed" (logs d) (Some e) true)
              (id t) (deployments s1)), inr tt)
    end.
Proof.
  intros s0. unfold processTask. rewrite bind_run.
  unfold updateTaskStatus at 1. cbn [emit]. unfold try_catch.
  rewrite bind_run. cbn [set_deployment actions deployments]. fold s0.
  rewrite bind_run. by destruct (dispatch w t s0) as [s1 [e | []]].
Qed.

Lemma push_logs_other (i j : string) (chunks : list (stream * string))
    (ds : gmap string deployment) :
  i ≠ j → push_logs (Some i) chunks ds !! j = ds !! j.
Proof.
  intros Hne. unfold push_logs. destruct (GiteaListener.truthy _); [| done].
  by rewrite lookup_alter_ne.
Qed.

Lemma push_logs_same (i : string) (chunks : list (stream * string))
    (ds : gmap string deployment) (d : deployment) :
  ds !! i = Some d →
  ∃ lg, push_logs (Some i) chunks ds !! i
        = Some (Deployment (status d) lg (error d) (ended d))
        ∧ (i ≠ "" → lg = (logs d ++ chunks)%list).
Proof.
  intros Hd. unfold push_logs. destruct i as [| c i]; cbn.
  - exists (logs d). rewrite Hd. by destruct d.
  - exists (logs d ++ chunks)%list. by rewrite lookup_alter_eq, Hd.
Qed.

Lemma setup_not_status (l : list action) :
  Forall (fun a => is_setup a = true) l →
  Forall (fun a => is_status a = false) l.
Proof. intros H. eapply Forall_impl; [done |]. by intros []. Qed.

(** What [dispatch] does between the two status updates. *)
Lemma dispatch_trace (w : world) (t : task) (s0 : agent) (d0 : deployment) :
  deployments s0 !! id t = Some d0 →
  ∃ mid ds r lg,
    dispatch w t s0 = (Agent_ (actions s0 ++ mid) ds, r)
    ∧ Forall (fun a => is_status a = false) mid
    ∧ ds !! id t = Some (Deployment (status d0) lg (error d0) (ended d0))
    ∧ ∀ j, j ≠ id t → ds !! j = deployments s0 !! j.
Proof.
  intros Hd0.
  assert (Hsame : ∃ lg, deployments s0 !! id t
                        = Some (Deployment (status d0) lg (error d0) (ended d0))).
  { exists (logs d0). rewrite Hd0. by destruct d0. }
  destruct (dispatch_cases w t) as
    [(name & command & artifact & _ & _ & ->) | [_ ->]].
  2: { destruct Hsame as [lg Hlg].
       exists [], (deployments s0), (inl ("Unknown task type: "
                                          +:+ rendered (type t))), lg.
       rewrite app_nil_r. split; [by destruct s0 |]. by repeat split. }
  destruct (push_logs_same (id t)
              (exec w "terraform init" (join w (workDir w) (id t))).2
              _ _ Hd0) as (lg1 & Hds1 & _).
  destruct (push_logs_same (id t)
              (exec w command (join w (workDir w) (id t))).2
              _ _ Hds1) as (lg2 & Hds2 & _).
  cbn [status error ended] in Hds2.
  destruct (runTerraform_trace command artifact w t s0)
    as (pre & Hpre%setup_not_status & Hcases).
  destruct Hcases as [[e ->] | [(_ & _ & e & ->) | [(_ & _ & _ & e & ->)
                     | (_ & _ & _ & ->)]]].
  - destruct Hsame as [lg Hlg]. eexists _, _, _, lg.
    split; [done |]. split; [by constructor |]. by split.
  - eexists _, _, _, lg1. split; [done |]. split; [| split; [done |]].
    + constructor; [done |]. apply Forall_app. split; [done |].
      by repeat constructor.
    + intros j Hj. by rewrite push_logs_other.
  - eexists _, _, _, lg2. split; [done |]. split; [| split; [done |]].
    + constructor; [done |]. apply Forall_app. split; [done |].
      by repeat constructor.
    + intros j Hj. by rewrite !push_logs_other.
  - eexists _, _, _, lg2. split; [done |]. split; [| split; [done |]].
    + constructor; [done |]. apply Forall_app. split; [done |].
      by repeat constructor.
    + intros j Hj. by rewrite !push_logs_other.
Qed.

(** Whatever the task and whatever fails on the way, [processTask]
    returns without an error and has reported the task twice: as
    [running] before anything else, and as [completed] or [failed] after
    everything else, with no status update in between.  The entry of the
    task in [deployments] ends with the status reported last; a failed
    task carries the message of the error, both in the entry and, after
    [Task failed: ], in the report.  No other entry is touched. *)
Theorem task_reported_twice (w : world) (t : task) (s : agent) :
  ∃ s' mid final message d,
    processTask w t s = (s', inr tt)
    ∧ added s s'
      = PostStatus (id t) "running" "Task started"
        :: mid ++ [PostStatus (id t) final message]
    ∧ Forall (fun a => is_status a = false) mid
    ∧ deployments s' !! id t = Some d
    ∧ status d = final ∧ ended d = true
    ∧ ((final = "completed" ∧ message = "Task completed successfully"
        ∧ error d = None)
       ∨ (final = "failed"
          ∧ ∃ e, message = "Task failed: " +:+ e ∧ error d = Some e))
    ∧ ∀ j, j ≠ id t → deployments s' !! j = deployments s !! j.
Proof.
  rewrite processTask_spec.
  set (s0 := Agent_ _ _).
  destruct (dispatch_trace w t s0 (Deployment "running" [] None false))
    as (mid & ds & r & lg & -> & Hmid & Hds & Hother).
  { apply lookup_insert_eq. }
  cbn [status error ended] in Hds.
  assert (Hs : ∀ j, j ≠ id t → deployments s0 !! j = deployments s !! j).
  { intros j Hj. unfold s0. cbn. by rewrite lookup_insert_ne. }
  destruct r as [e | []]; cbn [actions deployments].
  - eexists _, mid, "failed", _, _. split; [done |].
    unfold s0 at 1. cbn [actions]. repeat rewrite <- app_assoc. cbn [app].
    rewrite added_app. split; [done |]. split; [done |].
    cbn [deployments]. rewrite lookup_alter_eq, Hds. cbn. split; [done |].
    split; [done |]. split; [done |]. split.
    + right. split; [done |]. by exists e.
    + intros j Hj. by rewrite lookup_alter_ne, Hother, Hs.
  - eexists _, mid, "completed", _, _. split; [done |].
    unfold s0 at 1. cbn [actions]. repeat rewrite <- app_assoc. cbn [app].
    rewrite added_app. split; [done |]. split; [done |].
    cbn [deployments]. rewrite lookup_alter_eq, Hds. cbn. split; [done |].
    split; [done |]. split; [done |]. split.
    + by left.
    + intros j Hj. by rewrite lookup_alter_ne, Hother, Hs.
Qed.

Lemma operation_not_setup (command cwd : string) :
  command ∈ [PLAN; APPLY; DESTROY] → is_setup (Exec command cwd) = false.
Proof.
  rewrite !elem_of_cons, elem_of_nil. by intros [-> | [-> | [-> | []]]].
Qed.

Lemma operations_command (name command artifact : string) :
  (name, (command, artifact)) ∈ operations → command ∈ [PLAN; APPLY; DESTROY].
Proof.
  unfold operations. rewrite !elem_of_cons, !elem_of_nil.
  intros [[= -> -> ->] | [[= -> -> ->] | [[= -> -> ->] | []]]]; auto.
Qed.

(** The agent hands [terraform plan], [terraform apply] or [terraform
    destroy] to [exec] only for a task of that type, only in the work
    directory of the task, and only directly after a [terraform init]
    that ran in the same directory and ended with exit code 0. *)
Theorem operation_only_after_init (w : world) (t : task) (s : agent)
    (command cwd : string) :
  command ∈ [PLAN; APPLY; DESTROY] →
  Exec command cwd ∈ added s (processTask w t s).1 →
  let dir := join w (workDir w) (id t) in
  cwd = dir
  ∧ (∃ name artifact,
       type t = Text name ∧ (name, (command, artifact)) ∈ operations)
  ∧ mkdir w dir = None
  ∧ succeeded (exec w "terraform init" dir).1 = true
  ∧ ∃ before after,
      added s (processTask w t s).1
      = (before ++ Exec "terraform init" dir :: Exec command dir :: after)%list.
Proof.
  intros Hcmd Hin dir. rewrite processTask_spec in Hin |- *.
  set (s0 := Agent_ _ _) in *.
  assert (Hnot : ∀ l : list action,
            Forall (fun a => is_setup a = true) l → Exec command cwd ∉ l).
  { intros l Hl Hel. rewrite Forall_forall in Hl. apply Hl in Hel.
    by rewrite operation_not_setup in Hel. }
  assert (Hinit : Exec command cwd ≠ Exec "terraform init" dir).
  { intros [= -> _]. revert Hcmd. rewrite !elem_of_cons, elem_of_nil.
    by intros [? | [? | [? | []]]]. }
  destruct (dispatch_cases w t) as
    [(name & command' & artifact & Hty & Hop & Hd) | [_ Hd]];
    rewrite Hd in Hin |- *.
  2: { exfalso. cbn in Hin. unfold s0 in Hin. cbn in Hin.
       rewrite <- app_assoc, added_app in Hin. cbn in Hin.
       revert Hin. rewrite !elem_of_cons, elem_of_nil.
       by intros [? | [? | []]]. }
  destruct (runTerraform_trace command' artifact w t s0) as (pre & Hpre & Hcases).
  fold dir in Hcases.
  assert (Hs0 : ∀ l ds, added s (Agent_ (actions s0 ++ l) ds)
                        = PostStatus (id t) "running" "Task started" :: l).
  { intros l ds. unfold s0. cbn [actions]. by rewrite <- app_assoc, added_app. }
  destruct Hcases as [[e Heq] | [(Hmk & Hini & e & Heq)
                     | [(Hmk & Hini & Hopf & e & Heq)
                     | (Hmk & Hini & Hopt & Heq)]]];
    rewrite Heq in Hin |- *; cbn [fst actions deployments] in Hin |- *;
    rewrite <- app_assoc in Hin |- *; rewrite Hs0 in Hin |- *;
    cbn [app] in Hin; repeat rewrite <- app_assoc in Hin; cbn [app] in Hin;
    revert Hin; rewrite ?elem_of_cons, ?elem_of_app, ?elem_of_cons,
      ?elem_of_nil; intros Hin.
  - exfalso. destruct Hin as [? | [? | [? | [? | []]]]]; try done.
    by apply (Hnot pre).
  - exfalso. destruct Hin as [? | [? | [? | [? | [? | []]]]]]; try done.
    by apply (Hnot pre).
  - assert (Heqc : Exec command cwd = Exec command' dir).
    { destruct Hin as [? | [? | [? | [? | [? | [? | []]]]]]]; try done.
      exfalso. by apply (Hnot pre). }
    injection Heqc as -> ->.
    split; [done |]. split; [by exists name, artifact |].
    split; [done |]. split; [done |].
    eexists (PostStatus (id t) "running" "Task started" :: Mkdir dir :: pre), _.
    cbn [app]. repeat rewrite <- app_assoc. by cbn [app].
  - assert (Heqc : Exec command cwd = Exec command' dir).
    { destruct Hin as [? | [? | [? | [? | [? | [? | [? | []]]]]]]]; try done.
      exfalso. by apply (Hnot pre). }
    injection Heqc as -> ->.
    split; [done |]. split; [by exists name, artifact |].
    split; [done |]. split; [done |].
    eexists (PostStatus (id t) "running" "Task started" :: Mkdir dir :: pre), _.
    cbn [app]. repeat rewrite <- app_assoc. by cbn [app].
Qed.

(** [operation_only_after_init] at an apply task in a world where
    everything succeeds. *)
Lemma operation_only_after_init_witness :
  Exec APPLY "/work/t1" ∈ added fresh (processTask obliging apply_task fresh).1
  ∧ succeeded (exec obliging "terraform init" "/work/t1").1 = true.
Proof.
  assert (Hin : Exec APPLY "/work/t1"
                ∈ added fresh (processTask obliging apply_task fresh).1).
  { apply list_elem_of_In. vm_compute. tauto. }
  split; [exact Hin |].
  destruct (operation_only_after_init obliging apply_task fresh APPLY
              "/work/t1") as (_ & _ & _ & Hinit & _).
  - apply list_elem_of_In. vm_compute. tauto.
  - exact Hin.
  - exact Hinit.
Defined.

(** A task whose repository names a branch never gets as far as a
    command: whatever its type among the three and whatever the world,
    the agent makes the work directory, runs nothing, not even the
    clone, and reports the task as failed; when the directory could be
    made, the error reported is the assignment to the constant
    [command] in [cloneRepository]. *)
Theorem branch_task_fails (w : world) (t : task) (s : agent)
    (rp : repository) (b name : string) :
  repository_ t = Some rp → branch rp = Some b → b ≠ "" →
  type t = Text name → name ∈ operations.*1 →
  let dir := join w (workDir w) (id t) in
  let e := match mkdir w dir with
           | Some e => e
           | None => "Assignment to constant variable."
           end in
  added s (processTask w t s).1
  = [PostStatus (id t) "running" "Task started"; Mkdir dir;
     PostStatus (id t) "failed" ("Task failed: " +:+ e)]
  ∧ deployments (processTask w t s).1 !! id t
    = Some (Deployment "failed" [] (Some e) true).
Proof.
  intros Hrp Hb Hne Hty Hname dir e. rewrite processTask_spec.
  set (s0 := Agent_ _ _).
  destruct (dispatch_cases w t) as
    [(name' & command & artifact & _ & _ & ->) | [Hunknown _]].
  2: { by destruct (Hunknown name Hty). }
  rewrite (runTerraform_branch command artifact w t s0 rp b Hrp Hb Hne).
  fold dir. fold e. cbn [fst actions deployments]. split.
  - unfold s0. cbn [actions]. repeat rewrite <- app_assoc.
    by rewrite added_app.
  - unfold s0. cbn [deployments]. by rewrite lookup_alter_eq, lookup_insert_eq.
Qed.

(** [branch_task_fails] at a plan task for the branch [main]. *)
Lemma branch_task_fails_witness :
  added fresh (processTask obliging branch_task fresh).1
  = [PostStatus "t2" "running" "Task started"; Mkdir "/work/t2";
     PostStatus "t2" "failed" "Task failed: Assignment to constant variable."].
Proof.
  destruct (branch_task_fails obliging branch_task fresh
              (Repository "https://git.example/infra.git" (Some "main"))
              "main" "terraform_plan") as [Hadded _];
    [reflexivity | reflexivity | discriminate | reflexivity | |].
  - apply list_elem_of_In. vm_compute. tauto.
  - exact Hadded.
Defined.

(** A task recorded as completed has run to the end: its type is one of
    the three, the work directory was made, [terraform init] and the
    command of the type both ended with exit code 0, and the artifact
    posted holds what the command wrote to its two streams, in order of
    arrival.  The logs of the deployment are the chunks of [terraform
    init] followed by those of the command, and nothing of the clone. *)
Theorem completed_task_output (w : world) (t : task) (s : agent)
    (d : deployment) :
  deployments (processTask w t s).1 !! id t = Some d →
  status d = "completed" →
  let dir := join w (workDir w) (id t) in
  let init := exec w "terraform init" dir in
  ∃ name command artifact,
    type t = Text name ∧ (name, (command, artifact)) ∈ operations
    ∧ mkdir w dir = None
    ∧ succeeded init.1 = true
    ∧ succeeded (exec w command dir).1 = true
    ∧ PostArtifact (id t) artifact
        (String.concat "" (exec w command dir).2.*2)
      ∈ added s (processTask w t s).1
    ∧ error d = None
    ∧ (id t ≠ "" → logs d = (init.2 ++ (exec w command dir).2)%list).
Proof.
  intros Hd Hst dir init. rewrite processTask_spec in Hd |- *.
  set (s0 := Agent_ _ _) in *.
  assert (Hfailed : ∀ s1 e,
            deployments
              (Agent_ (actions s1 ++ [PostStatus (id t) "failed"
                                        ("Task failed: " +:+ e)])
                 (alter (fun d => Deployment "failed" (logs d) (Some e) true)
                    (id t) (deployments s1))) !! id t = Some d → False).
  { intros s1 e. cbn [deployments]. rewrite lookup_alter_eq.
    destruct (deployments s1 !! id t); [| done].
    intros [= <-]. by cbn in Hst. }
  destruct (dispatch_cases w t) as
    [(name & command & artifact & Hty & Hop & Hdisp) | [_ Hdisp]];
    rewrite Hdisp in Hd |- *.
  2: { exfalso. by apply (Hfailed _ _ Hd). }
  destruct (runTerraform_trace command artifact w t s0) as (pre & Hpre & Hcases).
  fold dir in Hcases. fold init in Hcases.
  destruct Hcases as [[e Heq] | [(Hmk & Hini & e & Heq)
                     | [(Hmk & Hini & Hopf & e & Heq)
                     | (Hmk & Hini & Hopt & Heq)]]];
    rewrite Heq in Hd |- *; cbn [fst] in Hd |- *;
    try (exfalso; by apply (Hfailed _ _ Hd)).
  exists name, command, artifact.
  split; [done |]. split; [done |]. split; [done |]. split; [done |].
  split; [done |]. split; [| split].
  - cbn [fst actions]. unfold s0. cbn [actions].
    repeat rewrite <- app_assoc. rewrite added_app. cbn [app].
    rewrite !elem_of_cons, !elem_of_app, !elem_of_cons. auto 10.
  - revert Hd. cbn [deployments]. rewrite lookup_alter_eq.
    unfold push_logs. destruct (GiteaListener.truthy (Some (id t))).
    + rewrite !lookup_alter_eq. unfold s0. cbn [deployments].
      rewrite lookup_insert_eq. by intros [= <-].
    + unfold s0. cbn [deployments]. rewrite lookup_insert_eq. by intros [= <-].
  - intros Hid. revert Hd. cbn [deployments]. rewrite lookup_alter_eq.
    unfold push_logs.
    assert (GiteaListener.truthy (Some (id t)) = true) as ->
      by (by destruct (id t)).
    rewrite !lookup_alter_eq. unfold s0. cbn [deployments].
    rewrite lookup_insert_eq. by intros [= <-].
Qed.

(** [completed_task_output] at the apply task. *)
Lemma completed_task_output_witness :
  PostArtifact "t1" "apply_output" "terraform apply -auto-approve: done"
  ∈ added fresh (processTask obliging apply_task fresh).1.
Proof.
  destruct (completed_task_output obliging apply_task fresh
              (Deployment "completed"
                 [(Stdout, "terraform init: done");
                  (Stdout, "terraform apply -auto-approve: done")] None true))
    as (name & command & artifact & Hty & Hop & _ & _ & _ & Hart & _);
    [by vm_compute | reflexivity |].
  injection Hty as <-.
  revert Hop. unfold operations. rewrite !elem_of_cons, elem_of_nil.
  intros [[=] | [[= -> ->] | [[=] | []]]]. exact Hart.
Defined.

End AgentTasks.

(** ** Deployment agent: one task at a time *)

Section OneTask.

Import Polling.

Lemma one_at_a_time_from (es : list event) (p : poller) :
  one_at_a_time p → serial_from p es = true →
  one_at_a_time (foldl step p es).
Proof.
  revert p. induction es as [| e es IH]; intros p Hp Hs; [done |].
  cbn [serial_from] in Hs. apply andb_true_iff in Hs as [He Hs].
  cbn [foldl]. apply IH; [| done]. clear IH Hs.
  destruct Hp as [Hle Hbusy]. destruct p as [st rq rn]. cbn in *.
  destruct e as [| [task |] | |]; cbn.
  - apply Nat.eqb_eq in He as ->. destruct st; cbn; [| done].
    assert (rn = 0%nat) as ->.
    { destruct rn as [| [| rn]]; [done | | lia].
      destruct Hbusy as [_ Hb]. by specialize (Hb eq_refl). }
    split; cbn; [lia | done].
  - destruct rq as [| rq]; [done |]. split; cbn; [lia |].
    assert (rn = 0%nat) as -> by lia. done.
  - destruct rq as [| rq]; [done |]. split; cbn; [lia | done].
  - destruct rq as [| rq]; [done |]. split; cbn; [lia | done].
  - destruct rn as [| rn]; [done |]. split; cbn; [lia |].
    assert (rn = 0%nat) as -> by lia. split; [done | lia].
Qed.

(** The agent works on one task at a time as long as no poll starts
    while another waits for its answer: then at most one request or one
    task is under way, and [agentStatus] is [busy] exactly while a task
    is.  Without that proviso it does not: a poll that starts while the
    agent is idle takes its task whatever has happened since, so two
    polls that wait together start two tasks, and when the first of them
    settles the agent is [idle] with the other still running. *)
Theorem one_task_at_a_time :
  (∀ es, serial es = true →
     (requests (run es) + running (run es) ≤ 1)%nat
     ∧ (agentStatus (run es) = Busy ↔ running (run es) = 1%nat))
  ∧ (∀ a b,
       running (run [Tick; Tick; Answer (Some a); Answer (Some b)]) = 2%nat
       ∧ run [Tick; Tick; Answer (Some a); Answer (Some b); TaskSettled]
         = Poller Idle 0 1).
Proof.
  split; [| done]. intros es Hs. apply (one_at_a_time_from es start); [| done].
  split; cbn; [lia |]. split; [done | lia].
Qed.

(** [one_task_at_a_time] at a poll that is answered with a task before
    the next one starts. *)
Lemma one_task_at_a_time_witness :
  (requests (run [Tick; Answer (Some "t1"%string); Tick])
   + running (run [Tick; Answer (Some "t1"%string); Tick]) ≤ 1)%nat.
Proof.
  destruct one_task_at_a_time as [Hserial _].
  destruct (Hserial [Tick; Answer (Some "t1"%string); Tick]) as [Hle _];
    [reflexivity | exact Hle].
Defined.

End OneTask.

(** ** Passthrough: nothing is lost and the queue cannot stall *)

Section QueueIntegrity.

Import Passthrough WriteQueue.

Lemma socket_write_spec (data : Buffer) (s : session) :
  ∃ r, socket_write data s
       = (r, Session (pendingWrites s) (isWriting s)
               (written s ++ match r with
                             | WriteThrows => []
                             | _ => [data]
                             end)
               (drainListeners s) (immediates s) (tl (socketBehaviour s)))
       ∧ (no_throw (socketBehaviour s) → r ≠ WriteThrows).
Proof.
  unfold socket_write. destruct (socketBehaviour s) as [| r b] eqn:Hb.
  - exists WriteFlushed. by split.
  - exists r. split.
    + destruct r; cbn; by rewrite ?app_nil_r.
    + by intros [? _]%Forall_cons.
Qed.

Lemma no_throw_tl (b : list write_result) : no_throw b → no_throw (tl b).
Proof. destruct b; [done |]. by intros [_ ?]%Forall_cons. Qed.

Lemma no_throw_drop (k : nat) (b : list write_result) :
  no_throw b → no_throw (drop k b).
Proof. apply Forall_drop. Qed.

Lemma tl_drop {A} (k : nat) (l : list A) : tl (drop k l) = drop (S k) l.
Proof.
  revert l. induction k as [| k IH]; intros [| x l]; cbn;
    rewrite ?drop_0, ?drop_nil; auto.
Qed.

Lemma chunk_bound (r : write_result) (data : Buffer) :
  (length (match r with WriteThrows => [] | _ => [data] end) ≤ 1)%nat.
Proof. destruct r; cbn; lia. Qed.

Lemma chunk_origin (r : write_result) (data : Buffer) (taken : list Buffer) :
  Forall (fun c => c ∈ data :: taken)
    (match r with WriteThrows => [] | _ => [data] end).
Proof.
  destruct r; repeat constructor; apply elem_of_cons; by left.
Qed.

(** What one call of [processWriteQueue] takes and writes. *)
Lemma processWriteQueue_account (fuel : nat) :
  ∀ s s', processWriteQueue fuel s = Some s' →
    ∃ taken new k,
      pendingWrites s = taken ++ pendingWrites s'
      ∧ written s' = written s ++ new
      ∧ Forall (fun c => c ∈ taken) new
      ∧ (length new ≤ 2 * length taken)%nat
      ∧ socketBehaviour s' = drop k (socketBehaviour s)
      ∧ (no_throw (socketBehaviour s) → Forall (fun c => c ∈ new) taken).
Proof.
  induction fuel as [| fuel IH]; intros s s' Hrun; [done |].
  cbn [processWriteQueue] in Hrun.
  assert (Hstay : s' = s →
            ∃ taken new k,
              pendingWrites s = taken ++ pendingWrites s'
              ∧ written s' = written s ++ new
              ∧ Forall (fun c => c ∈ taken) new
              ∧ (length new ≤ 2 * length taken)%nat
              ∧ socketBehaviour s' = drop k (socketBehaviour s)
              ∧ (no_throw (socketBehaviour s) → Forall (fun c => c ∈ new) taken)).
  { intros ->. exists [], [], 0%nat. rewrite app_nil_r, drop_0.
    by repeat split. }
  destruct (pendingWrites s) as [| data rest] eqn:Hq.
  { injection Hrun as <-. by apply Hstay. }
  destruct (isWriting s) eqn:Hw.
  { injection Hrun as <-. by apply Hstay. }
  clear Hstay.
  destruct (socket_write_spec data
              (set_pendingWrites rest (set_isWriting true s)))
    as (r1 & Hw1 & Hr1).
  rewrite Hw1 in Hrun. clear Hw1.
  cbn [set_pendingWrites set_isWriting pendingWrites
    isWriting written drainListeners immediates socketBehaviour] in Hrun, Hr1.
  set (w1 := match r1 with WriteThrows => [] | _ => [data] end) in *.
  apply bind_Some in Hrun as (af & Haf & Hrun).
  assert (Hfirst : ∃ taken new k,
            rest = taken ++ pendingWrites af
            ∧ written af = written s ++ w1 ++ new
            ∧ Forall (fun c => c ∈ taken) new
            ∧ (length new ≤ 2 * length taken)%nat
            ∧ socketBehaviour af = drop k (tl (socketBehaviour s))
            ∧ (no_throw (tl (socketBehaviour s)) →
               Forall (fun c => c ∈ new) taken)).
  { assert (Hnested : processWriteQueue fuel
                        (set_isWriting false
                           (Session rest true (written s ++ w1)
                              (drainListeners s) (immediates s)
                              (tl (socketBehaviour s)))) = Some af →
              ∃ taken new k,
                rest = taken ++ pendingWrites af
                ∧ written af = written s ++ w1 ++ new
                ∧ Forall (fun c => c ∈ taken) new
                ∧ (length new ≤ 2 * length taken)%nat
                ∧ socketBehaviour af = drop k (tl (socketBehaviour s))
                ∧ (no_throw (tl (socketBehaviour s)) →
                   Forall (fun c => c ∈ new) taken)).
    { intros (taken & new & k & H1 & H2 & H3 & H4 & H5 & H6)%IH.
      cbn in H1, H2, H5, H6. exists taken, new, k.
      rewrite app_assoc. by repeat split. }
    destruct r1; [by apply Hnested | | by apply Hnested].
    injection Haf as <-. exists [], [], 0%nat. cbn.
    rewrite ?app_nil_r, ?drop_0. by repeat split. }
  clear Haf. destruct Hfirst as (taken & new & k & H1 & H2 & H3 & H4 & H5 & H6).
  destruct (socket_write_spec data af) as (r2 & Hw2 & _).
  rewrite Hw2 in Hrun. clear Hw2.
  set (w2 := match r2 with WriteThrows => [] | _ => [data] end) in *.
  assert (Hs' : pendingWrites s' = pendingWrites af
                ∧ written s' = written af ++ w2
                ∧ socketBehaviour s' = tl (socketBehaviour af)).
  { injection Hrun as <-. by destruct r2. }
  clear Hrun. destruct Hs' as (Hq' & Hwr' & Hb').
  exists (data :: taken), (w1 ++ new ++ w2), (S (S k)).
  rewrite Hq', Hwr', Hb', H2, H5, H1.
  split; [done |]. split; [by rewrite <- !app_assoc |]. split; [| split; [| split]].
  - apply Forall_app. split; [apply chunk_origin |].
    apply Forall_app. split; [| apply chunk_origin].
    eapply Forall_impl; [exact H3 |]. intros c Hc. apply elem_of_cons. by right.
  - rewrite !length_app. pose proof (chunk_bound r1 data).
    pose proof (chunk_bound r2 data). fold w1 in H. fold w2 in H0.
    cbn [length]. lia.
  - rewrite tl_drop. destruct (socketBehaviour s) as [| r b]; cbn;
      by rewrite ?drop_nil.
  - intros Hclean. constructor.
    + apply elem_of_app. left. specialize (Hr1 Hclean). unfold w1.
      destruct r1; try done; apply elem_of_cons; by left.
    + specialize (H6 (no_throw_tl _ Hclean)).
      eapply Forall_impl; [exact H6 |]. intros c Hc.
      rewrite !elem_of_app. right. by left.
Qed.

(** What one call of [processWriteQueue] schedules. *)
Lemma processWriteQueue_schedule (fuel : nat) :
  ∀ s s', processWriteQueue fuel s = Some s' →
    (immediates s ≤ immediates s')%nat
    ∧ (length (drainListeners s) ≤ length (drainListeners s'))%nat
    ∧ (isWriting s = true → s' = s)
    ∧ (pendingWrites s = [] → s' = s)
    ∧ (isWriting s = false → isWriting s' = true →
       (length (drainListeners s) < length (drainListeners s'))%nat)
    ∧ (isWriting s = false → pendingWrites s ≠ [] →
       (immediates s < immediates s')%nat
       ∨ (length (drainListeners s) < length (drainListeners s'))%nat).
Proof.
  induction fuel as [| fuel IH]; intros s s' Hrun; [done |].
  cbn [processWriteQueue] in Hrun.
  destruct (pendingWrites s) as [| data rest] eqn:Hq.
  { injection Hrun as <-. repeat split; try done; try lia. by intros ->. }
  destruct (isWriting s) eqn:Hw.
  { injection Hrun as <-. repeat split; try done; lia. }
  destruct (socket_write_spec data
              (set_pendingWrites rest (set_isWriting true s)))
    as (r1 & Hw1 & _).
  rewrite Hw1 in Hrun. clear Hw1.
  cbn [set_pendingWrites set_isWriting pendingWrites
    isWriting written drainListeners immediates socketBehaviour] in Hrun.
  apply bind_Some in Hrun as (af & Haf & Hrun).
  assert (Hfirst : (immediates s ≤ immediates af)%nat
                   ∧ (length (drainListeners s)
                      ≤ length (drainListeners af))%nat
                   ∧ (isWriting af = true →
                      (length (drainListeners s)
                       < length (drainListeners af))%nat)).
  { assert (Hnested : ∀ w,
              processWriteQueue fuel
                (set_isWriting false
                   (Session rest true w (drainListeners s) (immediates s)
                      (tl (socketBehaviour s)))) = Some af →
              (immediates s ≤ immediates af)%nat
              ∧ (length (drainListeners s) ≤ length (drainListeners af))%nat
              ∧ (isWriting af = true →
                 (length (drainListeners s) < length (drainListeners af))%nat)).
    { intros w (H1 & H2 & _ & _ & H3 & _)%IH. cbn in H1, H2, H3.
      split; [done |]. split; [done |]. by apply H3. }
    destruct r1; [by eapply Hnested | | by eapply Hnested].
    injection Haf as <-. cbn. rewrite length_app. cbn. lia. }
  clear Haf. destruct Hfirst as (H1 & H2 & H3).
  destruct (socket_write_spec data af) as (r2 & Hw2 & _).
  rewrite Hw2 in Hrun. clear Hw2.
  assert (Hs' : (r2 = WriteBuffered
                 ∧ isWriting s' = isWriting af
                 ∧ immediates s' = immediates af
                 ∧ length (drainListeners s') = S (length (drainListeners af)))
                ∨ (isWriting s' = false
                   ∧ immediates s' = S (immediates af)
                   ∧ drainListeners s' = drainListeners af)).
  { injection Hrun as <-. destruct r2; cbn; rewrite ?length_app; cbn;
      [right | left | right]; repeat split; lia. }
  clear Hrun.
  destruct Hs' as [(_ & Hw' & Hi' & Hl') | (Hw' & Hi' & Hl')].
  - rewrite Hi', Hl'. repeat split; try done; lia.
  - rewrite Hi', Hl', Hw'. repeat split; try done; lia.
Qed.

Lemma accounted_ext (b : list write_result) (p : Buffer) (s s' : session) :
  pendingWrites s' = pendingWrites s → written s' = written s →
  socketBehaviour s' = socketBehaviour s →
  accounted b p s → accounted b p s'.
Proof.
  intros Hq Hw Hb (taken & H). exists taken. by rewrite Hq, Hw, Hb.
Qed.

Lemma processWriteQueue_accounted (b : list write_result) (p : Buffer)
    (fuel : nat) (s s' : session) :
  accounted b p s → processWriteQueue fuel s = Some s' → accounted b p s'.
Proof.
  intros (taken & Hp & Hfrom & Hlen & [k Hk] & Hall)
         (t2 & new & k2 & Hq & Hw & Hnew & Hlen2 & Hb & Hall2)%processWriteQueue_account.
  exists (taken ++ t2). rewrite Hw, Hb, Hk.
  split; [| split; [| split; [| split]]].
  - rewrite <- Hp, Hq, !concat_app. by rewrite <- app_assoc.
  - apply Forall_app. split.
    + eapply Forall_impl; [exact Hfrom |]. intros c ?.
      apply elem_of_app. by left.
    + eapply Forall_impl; [exact Hnew |]. intros c ?.
      apply elem_of_app. by right.
  - rewrite !length_app. lia.
  - exists (k + k2)%nat. apply drop_drop.
  - intros Hclean. apply Forall_app. split.
    + eapply Forall_impl; [exact (Hall Hclean) |]. intros c ?.
      apply elem_of_app. by left.
    + rewrite Hk in Hall2.
      eapply Forall_impl; [exact (Hall2 (no_throw_drop k b Hclean)) |].
      intros c ?. apply elem_of_app. by right.
Qed.

Lemma on_message_accounted (b : list write_result) (p : Buffer)
    (data : Buffer) (s s' : session) :
  accounted b p s → on_message data s = Some s' → accounted b (p ++ data) s'.
Proof.
  intros (taken & Hp & Hfrom & Hlen & Hk & Hall). unfold on_message.
  destruct (enqueue_concat data (pendingWrites s)) as (cs & -> & Hcs).
  cbn [mbind option_bind]. apply processWriteQueue_accounted.
  exists taken. cbn. rewrite concat_app, Hcs, app_assoc, Hp. by repeat split.
Qed.

Lemma run_drain_listener_accounted (b : list write_result) (p : Buffer)
    (l : drain_listener) (s s' : session) :
  accounted b p s → run_drain_listener l s = Some s' → accounted b p s'.
Proof.
  intros Hs. destruct l; cbn [run_drain_listener].
  - apply processWriteQueue_accounted. by apply (accounted_ext b p s).
  - intros [= <-]. by apply (accounted_ext b p s).
Qed.

Lemma foldl_listeners_None (ls : list drain_listener) :
  foldl (fun acc l => s ← acc; run_drain_listener l s) None ls = None.
Proof. induction ls as [| l ls IH]; [done | exact IH]. Qed.

Lemma foldl_listeners (P : session → Prop) (ls : list drain_listener) :
  (∀ l s s', P s → run_drain_listener l s = Some s' → P s') →
  ∀ s s', P s →
    foldl (fun acc l => s ← acc; run_drain_listener l s) (Some s) ls = Some s' →
    P s'.
Proof.
  intros Hstep. induction ls as [| l ls IH]; intros s s' Hs; cbn [foldl].
  - by intros [= <-].
  - cbn [mbind option_bind].
    destruct (run_drain_listener l s) as [s1 |] eqn:Hl.
    + apply IH. by apply (Hstep l s).
    + by rewrite foldl_listeners_None.
Qed.

Lemma payload_one (e : event) :
  payload [e] = match e with RelayMessage data => data | _ => [] end.
Proof. unfold payload. destruct e; cbn; by rewrite ?app_nil_r. Qed.

Lemma handle_accounted (b : list write_result) (p : Buffer) (e : event)
    (s s' : session) :
  accounted b p s → handle e s = Some s' →
  accounted b (p ++ payload [e]) s'.
Proof.
  intros Hs. rewrite payload_one.
  destruct e as [data | |]; cbn [handle]; rewrite ?app_nil_r.
  - by apply on_message_accounted.
  - unfold on_drain.
    apply (foldl_listeners (accounted b p)).
    + intros l. apply run_drain_listener_accounted.
    + by apply (accounted_ext b p s).
  - unfold on_immediate. destruct (immediates s) as [| n]; [by intros [= <-] |].
    apply processWriteQueue_accounted. by apply (accounted_ext b p s).
Qed.

Lemma payload_cons (e : event) (es : list event) :
  payload (e :: es) = payload [e] ++ payload es.
Proof. unfold payload. destruct e; cbn; by rewrite ?app_nil_r. Qed.

Lemma run_accounted (b : list write_result) (es : list event) :
  ∀ p s, accounted b p s →
    ∃ s', run es s = Some s' ∧ accounted b (p ++ payload es) s'.
Proof.
  unfold run. induction es as [| e es IH]; intros p s Hs.
  - exists s. split; [done |]. unfold payload. cbn. by rewrite app_nil_r.
  - cbn [foldl]. cbn [mbind option_bind].
    destruct (handle_total e s) as [s1 Hs1]. rewrite Hs1.
    rewrite payload_cons, app_assoc. apply IH.
    by apply (handle_accounted b p e s).
Qed.

(** Whatever the socket answers to each write and in whatever order
    messages, drain events and immediate callbacks arrive, every byte
    received from the relay is accounted for: the chunks taken from the
    queue so far, followed by the chunks still waiting, are the bytes of
    the messages in order; the socket has been given nothing but chunks
    taken from the queue, in all at most twice as many writes as chunks
    taken; and, if no write throws, each chunk taken at least once.  The
    queue duplicates, but it neither drops nor invents data. *)
Theorem queue_accounts_for_every_byte (es : list event)
    (b : list write_result) :
  ∃ s taken,
    run es (idle b) = Some s
    ∧ concat taken ++ concat (pendingWrites s) = payload es
    ∧ Forall (fun c => c ∈ taken) (written s)
    ∧ (length (written s) ≤ 2 * length taken)%nat
    ∧ (no_throw b → Forall (fun c => c ∈ written s) taken).
Proof.
  destruct (run_accounted b es [] (idle b)) as (s & Hrun & taken & H).
  { exists []. cbn. repeat split; try done. by exists 0%nat. }
  exists s, taken. split; [done |].
  destruct H as (Hp & Hfrom & Hlen & _ & Hall). by repeat split.
Qed.

(** A call made while [isWriting] is not set leaves the queue
    resumable, whatever it was before. *)
Lemma processWriteQueue_resumes (fuel : nat) (s s' : session) :
  isWriting s = false → processWriteQueue fuel s = Some s' → resumable s'.
Proof.
  intros Hw (Hi & Hl & _ & Hempty & Hset & Hleft)%processWriteQueue_schedule.
  split.
  - intros Hw'. specialize (Hset Hw Hw').
    destruct (drainListeners s'); [cbn in Hset; lia | done].
  - intros Hq'. destruct (pendingWrites s) as [| d q] eqn:Hq.
    + rewrite (Hempty eq_refl) in Hq'. by rewrite Hq in Hq'.
    + destruct (Hleft Hw) as [Himm | Hls]; [done | right; lia | left].
      destruct (drainListeners s'); [cbn in Hls; lia | done].
Qed.

Lemma processWriteQueue_resumable (fuel : nat) (s s' : session) :
  resumable s → processWriteQueue fuel s = Some s' → resumable s'.
Proof.
  intros Hs Hrun. destruct (isWriting s) eqn:Hw.
  - apply processWriteQueue_schedule in Hrun as (_ & _ & Hsame & _).
    by rewrite (Hsame Hw).
  - by apply (processWriteQueue_resumes fuel s).
Qed.

(** A queue that gets more chunks while it is resumable stays so. *)
Lemma resumable_more (q : list Buffer) (s : session) :
  isWriting s = true → resumable s → resumable (set_pendingWrites q s).
Proof.
  intros Hw [Hls _]. split; cbn; [done |]. intros _. left. by apply Hls.
Qed.

Lemma on_message_resumable (data : Buffer) (s s' : session) :
  resumable s → on_message data s = Some s' → resumable s'.
Proof.
  intros Hs. unfold on_message.
  destruct (enqueue data (pendingWrites s)) as [q |]; [| done].
  cbn [mbind option_bind]. destruct (isWriting s) eqn:Hw.
  - apply processWriteQueue_resumable. by apply resumable_more.
  - by apply processWriteQueue_resumes.
Qed.

Lemma run_drain_listener_resumes (l : drain_listener) (s s' : session) :
  run_drain_listener l s = Some s' → resumable s'.
Proof.
  destruct l; cbn [run_drain_listener].
  - by apply processWriteQueue_resumes.
  - intros [= <-]. split; cbn; [done |]. intros _. right. lia.
Qed.

Lemma on_drain_resumable (s s' : session) :
  resumable s → on_drain s = Some s' → resumable s'.
Proof.
  intros Hs. unfold on_drain.
  destruct (drainListeners s) as [| l ls] eqn:Hls.
  - cbn. intros [= <-]. destruct s as [q w wr dl n b]. cbn in *. by subst.
  - cbn [foldl]. cbn [mbind option_bind].
    destruct (run_drain_listener l _) as [s1 |] eqn:Hl.
    + apply (foldl_listeners resumable).
      * intros l' s0 s0' _. apply run_drain_listener_resumes.
      * by eapply run_drain_listener_resumes.
    + by rewrite foldl_listeners_None.
Qed.

Lemma on_immediate_resumable (s s' : session) :
  resumable s → on_immediate s = Some s' → resumable s'.
Proof.
  intros Hs. unfold on_immediate.
  destruct (immediates s) as [| n] eqn:Hn; [by intros [= <-] |].
  destruct (isWriting s) eqn:Hw.
  - intros (_ & _ & Hsame & _)%processWriteQueue_schedule.
    rewrite (Hsame eq_refl). destruct Hs as [Hls _].
    split; cbn; [intros _; by apply Hls |]. intros _. left. by apply Hls.
  - by apply processWriteQueue_resumes.
Qed.

Lemma run_resumable (es : list event) :
  ∀ s, resumable s → ∃ s', run es s = Some s' ∧ resumable s'.
Proof.
  unfold run. induction es as [| e es IH]; intros s Hs; [by exists s |].
  cbn [foldl]. cbn [mbind option_bind].
  destruct (handle_total e s) as [s1 Hs1]. rewrite Hs1. apply IH.
  destruct e; cbn [handle] in Hs1.
  - by apply (on_message_resumable data s).
  - by apply (on_drain_resumable s).
  - by apply (on_immediate_resumable s).
Qed.

(** The queue cannot stall.  Whatever the socket answers to each write
    and in whatever order messages, drain events and immediate
    callbacks arrive: while [isWriting] is set a drain listener is
    registered that will clear it, and while chunks wait in the queue a
    drain listener is registered or a [setImmediate] callback is queued
    that will take the queue up again. *)
Theorem queue_cannot_stall (es : list event) (b : list write_result) :
  ∃ s, run es (idle b) = Some s
       ∧ (isWriting s = true → drainListeners s ≠ [])
       ∧ (pendingWrites s ≠ [] →
          drainListeners s ≠ [] ∨ (0 < immediates s)%nat).
Proof.
  destruct (run_resumable es (idle b)) as (s & Hrun & Hs1 & Hs2); [by split |].
  by exists s.
Qed.

End QueueIntegrity.

(** ** Deployment agent: the variables file *)

Section VariablesFile.

Import GiteaListener Agent.

Local Open Scope string_scope.

(** Lines without the first character of the separator, each followed
    by the separator, are read back as they are. *)
Lemma split_terminated_by (c0 : Ascii.ascii) (sep' : string)
    (lines : list string) (rest : string) :
  Forall (fun l => Text.lacks c0 l = true) lines →
  split (Text.terminated (String c0 sep') lines rest) (String c0 sep')
  = (lines ++ split rest (String c0 sep'))%list.
Proof.
  induction 1 as [| l lines Hl _ IH]; [done |].
  cbn [Text.terminated foldr]. fold (Text.terminated (String c0 sep') lines rest).
  unfold split at 1. rewrite (split_go_piece c0 sep' l) by done.
  rewrite append_empty_l. cbn [app]. f_equal. apply IH.
Qed.

Lemma variables_content_terminated (vs : list (string * value)) :
  variables_content vs = Text.terminated LF (map assignment vs) "".
Proof.
  unfold variables_content. induction vs as [| kv vs IH]; [done |].
  cbn [map]. rewrite concat_cons, IH. unfold variable_line.
  cbn [Text.terminated foldr]. by rewrite append_assoc.
Qed.

(** The variables file holds one assignment per variable, in the order
    of [Object.entries], each ended by a line feed: when no name and no
    value holds a line feed, the lines of the file are exactly these
    assignments.  A string value is written between quotes as it is,
    with no escaping, so that one variable whose value holds a quote and
    a line feed writes the same file as two variables. *)
Theorem variables_file_lines (vs : list (string * value)) :
  variables_content vs = Text.terminated LF (map assignment vs) ""
  ∧ (Forall (fun kv => Text.lacks LF_char (assignment kv) = true) vs →
     split (variables_content vs) LF = (map assignment vs ++ [""])%list)
  ∧ (∀ k v k' v',
       variables_content
         [(k, VString (v +:+ QUOTE +:+ LF +:+ k' +:+ " = " +:+ QUOTE +:+ v'))]
       = variables_content [(k, VString v); (k', VString v')]).
Proof.
  split; [apply variables_content_terminated |]. split.
  - intros Hvs. rewrite variables_content_terminated.
    change LF with (String LF_char "").
    rewrite split_terminated_by; [done |].
    apply Forall_fmap. by eapply Forall_impl.
  - intros k v k' v'. rewrite !variables_content_terminated.
    cbn [map Text.terminated foldr]. unfold assignment. cbn [fst snd].
    by rewrite !append_assoc.
Qed.

(** [variables_file_lines] at two variables, a string and a number. *)
Lemma variables_file_lines_witness :
  split (variables_content [("region", VString "usgovvirginia");
                            ("count", VJson "3")]) LF
  = ["region = " +:+ QUOTE +:+ "usgovvirginia" +:+ QUOTE; "count = 3"; ""].
Proof.
  destruct (variables_file_lines [("region", VString "usgovvirginia");
                                  ("count", VJson "3")]) as (_ & Hlines & _).
  rewrite Hlines; [reflexivity |].
  repeat constructor.
Defined.

End VariablesFile.

(** ** Passthrough: the queue drains *)

Section QueueDrains.

Import Passthrough WriteQueue.

(** A call of [processWriteQueue] never lengthens the queue, and
    shortens it when it finds chunks and [isWriting] not set. *)
Lemma processWriteQueue_shortens (fuel : nat) (s s' : session) :
  processWriteQueue fuel s = Some s' →
  (length (pendingWrites s') ≤ length (pendingWrites s))%nat
  ∧ (isWriting s = false → pendingWrites s ≠ [] →
     (length (pendingWrites s') < length (pendingWrites s))%nat).
Proof.
  intros Hrun. split.
  { apply processWriteQueue_account in Hrun as (taken & _ & _ & Hq & _).
    rewrite Hq, length_app. lia. }
  intros Hw Hne. destruct fuel as [| fuel]; [done |].
  cbn [processWriteQueue] in Hrun.
  destruct (pendingWrites s) as [| data rest] eqn:Hq; [done |].
  rewrite Hw in Hrun.
  destruct (socket_write_spec data
              (set_pendingWrites rest (set_isWriting true s)))
    as (r1 & Hw1 & _).
  rewrite Hw1 in Hrun. clear Hw1.
  cbn [set_pendingWrites set_isWriting pendingWrites
    isWriting written drainListeners immediates socketBehaviour] in Hrun.
  apply bind_Some in Hrun as (af & Haf & Hrun).
  assert (Hfirst : (length (pendingWrites af) ≤ length rest)%nat).
  { assert (Hnested : ∀ w,
              processWriteQueue fuel
                (set_isWriting false
                   (Session rest true w (drainListeners s) (immediates s)
                      (tl (socketBehaviour s)))) = Some af →
              (length (pendingWrites af) ≤ length rest)%nat).
    { intros w (taken & _ & _ & H1 & _)%processWriteQueue_account.
      cbn in H1. rewrite H1, length_app. lia. }
    destruct r1; [by eapply Hnested | | by eapply Hnested].
    by injection Haf as <-. }
  destruct (socket_write_spec data af) as (r2 & Hw2 & _).
  rewrite Hw2 in Hrun. injection Hrun as <-.
  destruct r2; cbn; lia.
Qed.

Lemma run_drain_listener_shortens (l : drain_listener) (s s' : session) :
  run_drain_listener l s = Some s' →
  (length (pendingWrites s') ≤ length (pendingWrites s))%nat
  ∧ ((length (pendingWrites s') < length (pendingWrites s))%nat
     ∨ pendingWrites s = []
     ∨ (isWriting s' = false ∧ (0 < immediates s')%nat)).
Proof.
  destruct l; cbn [run_drain_listener].
  - intros [Hle Hlt]%processWriteQueue_shortens. cbn in Hle, Hlt.
    split; [done |]. destruct (pendingWrites s) as [| d q] eqn:Hq.
    + right. by left.
    + left. by apply Hlt.
  - intros [= <-]. cbn. split; [done |]. right. right. split; [done | lia].
Qed.

(** After a listener of the drain event the queue is shorter than [n],
    or an immediate callback is queued and [isWriting] is not set. *)
Lemma run_drain_listener_advances (n : nat) (l : drain_listener)
    (s s' : session) :
  (0 < n)%nat → (length (pendingWrites s) ≤ n)%nat →
  run_drain_listener l s = Some s' →
  (length (pendingWrites s') ≤ n)%nat
  ∧ ((length (pendingWrites s') < n)%nat
     ∨ (isWriting s' = false ∧ (0 < immediates s')%nat)).
Proof.
  intros Hn Hle [Hle1 Hcase]%run_drain_listener_shortens.
  split; [lia |].
  destruct Hcase as [Hlt | [Hempty | Himm]]; [left; lia | | by right].
  rewrite Hempty in Hle1. cbn in Hle1. left. lia.
Qed.

Lemma foldl_listeners_advance (n : nat) (ls : list drain_listener) :
  (0 < n)%nat →
  ∀ s s',
    (length (pendingWrites s) ≤ n)%nat →
    ((length (pendingWrites s) < n)%nat
     ∨ (isWriting s = false ∧ (0 < immediates s)%nat)) →
    foldl (fun acc l => s ← acc; run_drain_listener l s) (Some s) ls = Some s' →
    (length (pendingWrites s') ≤ n)%nat
    ∧ ((length (pendingWrites s') < n)%nat
       ∨ (isWriting s' = false ∧ (0 < immediates s')%nat)).
Proof.
  intros Hn. induction ls as [| l ls IH]; intros s s' Hle Hq; cbn [foldl].
  - by intros [= <-].
  - cbn [mbind option_bind].
    destruct (run_drain_listener l s) as [s1 |] eqn:Hl;
      [| by rewrite foldl_listeners_None].
    apply (run_drain_listener_advances n) in Hl as [Hle1 Hq1]; [| done | done].
    by apply IH.
Qed.

Lemma on_immediate_shortens (s s' : session) :
  on_immediate s = Some s' →
  (length (pendingWrites s') ≤ length (pendingWrites s))%nat
  ∧ (isWriting s = false → (0 < immediates s)%nat → pendingWrites s ≠ [] →
     (length (pendingWrites s') < length (pendingWrites s))%nat).
Proof.
  unfold on_immediate. destruct (immediates s) as [| n].
  - intros [= <-]. split; [done | lia].
  - intros [Hle Hlt]%processWriteQueue_shortens. cbn in Hle, Hlt.
    split; [done |]. intros Hw _ Hq. by apply Hlt.
Qed.

(** One round: the socket drains, then the event loop runs an immediate
    callback.  The queue stays resumable, does not grow, and loses at
    least one chunk if it holds any. *)
Lemma round_shortens (s : session) :
  resumable s →
  ∃ s', run [SocketDrain; Immediate] s = Some s'
        ∧ resumable s'
        ∧ (length (pendingWrites s') ≤ length (pendingWrites s))%nat
        ∧ (pendingWrites s ≠ [] →
           (length (pendingWrites s') < length (pendingWrites s))%nat).
Proof.
  intros Hs. unfold run. cbn [foldl]. cbn [mbind option_bind handle].
  destruct (handle_total SocketDrain s) as [s1 Hs1]. cbn [handle] in Hs1.
  rewrite Hs1. cbn [mbind option_bind].
  destruct (handle_total Immediate s1) as [s2 Hs2]. cbn [handle] in Hs2.
  rewrite Hs2. exists s2. split; [done |].
  pose proof (on_drain_resumable s s1 Hs Hs1) as Hr1.
  split; [by apply (on_immediate_resumable s1) |].
  destruct (on_immediate_shortens s1 s2 Hs2) as [Hle2 Hlt2].
  assert (Hdrain : (length (pendingWrites s1) ≤ length (pendingWrites s))%nat
                   ∧ (pendingWrites s ≠ [] →
                      (length (pendingWrites s1) < length (pendingWrites s))%nat
                      ∨ (isWriting s1 = false ∧ (0 < immediates s1)%nat))).
  { unfold on_drain in Hs1.
    destruct (drainListeners s) as [| l ls] eqn:Hls.
    - cbn in Hs1. injection Hs1 as <-. cbn. split; [done |].
      intros Hq. right. destruct Hs as [Hw Hres]. split.
      + destruct (isWriting s); [| done]. by destruct Hw.
      + destruct (Hres Hq) as [? | ?]; [by rewrite Hls in * | done].
    - destruct (pendingWrites s) as [| d q] eqn:Hq.
      + split; [| done]. cbn.
        assert (Hall : ∀ (ls' : list drain_listener) s0 s0',
                  pendingWrites s0 = [] →
                  foldl (fun acc l => s ← acc; run_drain_listener l s)
                    (Some s0) ls' = Some s0' → pendingWrites s0' = []).
        { induction ls' as [| l' ls' IH]; intros s0 s0' H0; cbn [foldl].
          - by intros [= <-].
          - cbn [mbind option_bind].
            destruct (run_drain_listener l' s0) as [s0'' |] eqn:Hl';
              [| by rewrite foldl_listeners_None].
            apply IH.
            apply run_drain_listener_shortens in Hl' as [Hle' _].
            rewrite H0 in Hle'. cbn in Hle'.
            destruct (pendingWrites s0''); [done | cbn in Hle'; lia]. }
        assert (Hq1 : pendingWrites s1 = [])
          by (eapply Hall; [| exact Hs1]; done).
        rewrite Hq1. cbn. lia.
      + cbn [foldl] in Hs1. cbn [mbind option_bind] in Hs1.
        destruct (run_drain_listener l _) as [s0 |] eqn:Hl;
          [| by rewrite foldl_listeners_None in Hs1].
        apply (run_drain_listener_advances (S (length q))) in Hl
          as [Hle0 Hq0]; [| lia | cbn; lia].
        destruct (foldl_listeners_advance (S (length q)) ls ltac:(lia)
                    s0 s1 Hle0 Hq0 Hs1) as [Hle1 Hq1].
        cbn [length]. split; [done |]. by intros _. }
  destruct Hdrain as [Hle1 Hadv]. split; [lia |].
  intros Hq. destruct (Hadv Hq) as [Hlt | [Hw Himm]]; [lia |].
  destruct (pendingWrites s1) as [| d q] eqn:Hq1.
  - cbn in Hle2. destruct (pendingWrites s); [done | cbn; lia].
  - specialize (Hlt2 Hw Himm ltac:(done)). lia.
Qed.

Lemma run_app (es1 es2 : list event) (s : session) :
  run (es1 ++ es2) s = run es1 s ≫= run es2.
Proof.
  unfold run. rewrite foldl_app.
  destruct (foldl _ (Some s) es1) as [s1 |]; [done |].
  cbn. induction es2 as [| e es2 IH]; [done | exact IH].
Qed.

Lemma rounds_drain (n : nat) :
  ∀ s, resumable s → (length (pendingWrites s) ≤ n)%nat →
       ∃ s', run (rounds n) s = Some s' ∧ pendingWrites s' = [].
Proof.
  induction n as [| n IH]; intros s Hs Hn.
  - exists s. split; [done |]. destruct (pendingWrites s); [done | cbn in Hn; lia].
  - destruct (round_shortens s Hs) as (s1 & Hrun & Hs1 & Hle & Hlt).
    destruct (IH s1 Hs1) as (s' & Hrun' & Hq').
    { destruct (pendingWrites s) as [| d q] eqn:Hq; [cbn in Hle; lia |].
      specialize (Hlt ltac:(done)). cbn in Hlt, Hn. lia. }
    exists s'. split; [| done].
    change (rounds (S n)) with ([SocketDrain; Immediate] ++ rounds n).
    by rewrite run_app, Hrun.
Qed.

(** Once the relay has stopped sending, the queue drains: after as many
    rounds of a drain event and an immediate callback as chunks are
    waiting, the queue is empty, whatever the socket answered to each
    write.  Every byte received has then been taken from the queue, the
    socket was given nothing else, and, if no write threw, it was given
    every chunk at least once. *)
Theorem queue_drains (es : list event) (b : list write_result) :
  ∃ s s' taken,
    run es (idle b) = Some s
    ∧ run (es ++ rounds (length (pendingWrites s))) (idle b) = Some s'
    ∧ pendingWrites s' = []
    ∧ concat taken = payload es
    ∧ Forall (fun c => c ∈ taken) (written s')
    ∧ (no_throw b → Forall (fun c => c ∈ written s') taken).
Proof.
  destruct (run_resumable es (idle b)) as (s & Hrun & Hs); [by split |].
  destruct (rounds_drain (length (pendingWrites s)) s Hs) as (s' & Hrun' & Hq');
    [done |].
  assert (Hall : run (es ++ rounds (length (pendingWrites s))) (idle b)
                 = Some s') by (by rewrite run_app, Hrun).
  destruct (run_accounted b (es ++ rounds (length (pendingWrites s))) []
              (idle b)) as (s'' & Hrun'' & taken & Hp & Hfrom & _ & _ & Hto).
  { exists []. cbn. repeat split; try done. by exists 0%nat. }
  rewrite Hall in Hrun''. injection Hrun'' as <-.
  exists s, s', taken. split; [done |]. split; [done |]. split; [done |].
  split; [| by split].
  rewrite Hq' in Hp. cbn in Hp. rewrite app_nil_r in Hp. rewrite Hp.
  unfold payload. rewrite omap_app, concat_app.
  assert (Hnone : ∀ n, omap (fun e => match e with
                                     | RelayMessage data => Some data
                                     | _ => None
                                     end) (rounds n) = []).
  { induction n as [| n IHn]; [done | exact IHn]. }
  rewrite Hnone. cbn. by rewrite app_nil_r.
Qed.

End QueueDrains.
